(** * Lesik Cache Agent: request dispatch and path-safety layer

    A shallow embedding of [src/index.js] together with the parts of the
    Node.js runtime it calls ([path] on a POSIX system, the base64
    conversions of [Buffer], the synchronous [fs] API, the events of a
    [ws] socket and of [setTimeout]), and the properties of the agent
    proved over that embedding.

    The agent proper takes [resolvedPath] and [cacheFiles] as
    parameters; the lines of the script that compute them from the
    command line are the module [Startup].  What is left out: the banner
    printed before [connect()], the [SIGINT] handler, and every kind of
    file system node other than regular files and directories.

    Layout: definitions first (modules [Path], [Base64], [Js], [Fs],
    [Agent], [Scenario], [Startup], [Frame], [Wire]), then the lemmas and
    theorems. *)

From Stdlib Require Import String Ascii List Bool Arith NArith Lia.
From Stdlib Require Import Strings.Byte.
Import ListNotations.
Local Open Scope list_scope.
Local Open Scope string_scope.
Set Warnings "-register-all".

(* ================================================================== *)
(** * Part I: definitions                                              *)
(* ================================================================== *)

(** ** Node's [path] module (POSIX flavour)

    [src/index.js] uses [path.resolve], [path.join] and [path.dirname].
    Node scans the characters of the path; the functions below work on
    the segments between separators, which computes the same strings. *)

Module Path.

Definition is_sep (c : ascii) : bool := Ascii.eqb c "/".

(** [s.split('/')]: the segments between separators, never empty. *)
Fixpoint split (s : string) : list string :=
  match s with
  | EmptyString => [EmptyString]
  | String c rest =>
      if is_sep c then EmptyString :: split rest
      else match split rest with
           | [] => [String c EmptyString]
           | seg :: segs => String c seg :: segs
           end
  end.

(** [segs.join('/')]. *)
Definition unsplit (segs : list string) : string := String.concat "/" segs.

(** [String.prototype.startsWith]. *)
Definition startsWith (s pre : string) : bool := String.prefix pre s.

Definition isAbsolute (p : string) : bool :=
  match p with
  | String c _ => is_sep c
  | EmptyString => false
  end.

Fixpoint endsWithSep (p : string) : bool :=
  match p with
  | EmptyString => false
  | String c EmptyString => is_sep c
  | String _ rest => endsWithSep rest
  end.

(** One step of [normalizeString]: [stack] holds the segments kept so
    far, innermost first.  Empty and [.] segments are skipped, [..]
    removes the segment before it, and is kept only above the start of
    a relative path. *)
Definition push_segment (allowAboveRoot : bool)
    (stack : list string) (seg : string) : list string :=
  if (seg =? "") || (seg =? ".") then stack
  else if seg =? ".." then
    match stack with
    | top :: below =>
        if top =? ".." then (if allowAboveRoot then ".." :: stack else stack)
        else below
    | [] => if allowAboveRoot then [".."] else []
    end
  else seg :: stack.

Definition normalize_segments (allowAboveRoot : bool)
    (segs : list string) : list string :=
  rev (fold_left (push_segment allowAboveRoot) segs []).

Definition normalizeString (path : string) (allowAboveRoot : bool) : string :=
  unsplit (normalize_segments allowAboveRoot (split path)).

(** [path.normalize]. *)
Definition normalize (path : string) : string :=
  if path =? "" then "."
  else
    let abs := isAbsolute path in
    let trailing := endsWithSep path in
    let p := normalizeString path (negb abs) in
    if p =? "" then
      (if abs then "/" else if trailing then "./" else ".")
    else
      (if abs then "/" else "") ++ p ++ (if trailing then "/" else "").

Definition nonempty (s : string) : bool := negb (s =? "").

(** [path.join(...args)]: the non-empty arguments glued with [/], then
    normalized. *)
Definition join (args : list string) : string :=
  match filter nonempty args with
  | [] => "."
  | parts => normalize (unsplit parts)
  end.



Definition drop_while {A} (f : A -> bool) : list A -> list A :=
  fix go (l : list A) : list A :=
    match l with
    | [] => []
    | x :: r => if f x then go r else l
    end.

(** The scan of [path.dirname] over the characters after the first one,
    from the right: trailing separators are skipped, then the last
    segment; [Some kept] holds, reversed, the characters left of the
    separator found. *)
Definition dirname_scan (rev_rest : list ascii) : option (list ascii) :=
  match drop_while (fun c => negb (is_sep c)) (drop_while is_sep rev_rest) with
  | [] => None
  | _ :: kept => Some kept
  end.

(** [path.dirname]. *)
Definition dirname (path : string) : string :=
  match path with
  | EmptyString => "."
  | String c0 rest =>
      let hasRoot := is_sep c0 in
      match dirname_scan (rev (list_ascii_of_string rest)) with
      | None => if hasRoot then "/" else "."
      | Some kept =>
          match kept with
          | [] => if hasRoot then "//" else String c0 EmptyString
          | _ => String c0 (string_of_list_ascii (rev kept))
          end
      end
  end.

(** *** Shapes of paths used in the statements below *)

Definition no_sep (s : string) : bool :=
  forallb (fun c => negb (is_sep c)) (list_ascii_of_string s).

(** A name a directory entry can have. *)
Definition clean (s : string) : bool :=
  negb (s =? "") && negb (s =? ".") && negb (s =? "..") && no_sep s.

(** A segment that is a clean name or empty. *)
Definition calm (s : string) : Prop := s = "" \/ clean s = true.

(** A path is tidy when it is absolute and its segments are clean names,
    after the empty segment of the leading separator and possibly before
    the empty one of a trailing separator. *)
Definition tidy (p : string) (segs : list string) : Prop :=
  isAbsolute p = true /\
  Forall (fun x => clean x = true) segs /\
  (split p = "" :: segs \/ split p = "" :: (segs ++ [""])%list).

(** The paths [path.resolve] returns: absolute, and unchanged by
    normalization. *)
Definition resolved (p : string) : bool :=
  isAbsolute p && (p =? "/" ++ unsplit (normalize_segments false (split p))).

(** The names along a path, and whether it ends with a separator. *)
Definition segments (p : string) : list string := filter nonempty (split p).

Definition trailing_sep (p : string) : bool :=
  match rev (split p) with
  | EmptyString :: _ => true
  | _ => false
  end.

(** Containment by path components, as opposed to [startsWith] on the
    text: the segments of [base] lead the segments of [p]. *)
Fixpoint leads (base p : list string) : bool :=
  match base, p with
  | [], _ => true
  | _ :: _, [] => false
  | b :: base', x :: p' => (b =? x) && leads base' p'
  end.

Definition inside (base p : string) : bool :=
  leads (normalize_segments false (split base))
        (normalize_segments false (split p)).

End Path.

(** ** [Buffer] and its base64 text form

    File contents are byte sequences.  A JavaScript string is kept as
    the bytes of its UTF-8 form, which is what Node hands to the file
    system and writes to the socket.  [buffer.toString('base64')] is the
    standard encoding with [=] padding.  [Buffer.from(text, 'base64')] is
    Node's lenient decoder: it reads the UTF-16 code units of the text
    and keeps the low 8 bits of each; a unit whose low byte is not a
    character of the alphabet is skipped, the URL-safe characters [-] and
    [_] are accepted, and decoding stops at the first unit whose low byte
    is [=]. *)

Module Base64.

Definition alphabet : string :=
  "ABCDEFGHIJKLMNOPQRSTUVWXYZabcdefghijklmnopqrstuvwxyz0123456789+/".

(** The character of a 6-bit value. *)
Definition base64_char (v : N) : ascii :=
  match String.get (N.to_nat v) alphabet with
  | Some c => c
  | None => "="%char
  end.

(** [unbase64]: the 6-bit value of a character, [None] for a character
    that is not part of the alphabet. *)
Definition unbase64 (c : ascii) : option N :=
  (let n := N_of_ascii c in
  let within (lo hi : N) := (N.leb lo n && N.leb n hi)%bool in
  if within 65 90 then Some (n - 65)
  else if within 97 122 then Some (n - 97 + 26)
  else if within 48 57 then Some (n - 48 + 52)
  else if (N.eqb n 43 || N.eqb n 45)%bool then Some 62
  else if (N.eqb n 47 || N.eqb n 95)%bool then Some 63
  else None)%N.

(** A number cut down to one byte, as a store into a [uint8_t]. *)
Definition uint8 (n : N) : byte :=
  match Byte.of_N (n mod 256) with
  | Some b => b
  | None => x00
  end.

Definition char_of (v : N) (rest : string) : string :=
  String (base64_char v) rest.

(** [buffer.toString('base64')]. *)
Fixpoint encode (bytes : list byte) : string :=
  match bytes with
  | [] => ""
  | [a] =>
      let a := Byte.to_N a in
      char_of (N.shiftr a 2) (char_of (N.shiftl (N.land a 3) 4) "==")
  | [a; b] =>
      let a := Byte.to_N a in
      let b := Byte.to_N b in
      char_of (N.shiftr a 2)
        (char_of (N.lor (N.shiftl (N.land a 3) 4) (N.shiftr b 4))
           (char_of (N.shiftl (N.land b 15) 2) "="))
  | a :: b :: c :: rest =>
      let a := Byte.to_N a in
      let b := Byte.to_N b in
      let c := Byte.to_N c in
      char_of (N.shiftr a 2)
        (char_of (N.lor (N.shiftl (N.land a 3) 4) (N.shiftr b 4))
           (char_of (N.lor (N.shiftl (N.land b 15) 2) (N.shiftr c 6))
              (char_of (N.land c 63) (encode rest))))
  end%N.

(** *** The code units of a string

    [low_bytes s] holds, for each UTF-16 code unit of the string whose
    UTF-8 bytes are [s], the low 8 bits of the unit: a character of one,
    two or three bytes is one unit, a character of four bytes is a pair
    of surrogates.  Three-byte forms of single surrogates are read like
    any other three-byte form.  A byte that starts no such form stands
    for the unit U+FFFD. *)
Definition continuation (c : ascii) : bool :=
  (N.leb 128 (N_of_ascii c) && N.ltb (N_of_ascii c) 192)%bool.

Definition six (c : ascii) : N := N.land (N_of_ascii c) 63.

Definition low (unit : N) : ascii := ascii_of_N (N.land unit 255).

Definition replacement : ascii := low 65533.

Fixpoint low_bytes (s : string) : string :=
  match s with
  | EmptyString => EmptyString
  | String c0 rest =>
      let b0 := N_of_ascii c0 in
      if N.ltb b0 128 then String c0 (low_bytes rest)
      else
        match rest with
        | EmptyString => String replacement EmptyString
        | String c1 rest1 =>
            if (N.ltb b0 192 || negb (continuation c1))%bool
            then String replacement (low_bytes rest)
            else if N.ltb b0 224 then
              String (low (N.lor (N.shiftl (N.land b0 31) 6) (six c1)))
                     (low_bytes rest1)
            else
              match rest1 with
              | EmptyString => String replacement (low_bytes rest)
              | String c2 rest2 =>
                  if negb (continuation c2)
                  then String replacement (low_bytes rest)
                  else if N.ltb b0 240 then
                    String (low (N.lor (N.shiftl (N.land b0 15) 12)
                                   (N.lor (N.shiftl (six c1) 6) (six c2))))
                           (low_bytes rest2)
                  else
                    match rest2 with
                    | EmptyString => String replacement (low_bytes rest)
                    | String c3 rest3 =>
                        if negb (continuation c3)
                        then String replacement (low_bytes rest)
                        else
                          let point :=
                            N.lor (N.shiftl (N.land b0 7) 18)
                              (N.lor (N.shiftl (six c1) 12)
                                 (N.lor (N.shiftl (six c2) 6) (six c3))) in
                          let v := (point - 65536)%N in
                          String (low (55296 + N.shiftr v 10)%N)
                            (String (low (56320 + N.land v 1023)%N)
                               (low_bytes rest3))
                    end
              end
        end
  end.

(** The 6-bit values of the legal characters in front of the first
    [=]. *)
Fixpoint sextets (text : string) : list N :=
  match text with
  | EmptyString => []
  | String c rest =>
      if Ascii.eqb c "=" then []
      else match unbase64 c with
           | Some v => v :: sextets rest
           | None => sextets rest
           end
  end.

Definition byte1 (hi lo : N) : byte :=
  uint8 (N.lor (N.shiftl (N.land hi 63) 2) (N.shiftr (N.land lo 48) 4)).
Definition byte2 (hi lo : N) : byte :=
  uint8 (N.lor (N.shiftl (N.land hi 15) 4) (N.shiftr (N.land lo 60) 2)).
Definition byte3 (hi lo : N) : byte :=
  uint8 (N.lor (N.shiftl (N.land hi 3) 6) (N.land lo 63)).

(** Four values give three bytes; a last group of two or three values
    gives one or two bytes, a single left-over value gives none. *)
Fixpoint bytes_of_sextets (vs : list N) : list byte :=
  match vs with
  | v1 :: v2 :: v3 :: v4 :: rest =>
      byte1 v1 v2 :: byte2 v2 v3 :: byte3 v3 v4 :: bytes_of_sextets rest
  | [v1; v2; v3] => [byte1 v1 v2; byte2 v2 v3]
  | [v1; v2] => [byte1 v1 v2]
  | _ => []
  end.

(** [Buffer.from(text, 'base64')]. *)
Definition decode (text : string) : list byte :=
  bytes_of_sextets (sextets (low_bytes text)).

(** *** Used in the proofs about the two conversions *)

(** All 256 bytes. *)
Definition all_bytes : list byte :=
  flat_map (fun n => match Byte.of_nat n with
                     | Some b => [b]
                     | None => []
                     end) (seq 0 256).

(** The four 6-bit values of three bytes, as [encode] computes them. *)
Definition v1 (a : byte) : N := N.shiftr (Byte.to_N a) 2.
Definition v2 (a b : byte) : N :=
  N.lor (N.shiftl (N.land (Byte.to_N a) 3) 4) (N.shiftr (Byte.to_N b) 4).
Definition v3 (b c : byte) : N :=
  N.lor (N.shiftl (N.land (Byte.to_N b) 15) 2) (N.shiftr (Byte.to_N c) 6).
Definition v4 (c : byte) : N := N.land (Byte.to_N c) 63.
Definition v2_last (a : byte) : N := N.shiftl (N.land (Byte.to_N a) 3) 4.
Definition v3_last (b : byte) : N := N.shiftl (N.land (Byte.to_N b) 15) 2.

(** A 6-bit value whose character is a unit of its own, is decoded
    back to the value, and is not the padding character. *)
Definition legal (v : N) : bool :=
  N.ltb (N_of_ascii (base64_char v)) 128
  && match unbase64 (base64_char v) with
     | Some v' => N.eqb v' v && negb (Ascii.eqb (base64_char v) "=")
     | None => false
     end.


End Base64.

(** ** JavaScript values, exceptions and conversions *)

Module Js.

(** A value as [JSON.parse] builds it, plus [undefined] for a property
    that is absent.  A number is kept as the text by which Node shows
    it: that of [Number.prototype.toString], and [-0] for the negative
    zero; [props] lists the own properties of an object. *)
Inductive value : Type :=
| VUndefined
| VNull
| VBool (b : bool)
| VNumber (repr : string)
| VString (s : string)
| VArray (items : list value)
| VObject (props : list (string * value)).

Inductive errno : Type := ENOENT | ENOTDIR | EISDIR | EEXIST | ENAMETOOLONG.

(** A thrown exception: [new Error(msg)], a [TypeError] or [SyntaxError]
    of the runtime, or the error of a failed system call. *)
Inductive exn : Type :=
| Error (msg : string)
| TypeError (msg : string)
| SyntaxError (msg : string)
| SystemError (code : errno) (syscall : string) (path : option string).

Definition errno_text (code : errno) : string :=
  match code with
  | ENOENT => "ENOENT: no such file or directory"
  | ENOTDIR => "ENOTDIR: not a directory"
  | EISDIR => "EISDIR: illegal operation on a directory"
  | EEXIST => "EEXIST: file already exists"
  | ENAMETOOLONG => "ENAMETOOLONG: name too long"
  end.

(** [err.message]. *)
Definition message (e : exn) : string :=
  match e with
  | Error msg => msg
  | TypeError msg => msg
  | SyntaxError msg => msg
  | SystemError code syscall None => errno_text code ++ ", " ++ syscall
  | SystemError code syscall (Some p) =>
      errno_text code ++ ", " ++ syscall ++ " '" ++ p ++ "'"
  end.



Fixpoint includes (needle hay : string) : bool :=
  match hay with
  | EmptyString => String.prefix needle EmptyString
  | String _ rest => String.prefix needle hay || includes needle rest
  end.


(** The outcome of evaluating an expression or a statement. *)
Inductive completion (A : Type) : Type :=
| Return (a : A)
| Throw (e : exn).
Arguments Return {A} a.
Arguments Throw {A} e.

Definition and_then {A B} (c : completion A) (k : A -> completion B)
    : completion B :=
  match c with
  | Return a => k a
  | Throw e => Throw e
  end.

Fixpoint own_property (props : list (string * value)) (key : string)
    : value :=
  match props with
  | [] => VUndefined
  | (k, v) :: rest => if k =? key then v else own_property rest key
  end.

Fixpoint has_own_property (props : list (string * value)) (key : string)
    : bool :=
  match props with
  | [] => false
  | (k, _) :: rest => (k =? key) || has_own_property rest key
  end.

(** [v.key] for a [key] that no built-in prototype defines (all the
    property names read by the agent are of this kind). *)
Definition member (v : value) (key : string) : completion value :=
  match v with
  | VUndefined =>
      Throw (TypeError ("Cannot read properties of undefined (reading '"
                        ++ key ++ "')"))
  | VNull =>
      Throw (TypeError ("Cannot read properties of null (reading '"
                        ++ key ++ "')"))
  | VObject props => Return (own_property props key)
  | _ => Return VUndefined
  end.

(** [v?.key]. *)
Definition optional_member (v : value) (key : string) : value :=
  match v with
  | VObject props => own_property props key
  | _ => VUndefined
  end.

(** [const { key, ... } = v], where [name] is the text of the
    expression destructured. *)
Definition destructure (v : value) (name key : string) : completion value :=
  match v with
  | VUndefined =>
      Throw (TypeError ("Cannot destructure property '" ++ key ++ "' of '"
                        ++ name ++ "' as it is undefined."))
  | VNull =>
      Throw (TypeError ("Cannot destructure property '" ++ key ++ "' of '"
                        ++ name ++ "' as it is null."))
  | VObject props => Return (own_property props key)
  | _ => Return VUndefined
  end.

(** Truthiness, as tested by [||] and [if]. *)
Definition truthy (v : value) : bool :=
  match v with
  | VUndefined | VNull => false
  | VBool b => b
  | VNumber repr => negb ((repr =? "0") || (repr =? "-0"))
  | VString s => negb (s =? "")
  | VArray _ | VObject _ => true
  end.

(** [a || b]. *)
Definition or_else (a b : value) : value := if truthy a then a else b.

(** The conversion to a string made by a template literal.  An array is
    joined with commas ([null] and [undefined] items give the empty
    string).  A parsed object has no callable own property, so one with
    an own [toString] property has no usable conversion method left and
    the conversion throws; any other object gives [[object Object]]. *)
Fixpoint to_string (v : value) : completion string :=
  match v with
  | VUndefined => Return "undefined"
  | VNull => Return "null"
  | VBool true => Return "true"
  | VBool false => Return "false"
  | VNumber repr => Return (if repr =? "-0" then "0" else repr)
  | VString s => Return s
  | VArray items =>
      let item (x : value) : completion string :=
        match x with
        | VUndefined | VNull => Return ""
        | _ => to_string x
        end in
      (fix join_items (l : list value) : completion string :=
         match l with
         | [] => Return ""
         | [x] => item x
         | x :: rest =>
             and_then (item x) (fun a =>
             and_then (join_items rest) (fun b =>
             Return (a ++ "," ++ b)))
         end) items
  | VObject props =>
      if has_own_property props "toString"
      then Throw (TypeError "Cannot convert object to primitive value")
      else Return "[object Object]"
  end.

(** The description of a rejected argument in the message of
    [ERR_INVALID_ARG_TYPE]. *)
Definition received (v : value) : string :=
  match v with
  | VUndefined => "undefined"
  | VNull => "null"
  | VBool true => "type boolean (true)"
  | VBool false => "type boolean (false)"
  | VNumber repr => "type number (" ++ repr ++ ")"
  | VString s => "type string ('" ++ s ++ "')"
  | VArray _ => "an instance of Array"
  | VObject _ => "an instance of Object"
  end.

Definition quoted (s : string) : string :=
  String "034"%char (s ++ String "034"%char "").

(** [path.join(base, arg)] with the argument check of [path.join]:
    every argument has to be a string. *)
Definition path_join (base : string) (arg : value) : completion string :=
  match arg with
  | VString s => Return (Path.join [base; s])
  | _ =>
      Throw (TypeError
               ("The " ++ quoted "path"
                ++ " argument must be of type string. Received "
                ++ received arg))
  end.

(** *** Computations

    A computation over a state [S] returns or throws, and leaves a
    state; what was done before an exception stays done. *)
Definition prog (S A : Type) : Type := S -> completion A * S.

Definition ret {S A} (a : A) : prog S A := fun s => (Return a, s).

Definition throw {S A} (e : exn) : prog S A := fun s => (Throw e, s).

Definition bind {S A B} (m : prog S A) (k : A -> prog S B) : prog S B :=
  fun s =>
    match m s with
    | (Return a, s') => k a s'
    | (Throw e, s') => (Throw e, s')
    end.

Definition lift {S A} (c : completion A) : prog S A := fun s => (c, s).

Definition ask {S} : prog S S := fun s => (Return s, s).

(** [try { body } catch (err) { handler }]. *)
Definition try_catch {S A} (body : prog S A) (handler : exn -> prog S A)
    : prog S A :=
  fun s =>
    match body s with
    | (Return a, s') => (Return a, s')
    | (Throw e, s') => handler e s'
    end.

Declare Scope prog_scope.
Delimit Scope prog_scope with prog.
Notation "x <- m ;; k" := (bind m (fun x => k))
  (at level 61, m at next level, right associativity) : prog_scope.
Notation "m ;; k" := (bind m (fun _ => k))
  (at level 61, right associativity) : prog_scope.
Local Open Scope prog_scope.

Fixpoint mapM {S A B} (f : A -> prog S B) (l : list A) : prog S (list B) :=
  match l with
  | [] => ret []
  | x :: rest =>
      y <- f x ;;
      ys <- mapM f rest ;;
      ret (y :: ys)
  end.

(** [for (const x of l) { acc = f(acc, x) }]. *)
Fixpoint foldM {S A B} (f : B -> A -> prog S B) (acc : B) (l : list A)
    : prog S B :=
  match l with
  | [] => ret acc
  | x :: rest =>
      acc' <- f acc x ;;
      foldM f acc' rest
  end.

End Js.

(** ** The file system and Node's synchronous [fs] API

    The file system is a tree of regular files and directories (other
    kinds of nodes, links included, are outside the model, and so are
    permissions and the space left on the device).  A directory holds its
    entries in the order [fs.readdirSync] reports them, which is the
    byte order of their names, and carries the size that [stat] reports
    for it.

    Two rules on names are part of the model.  Node refuses a path that
    holds a NUL byte before any system call is made, and the system
    refuses a path component longer than [NAME_MAX] bytes.  The limit
    [PATH_MAX] on the length of a whole path is not enforced by the calls
    below; the statements that promise that a write succeeds take paths
    shorter than it. *)

Module Fs.
Import Js.

Inductive node : Type :=
| File (content : list byte)
| Dir (size : nat) (entries : list (string * node)).

Fixpoint find_entry (entries : list (string * node)) (name : string)
    : option node :=
  match entries with
  | [] => None
  | (k, child) :: rest => if k =? name then Some child else find_entry rest name
  end.

(** The node reached from [n] by following [names]. *)
Fixpoint get (names : list string) (n : node) : option node :=
  match names with
  | [] => Some n
  | x :: rest =>
      match n with
      | Dir _ entries =>
          match find_entry entries x with
          | Some child => get rest child
          | None => None
          end
      | File _ => None
      end
  end.

(** The entries of a directory with the entry named [x] changed by
    [f]. *)
Fixpoint update_entry (x : string) (f : node -> node)
    (entries : list (string * node)) : list (string * node) :=
  match entries with
  | [] => []
  | (k, child) :: more =>
      if k =? x then (k, f child) :: more
      else (k, child) :: update_entry x f more
  end.

(** The entries of a directory with [fresh] put in front of the first
    entry whose name is greater than [x] in byte order, at the end when
    there is none: the place of [x] in a listing sorted by name. *)
Fixpoint insert_entry (x : string) (fresh : list (string * node))
    (entries : list (string * node)) : list (string * node) :=
  match entries with
  | [] => fresh
  | (k, child) :: more =>
      if String.ltb x k then (fresh ++ entries)%list
      else (k, child) :: insert_entry x fresh more
  end.

(** The entries of a directory with the entry named [x] changed by [f],
    or with [fresh] at the place of [x] when there is no such entry. *)
Definition replace_entry (x : string) (f : node -> node)
    (fresh : list (string * node)) (entries : list (string * node))
    : list (string * node) :=
  match find_entry entries x with
  | Some _ => update_entry x f entries
  | None => insert_entry x fresh entries
  end.

(** [put names new n]: the tree [n] with [new] at [names], replacing
    the node that is there or added to its parent at the place of its
    name. *)
Fixpoint put (names : list string) (new : node) (n : node) : node :=
  match names with
  | [] => new
  | x :: rest =>
      match n with
      | File _ => n
      | Dir size entries =>
          Dir size
            (replace_entry x (put rest new)
               match rest with
               | [] => [(x, new)]
               | _ => []
               end entries)
      end
  end.

(** The state the [fs] calls act on: the tree, the working directory of
    the process, and the list of calls made so far, oldest first. *)
Record world : Type := {
  root : node;
  cwd : list string;
  calls : list (string * string)
}.

Definition set_root (r : node) (w : world) : world :=
  {| root := r; cwd := cwd w; calls := calls w |}.

(** The limits of the system on the bytes of a path component and of a
    whole path, the terminating NUL included in the latter. *)
Definition NAME_MAX : nat := 255.
Definition PATH_MAX : nat := 4096.

Definition has_nul (p : string) : bool :=
  existsb (Ascii.eqb Ascii.zero) (list_ascii_of_string p).

Definition too_long (name : string) : bool :=
  (NAME_MAX <? String.length name)%nat.

(** What the two rules on names ask of a name. *)
Definition legal_name (name : string) : bool :=
  negb (has_nul name) && negb (too_long name).

(** Path resolution by the system: every component is looked up in the
    directory reached so far; [cur] is that directory, as the names
    leading to it from the root. *)
Fixpoint walk (r : node) (cur : list string) (segs : list string)
    : errno + list string :=
  match segs with
  | [] => inr cur
  | seg :: rest =>
      match get cur r with
      | Some (Dir _ entries) =>
          if (seg =? "") || (seg =? ".") then walk r cur rest
          else if seg =? ".." then walk r (removelast cur) rest
          else if too_long seg then inl ENAMETOOLONG
          else match find_entry entries seg with
               | Some _ => walk r (cur ++ [seg])%list rest
               | None => inl ENOENT
               end
      | Some (File _) => inl ENOTDIR
      | None => inl ENOENT
      end
  end.

Definition origin (w : world) (p : string) : list string :=
  if Path.isAbsolute p then [] else cwd w.

(** The node a path names.  A path with a NUL byte never reaches the
    system and names nothing. *)
Definition locate (w : world) (p : string) : errno + node :=
  if (p =? "") || has_nul p then inl ENOENT
  else match walk (root w) (origin w p) (Path.split p) with
       | inl e => inl e
       | inr names =>
           match get names (root w) with
           | Some n => inr n
           | None => inl ENOENT
           end
       end.

Definition new_dir_size : nat := 4096.

(** [mkdir -p]: missing directories are created on the way; a regular
    file in the way stops it.  The tree is returned on failure too. *)
Fixpoint mkdirp (r : node) (cur : list string) (segs : list string)
    : node * option errno :=
  match segs with
  | [] => (r, None)
  | seg :: rest =>
      match get cur r with
      | Some (Dir _ entries) =>
          if (seg =? "") || (seg =? ".") then mkdirp r cur rest
          else if seg =? ".." then mkdirp r (removelast cur) rest
          else if too_long seg then (r, Some ENAMETOOLONG)
          else match find_entry entries seg with
               | Some (Dir _ _) => mkdirp r (cur ++ [seg])%list rest
               | Some (File _) =>
                   (r, Some match rest with [] => EEXIST | _ => ENOTDIR end)
               | None =>
                   mkdirp (put (cur ++ [seg])%list (Dir new_dir_size []) r)
                          (cur ++ [seg])%list rest
               end
      | Some (File _) => (r, Some ENOTDIR)
      | None => (r, Some ENOENT)
      end
  end.

(** The components of a path without its trailing separators, and
    whether there were any. *)
Definition strip_trailing (segs : list string) : list string * bool :=
  let body := rev (Path.drop_while (String.eqb "") (rev segs)) in
  (body, negb (length body =? length segs)%nat).

(** [open(p, O_WRONLY | O_CREAT | O_TRUNC)] followed by the write of
    [data]: the tree after it, or the error. *)
Definition create (w : world) (p : string) (data : list byte)
    : errno + node :=
  if p =? "" then inl ENOENT
  else
    let '(body, trailing) := strip_trailing (Path.split p) in
    match rev body with
    | [] => inl EISDIR
    | last :: rev_init =>
        match walk (root w) (origin w p) (rev rev_init) with
        | inl e => inl e
        | inr parent =>
            match get parent (root w) with
            | Some (Dir _ entries) =>
                if trailing || (last =? ".") || (last =? "..") then inl EISDIR
                else if too_long last then inl ENAMETOOLONG
                else match find_entry entries last with
                     | Some (Dir _ _) => inl EISDIR
                     | _ => inr (put (parent ++ [last])%list (File data) (root w))
                     end
            | Some (File _) => inl ENOTDIR
            | None => inl ENOENT
            end
        end
    end.




(** [vacant names n]: a regular file can be written at [names] below
    [n]: no regular file stands in the way and the place itself is not a
    directory. *)
Fixpoint vacant (names : list string) (n : node) : bool :=
  match n with
  | File _ => false
  | Dir _ entries =>
      match names with
      | [] => false
      | x :: rest =>
          match find_entry entries x, rest with
          | Some (Dir _ _), [] => false
          | Some (File _), [] => true
          | Some child, _ :: _ => vacant rest child
          | None, _ => true
          end
      end
  end.

(** A path at which a regular file can be written: it does not end with
    a separator, the place it names is vacant, and its components are
    names that the rules on names allow. *)
Definition writable (w : world) (p : string) : bool :=
  negb (Path.trailing_sep p) && vacant (Path.segments p) (root w)
  && forallb legal_name (Path.segments p).

(** A path at which [writeFile] can write: a writable path shorter than
    [PATH_MAX]. *)
Definition can_write (w : world) (p : string) : bool :=
  writable w p && (String.length p <? PATH_MAX)%nat.

(** Computations over the file system. *)
Definition M (A : Type) : Type := prog world A.

(** Every call of the [fs] API is recorded. *)
Definition record_call (fn p : string) (w : world) : world :=
  {| root := root w; cwd := cwd w; calls := (calls w ++ [(fn, p)])%list |}.

Definition called (fn p : string) : M unit :=
  fun w => (Return tt, record_call fn p w).

Definition update_root (r : node) : M unit :=
  fun w => (Return tt, set_root r w).

Local Open Scope prog_scope.

(** [fs.Dirent] and [fs.Stats], as far as the agent reads them. *)
Record Dirent : Type := {
  dirent_name : string;
  dirent_isDirectory : bool
}.

Record Stats : Type := {
  isFile : bool;
  isDirectory : bool;
  size : nat
}.

Definition is_dir (n : node) : bool :=
  match n with
  | Dir _ _ => true
  | File _ => false
  end.

Definition stats_of (n : node) : Stats :=
  match n with
  | File content =>
      {| isFile := true; isDirectory := false; size := length content |}
  | Dir size _ =>
      {| isFile := false; isDirectory := true; size := size |}
  end.

(** The exception every call of the [fs] API throws for a path with a
    NUL byte, a [TypeError] with the code [ERR_INVALID_ARG_VALUE].  The
    text is that of Node 18 (later versions word it differently), the
    path shown as [util.inspect] shows a string in which nothing but NUL
    bytes needs an escape; the statements below use the kind of the
    exception only, not its text. *)
Fixpoint show_nul (s : string) : string :=
  match s with
  | EmptyString => EmptyString
  | String c rest =>
      if Ascii.eqb c Ascii.zero then "\x00" ++ show_nul rest
      else String c (show_nul rest)
  end.

Definition invalid_path (p : string) : exn :=
  TypeError ("The argument 'path' must be a string or Uint8Array "
             ++ "without null bytes. Received '" ++ show_nul p ++ "'").

Definition scandir (p : string) : M (list (string * node)) :=
  called "readdirSync" p ;;
  w <- ask ;;
  if has_nul p then throw (invalid_path p)
  else
    match locate w p with
    | inr (Dir _ entries) => ret entries
    | inr (File _) => throw (SystemError ENOTDIR "scandir" (Some p))
    | inl e => throw (SystemError e "scandir" (Some p))
    end.

(** [fs.readdirSync(p)]. *)
Definition readdirSync (p : string) : M (list string) :=
  entries <- scandir p ;;
  ret (map fst entries).

Definition dirent_of (e : string * node) : Dirent :=
  {| dirent_name := fst e; dirent_isDirectory := is_dir (snd e) |}.

(** [fs.readdirSync(p, { withFileTypes: true })]. *)
Definition readdirSync_withFileTypes (p : string) : M (list Dirent) :=
  entries <- scandir p ;;
  ret (map dirent_of entries).

(** [fs.statSync(p)]. *)
Definition statSync (p : string) : M Stats :=
  called "statSync" p ;;
  w <- ask ;;
  if has_nul p then throw (invalid_path p)
  else
    match locate w p with
    | inr n => ret (stats_of n)
    | inl e => throw (SystemError e "stat" (Some p))
    end.

(** [fs.existsSync(p)]: never throws; a path that Node refuses does not
    exist. *)
Definition existsSync (p : string) : M bool :=
  called "existsSync" p ;;
  w <- ask ;;
  if has_nul p then ret false
  else
    match locate w p with
    | inr _ => ret true
    | inl _ => ret false
    end.

(** [fs.readFileSync(p)]: a directory can be opened, reading it
    fails. *)
Definition readFileSync (p : string) : M (list byte) :=
  called "readFileSync" p ;;
  w <- ask ;;
  if has_nul p then throw (invalid_path p)
  else
    match locate w p with
    | inr (File content) => ret content
    | inr (Dir _ _) => throw (SystemError EISDIR "read" None)
    | inl e => throw (SystemError e "open" (Some p))
    end.

(** [fs.mkdirSync(p, { recursive: true })]. *)
Definition mkdirSync_recursive (p : string) : M unit :=
  called "mkdirSync" p ;;
  w <- ask ;;
  if has_nul p then throw (invalid_path p)
  else if p =? "" then throw (SystemError ENOENT "mkdir" (Some p))
  else
    let '(r, err) := mkdirp (root w) (origin w p) (Path.split p) in
    update_root r ;;
    match err with
    | None => ret tt
    | Some e => throw (SystemError e "mkdir" (Some p))
    end.

(** [fs.writeFileSync(p, data)]. *)
Definition writeFileSync (p : string) (data : list byte) : M unit :=
  called "writeFileSync" p ;;
  w <- ask ;;
  if has_nul p then throw (invalid_path p)
  else
    match create w p data with
    | inr r => update_root r
    | inl e => throw (SystemError e "open" (Some p))
    end.

End Fs.

(** ** The agent: [src/index.js] *)

Module Agent.
Import Js Fs.
Local Open Scope prog_scope.

Definition RECONNECT_DELAY : nat := 5000.

(** What the four file operations return. *)
Record FileEntry : Type := {
  name : string;
  isDirectory : bool;
  size : nat
}.

Inductive result : Type :=
| Listing (entries : list FileEntry)
| FileData (data : string) (size : nat)
| Written (written : nat)
| CacheInfo (path : string) (fileCount : nat) (totalSize : nat)
            (files : list string).

(** The object given to [send] by [handleRequest]; a field that the
    object literal does not define is [None]. *)
Record response : Type := {
  requestId : value;
  success : bool;
  data : option result;
  error : option string
}.

Inductive outbound : Type :=
| Register (agentId : string) (cachePath : string) (cacheFiles : list string)
| Response (r : response).

Inductive readyState : Type := CONNECTING | OPEN | CLOSING | CLOSED.

(** The module-level variables [ws], [sessionToken], [reconnectTimeout]
    and what surrounds the process: the sockets created so far with
    their [readyState], the timers armed by [setTimeout] (identifier and
    delay), the messages written to sockets, the console, the exceptions
    nobody catches (rejections of promises nobody handles included), and
    the file system. *)
Record state : Type := {
  ws : option nat;
  sessionToken : value;
  reconnectTimeout : option nat;
  sockets : list readyState;
  timers : list (nat * nat);
  timer_count : nat;
  sent : list (nat * outbound);
  console : list (string * string);
  uncaught : list exn;
  disk : world
}.

Definition set_ws (v : option nat) (s : state) : state :=
  {| ws := v; sessionToken := sessionToken s;
     reconnectTimeout := reconnectTimeout s; sockets := sockets s;
     timers := timers s; timer_count := timer_count s; sent := sent s;
     console := console s; uncaught := uncaught s; disk := disk s |}.

Definition set_sessionToken (v : value) (s : state) : state :=
  {| ws := ws s; sessionToken := v;
     reconnectTimeout := reconnectTimeout s; sockets := sockets s;
     timers := timers s; timer_count := timer_count s; sent := sent s;
     console := console s; uncaught := uncaught s; disk := disk s |}.

Definition set_reconnectTimeout (v : option nat) (s : state) : state :=
  {| ws := ws s; sessionToken := sessionToken s;
     reconnectTimeout := v; sockets := sockets s;
     timers := timers s; timer_count := timer_count s; sent := sent s;
     console := console s; uncaught := uncaught s; disk := disk s |}.

Definition set_sockets (v : list readyState) (s : state) : state :=
  {| ws := ws s; sessionToken := sessionToken s;
     reconnectTimeout := reconnectTimeout s; sockets := v;
     timers := timers s; timer_count := timer_count s; sent := sent s;
     console := console s; uncaught := uncaught s; disk := disk s |}.

Definition set_timers (v : list (nat * nat)) (n : nat) (s : state) : state :=
  {| ws := ws s; sessionToken := sessionToken s;
     reconnectTimeout := reconnectTimeout s; sockets := sockets s;
     timers := v; timer_count := n; sent := sent s;
     console := console s; uncaught := uncaught s; disk := disk s |}.

Definition set_sent (v : list (nat * outbound)) (s : state) : state :=
  {| ws := ws s; sessionToken := sessionToken s;
     reconnectTimeout := reconnectTimeout s; sockets := sockets s;
     timers := timers s; timer_count := timer_count s; sent := v;
     console := console s; uncaught := uncaught s; disk := disk s |}.

Definition set_console (v : list (string * string)) (s : state) : state :=
  {| ws := ws s; sessionToken := sessionToken s;
     reconnectTimeout := reconnectTimeout s; sockets := sockets s;
     timers := timers s; timer_count := timer_count s; sent := sent s;
     console := v; uncaught := uncaught s; disk := disk s |}.

Definition set_uncaught (v : list exn) (s : state) : state :=
  {| ws := ws s; sessionToken := sessionToken s;
     reconnectTimeout := reconnectTimeout s; sockets := sockets s;
     timers := timers s; timer_count := timer_count s; sent := sent s;
     console := console s; uncaught := v; disk := disk s |}.

Definition set_disk (v : world) (s : state) : state :=
  {| ws := ws s; sessionToken := sessionToken s;
     reconnectTimeout := reconnectTimeout s; sockets := sockets s;
     timers := timers s; timer_count := timer_count s; sent := sent s;
     console := console s; uncaught := uncaught s; disk := v |}.




Definition modify (f : state -> state) : prog state unit :=
  fun s => (Return tt, f s).

(** A file operation run by the agent acts on the agent's disk. *)
Definition in_fs {A} (m : Fs.M A) : prog state A :=
  fun s => let '(c, w) := m (disk s) in (c, set_disk w s).

(** [console.log], [console.error]: the text printed is kept, without
    the rendering of objects passed as further arguments. *)
Definition console_log (text : string) : prog state unit :=
  modify (fun s => set_console (console s ++ [("log", text)])%list s).

Definition console_error (text : string) : prog state unit :=
  modify (fun s => set_console (console s ++ [("error", text)])%list s).

(** Called with two arguments, the console formats the first one as
    [util.format] does: the first placeholder among [%s], [%j], [%d],
    [%O], [%o], [%i], [%f] and [%c] takes the second argument.  [%%] and
    a [%] before any other character are passed over together with that
    character, and a [%] that ends the text is not looked at. *)
Definition takes_argument (c : ascii) : bool :=
  existsb (Ascii.eqb c) (list_ascii_of_string "sjdOoifc").

Fixpoint placeholder (format : string) : option ascii :=
  match format with
  | EmptyString => None
  | String c rest =>
      if Ascii.eqb c "%" then
        match rest with
        | EmptyString => None
        | String d rest' =>
            if takes_argument d then Some d else placeholder rest'
        end
      else placeholder rest
  end.

(** [%d] applies [Number] to the argument, [%i] [parseInt] and [%f]
    [parseFloat]: on a parsed value each of them throws where the
    conversion to a string throws.  The other placeholders, and the
    rendering of an argument that no placeholder takes, go through
    [util.inspect] or [JSON.stringify], which do not throw on a parsed
    value. *)
Definition converts (c : ascii) : bool :=
  existsb (Ascii.eqb c) (list_ascii_of_string "dif").

Definition format_check (format : string) (arg : value) : completion unit :=
  match placeholder format with
  | Some c =>
      if converts c then and_then (to_string arg) (fun _ => Return tt)
      else Return tt
  | None => Return tt
  end.

(** [console.log(format, arg)], [console.error(format, arg)]: nothing is
    printed when the formatting throws; the entry kept is [format] as it
    is given, without what the argument adds to the line. *)
Definition console_log_with (format : string) (arg : value)
    : prog state unit :=
  fun s =>
    match format_check format arg with
    | Return _ => console_log format s
    | Throw e => (Throw e, s)
    end.

Definition console_error_with (format : string) (arg : value)
    : prog state unit :=
  fun s =>
    match format_check format arg with
    | Return _ => console_error format s
    | Throw e => (Throw e, s)
    end.


Section WithEnvironment.

(** Fixed at startup: [resolvedPath = path.resolve(cachePath)] and
    [cacheFiles = fs.readdirSync(resolvedPath)]. *)
Variable resolvedPath : string.
Variable cacheFiles : list string.

(** Supplied by the runtime: [JSON.parse], and [Buffer.from] on an
    array or an object (its result there depends on number conversions
    that are outside this model). *)
Variable JSON_parse : string -> completion value.
Variable Buffer_from_object : value -> completion (list byte).

Definition access_denied : exn :=
  Error "Access denied: path traversal attempt".

(** [Buffer.from(data, 'base64')]. *)
Definition Buffer_from (data : value) : completion (list byte) :=
  match data with
  | VString text => Return (Base64.decode text)
  | VUndefined | VNull | VBool _ | VNumber _ =>
      Throw (TypeError
               ("The first argument must be of type string or an instance of "
                ++ "Buffer, ArrayBuffer, or Array or an Array-like Object. "
                ++ "Received " ++ received data))
  | VArray _ | VObject _ => Buffer_from_object data
  end.

(** The arrow function mapped over the entries by [listFiles]. *)
Definition describe (targetPath : string) (f : Dirent) : M FileEntry :=
  sz <- (if dirent_isDirectory f then ret 0
         else st <- statSync (Path.join [targetPath; dirent_name f]) ;;
              ret (Fs.size st)) ;;
  ret {| name := dirent_name f;
         isDirectory := dirent_isDirectory f;
         size := sz |}.

(** [function listFiles(params)]. *)
Definition listFiles (params : value) : M result :=
  let subdir := or_else (optional_member params "subdir") (VString "") in
  targetPath <- lift (path_join resolvedPath subdir) ;;
  if negb (Path.startsWith targetPath resolvedPath) then throw access_denied
  else
    files <- readdirSync_withFileTypes targetPath ;;
    entries <- mapM (describe targetPath) files ;;
    ret (Listing entries).

(** [function readFile(params)]. *)
Definition readFile (params : value) : M result :=
  filePath <- lift (destructure params "params" "filePath") ;;
  targetPath <- lift (path_join resolvedPath filePath) ;;
  if negb (Path.startsWith targetPath resolvedPath) then throw access_denied
  else
    found <- existsSync targetPath ;;
    if negb found then
      text <- lift (to_string filePath) ;;
      throw (Error ("File not found: " ++ text))
    else
      content <- readFileSync targetPath ;;
      ret (FileData (Base64.encode content) (length content)).

(** [function writeFile(params)]. *)
Definition writeFile (params : value) : M result :=
  filePath <- lift (destructure params "params" "filePath") ;;
  payload <- lift (destructure params "params" "data") ;;
  targetPath <- lift (path_join resolvedPath filePath) ;;
  if negb (Path.startsWith targetPath resolvedPath) then throw access_denied
  else
    mkdirSync_recursive (Path.dirname targetPath) ;;
    buffer <- lift (Buffer_from payload) ;;
    writeFileSync targetPath buffer ;;
    ret (Written (length buffer)).

(** The body of the loop of [getCacheInfo]. *)
Definition add_size (totalSize : nat) (file : string) : M nat :=
  stat <- statSync (Path.join [resolvedPath; file]) ;;
  ret (if Fs.isFile stat then totalSize + Fs.size stat else totalSize).

(** [function getCacheInfo()]. *)
Definition getCacheInfo : M result :=
  files <- readdirSync resolvedPath ;;
  totalSize <- foldM add_size 0 files ;;
  ret (CacheInfo resolvedPath (length files) totalSize (firstn 50 files)).

Definition is_open (s : state) : bool :=
  match ws s with
  | Some i =>
      match nth_error (sockets s) i with
      | Some OPEN => true
      | _ => false
      end
  | None => false
  end.

(** [function send(msg)]: nothing is written unless the current socket
    is open. *)
Definition send (msg : outbound) : prog state unit :=
  fun s =>
    match ws s with
    | Some i =>
        if is_open s
        then (Return tt, set_sent (sent s ++ [(i, msg)])%list s)
        else (Return tt, s)
    | None => (Return tt, s)
    end.

Definition action_is (action : value) (expected : string) : bool :=
  match action with
  | VString s => s =? expected
  | _ => false
  end.

(** The [switch (action)] of [handleRequest]: cases are compared with
    [===], so only a string selects an operation. *)
Definition dispatch (action params : value) : prog state result :=
  if action_is action "listFiles" then in_fs (listFiles params)
  else if action_is action "readFile" then in_fs (readFile params)
  else if action_is action "writeFile" then in_fs (writeFile params)
  else if action_is action "getCacheInfo" then in_fs getCacheInfo
  else
    text <- lift (to_string action) ;;
    throw (Error ("Unknown action: " ++ text)).

(** [async function handleRequest(msg)]: the body has no [await], it
    runs to its end when called; [Throw] is the rejection of the promise
    returned.  The first [console.log] stands before the [try]; it and
    the [console.error] of the handler are called with two arguments. *)
Definition handleRequest (msg : value) : prog state unit :=
  requestId <- lift (destructure msg "msg" "requestId") ;;
  action <- lift (destructure msg "msg" "action") ;;
  params <- lift (destructure msg "msg" "params") ;;
  text <- lift (to_string action) ;;
  console_log_with ("📥 Request: " ++ text) (or_else params (VString "")) ;;
  try_catch
    (result <- dispatch action params ;;
     send (Response {| requestId := requestId; success := true;
                       data := Some result; error := None |}) ;;
     text <- lift (to_string action) ;;
     console_log ("📤 Response sent for " ++ text))
    (fun err =>
       send (Response {| requestId := requestId; success := false;
                         data := None; error := Some (message err) |}) ;;
       text <- lift (to_string action) ;;
       console_error_with ("❌ Error handling " ++ text ++ ":")
                          (VString (message err))).

(** The call of an [async] function whose promise is dropped: a
    rejection is not thrown to the caller, it is left unhandled (which
    ends a Node process). *)
Definition detached (m : prog state unit) : prog state unit :=
  fun s =>
    match m s with
    | (Return _, s') => (Return tt, s')
    | (Throw e, s') => (Return tt, set_uncaught (uncaught s' ++ [e])%list s')
    end.

Definition banner : string :=
  "═══════════════════════════════════════════════════════════".

(** [function handleMessage(msg)]. *)
Definition handleMessage (msg : value) : prog state unit :=
  type <- lift (member msg "type") ;;
  if action_is type "registered" then
    token <- lift (member msg "sessionToken") ;;
    modify (set_sessionToken token) ;;
    console_log "" ;;
    console_log banner ;;
    console_log "  ✨ Agent registered successfully!" ;;
    console_log "" ;;
    text <- lift (to_string token) ;;
    console_log ("  Your session token: " ++ text) ;;
    console_log "" ;;
    console_log "  Open Neptune IDE and enter this token to connect" ;;
    console_log "  to your local cache." ;;
    console_log banner ;;
    console_log "" ;;
    console_log "📡 Waiting for requests..."
  else if action_is type "request" then
    detached (handleRequest msg)
  else if action_is type "error" then
    console_error "Server error:"
  else
    console_log "Unknown message type:".

(** [function connect()]: a new socket, connecting; its handlers are
    the [on_] functions below. *)
Definition connect : prog state unit :=
  console_log "🔌 Connecting to Neptune server..." ;;
  modify (fun s =>
    set_ws (Some (length (sockets s)))
      (set_sockets (sockets s ++ [CONNECTING])%list s)).

(** [function scheduleReconnect()]. *)
Definition scheduleReconnect : prog state unit :=
  s <- ask ;;
  match reconnectTimeout s with
  | Some _ => ret tt
  | None =>
      console_log "🔄 Reconnecting in 5s..." ;;
      modify (fun s =>
        set_reconnectTimeout (Some (timer_count s))
          (set_timers (timers s ++ [(timer_count s, RECONNECT_DELAY)])%list
                      (S (timer_count s)) s))
  end.

(** The callback given to [setTimeout]. *)
Definition reconnect_callback : prog state unit :=
  modify (set_reconnectTimeout None) ;;
  connect.

(** [ws.on('open', ...)]; [random] is the text of
    [crypto.randomBytes(8).toString('hex')]. *)
Definition on_open (random : string) : prog state unit :=
  console_log "✅ Connected to Neptune server" ;;
  send (Register random resolvedPath (firstn 20 cacheFiles)).

(** [ws.on('message', ...)]. *)
Definition on_message (payload : string) : prog state unit :=
  try_catch
    (msg <- lift (JSON_parse payload) ;;
     handleMessage msg)
    (fun e => console_error "Failed to parse message:").

(** [ws.on('close', ...)]. *)
Definition on_close : prog state unit :=
  console_log "🔌 Disconnected from server" ;;
  modify (set_sessionToken VNull) ;;
  scheduleReconnect.

(** [ws.on('error', ...)]. *)
Definition on_error (msg : string) : prog state unit :=
  console_error ("WebSocket error: " ++ msg).

(** *** The event loop

    The surroundings deliver socket events and timer expiries; each runs
    the handler registered for it. *)
Inductive event : Type :=
| SocketOpen (socket : nat) (random : string)
| SocketMessage (socket : nat) (payload : string)
| SocketClose (socket : nat)
| SocketError (socket : nat) (msg : string)
| TimerExpired (timer : nat).

Fixpoint set_nth {A} (i : nat) (x : A) (l : list A) : list A :=
  match l, i with
  | [], _ => []
  | _ :: rest, O => x :: rest
  | y :: rest, S j => y :: set_nth j x rest
  end.

Definition set_readyState (i : nat) (r : readyState) (s : state) : state :=
  set_sockets (set_nth i r (sockets s)) s.

(** A handler run from the event loop; an exception that leaves it is
    uncaught. *)
Definition run (m : prog state unit) (s : state) : state :=
  match m s with
  | (Return _, s') => s'
  | (Throw e, s') => set_uncaught (uncaught s' ++ [e])%list s'
  end.

Definition alive (s : state) : bool :=
  match uncaught s with
  | [] => true
  | _ => false
  end.

Definition armed (t : nat) (s : state) : bool :=
  existsb (fun x => fst x =? t)%nat (timers s).

Definition disarm (t : nat) (s : state) : state :=
  set_timers (filter (fun x => negb (fst x =? t)%nat) (timers s))
             (timer_count s) s.

Definition step (ev : event) (s : state) : state :=
  if negb (alive s) then s
  else
    match ev with
    | SocketOpen i random =>
        match nth_error (sockets s) i with
        | Some CONNECTING => run (on_open random) (set_readyState i OPEN s)
        | _ => s
        end
    | SocketMessage i payload =>
        match nth_error (sockets s) i with
        | Some OPEN => run (on_message payload) s
        | _ => s
        end
    | SocketClose i =>
        match nth_error (sockets s) i with
        | Some CLOSED | None => s
        | Some _ => run on_close (set_readyState i CLOSED s)
        end
    | SocketError i msg =>
        match nth_error (sockets s) i with
        | Some _ => run (on_error msg) s
        | None => s
        end
    | TimerExpired t =>
        if armed t s then run reconnect_callback (disarm t s) else s
    end.

(** The state once the script has run to its last line, [connect()]. *)
Definition boot (w : world) : state :=
  run connect
    {| ws := None; sessionToken := VNull; reconnectTimeout := None;
       sockets := []; timers := []; timer_count := 0; sent := [];
       console := []; uncaught := []; disk := w |}.

Definition run_events (evs : list event) (s : state) : state :=
  fold_left (fun s ev => step ev s) evs s.

End WithEnvironment.


(** The part of the state owned by the connection manager. *)
Definition conn (s : state)
    : option nat * option nat * list readyState * list (nat * nat) * nat :=
  (ws s, reconnectTimeout s, sockets s, timers s, timer_count s).

(** A socket that has not been closed yet. *)
Definition live (r : readyState) : bool :=
  match r with
  | CLOSED => false
  | _ => true
  end.

Definition live_sockets (s : state) : nat :=
  length (filter live (sockets s)).

(** The state of the reconnection loop between two events: the timer
    armed is the one [reconnectTimeout] names; there is exactly one
    socket not yet closed or one timer armed, never both and never two
    of a kind; and a socket not yet closed is the one [ws] refers to. *)
Definition steady (s : state) : Prop :=
  timers s = match reconnectTimeout s with
             | Some t => [(t, RECONNECT_DELAY)]
             | None => []
             end
  /\ live_sockets s + length (timers s) = 1
  /\ (forall j r, nth_error (sockets s) j = Some r -> live r = true ->
                  ws s = Some j).

(** A computation frames the connection when it leaves [conn]
    untouched. *)
Definition frames {A} (m : prog state A) : Prop :=
  forall s, conn (snd (m s)) = conn s.

End Agent.

(** ** A concrete agent

    The cache root [/a/b] holds the file [a.txt] with the four bytes of
    [test] and the empty directory [b]; next to the root lies the
    directory [/a/bc] with a file of its own. *)

Module Scenario.
Import Js Fs Agent.

Definition cache : string := "/a/b".

Definition tree : node :=
  Dir 4096
    [("a", Dir 4096
        [("b", Dir 4096
            [("a.txt", File ["t"%byte; "e"%byte; "s"%byte; "t"%byte]);
             ("b", Dir 4096 [])]);
         ("bc", Dir 4096 [("secret", File ["k"%byte; "e"%byte; "y"%byte])])])].

Definition world0 : world := {| root := tree; cwd := []; calls := [] |}.

(** A runtime that parses nothing and builds empty buffers from
    objects. *)
Definition parse_nothing (payload : string) : completion value :=
  Throw (SyntaxError ("Unexpected token in JSON: " ++ payload)).

Definition empty_buffer (v : value) : completion (list byte) := Return [].

(** The agent once its first socket has opened. *)
Definition ready : state :=
  step cache ["a.txt"; "b"] parse_nothing empty_buffer
       (SocketOpen 0 "0123456789abcdef") (boot world0).

(** A name of [n] bytes. *)
Definition long_name (n : nat) : string :=
  string_of_list_ascii (repeat "x"%char n).

(** A request whose [action] is the object [{ toString: 1 }]. *)
Definition unprintable_request : value :=
  VObject [("type", VString "request");
           ("requestId", VString "r1");
           ("action", VObject [("toString", VNumber "1")]);
           ("params", VObject [])].

End Scenario.

(** ** Startup: the lines of [src/index.js] before [connect()]

    The script reads its argument, resolves it against the working
    directory, checks that the path exists, lists it once, and warns when
    no entry looks like a cache file. *)

Module Startup.
Import Js Fs.
Local Open Scope prog_scope.





(** [process.cwd()]: the working directory as an absolute path. *)
Definition process_cwd (w : world) : string := "/" ++ Path.unsplit (cwd w).





End Startup.

(** ** What a file operation leaves alone *)

Module Frame.
Import Js Fs.

(** A computation that leaves the tree and the working directory as
    they were. *)
Definition read_only {A} (m : M A) : Prop :=
  forall w, root (snd (m w)) = root w /\ cwd (snd (m w)) = cwd w.

(** [keeps target r r']: every node of [r] is a node of [r'], of the
    same kind, and a regular file keeps its content unless it stands at
    [target]. *)
Definition keeps (target : option (list string)) (r r' : node) : Prop :=
  forall names n, get names r = Some n ->
  exists n', get names r' = Some n' /\ is_dir n' = is_dir n
             /\ (forall c, n = File c -> Some names <> target -> n' = File c).

(** An agent computation that leaves the tree of the agent's disk as it
    was. *)
Definition keeps_disk {A} (m : prog Agent.state A) : Prop :=
  forall s, root (Agent.disk (snd (m s))) = root (Agent.disk s).

(** An agent computation that writes to no socket, leaves the disk and
    the connection as they were, and adds no uncaught exception. *)
Definition quiet {A} (m : prog Agent.state A) : Prop :=
  forall s,
    Agent.sent (snd (m s)) = Agent.sent s
    /\ Agent.disk (snd (m s)) = Agent.disk s
    /\ Agent.uncaught (snd (m s)) = Agent.uncaught s
    /\ Agent.conn (snd (m s)) = Agent.conn s.

(** An agent computation that writes one message at most. *)
Definition at_most_one {A} (m : prog Agent.state A) : Prop :=
  forall s, exists l,
    Agent.sent (snd (m s)) = (Agent.sent s ++ l)%list /\ length l <= 1.

End Frame.

(** ** Messages on the wire

    The texts of a request, of a registration notice and of an error
    notice, the values [JSON.parse] gives for them, and a [JSON.parse]
    that knows these three texts. *)

Module Wire.
Import Js.

Definition field (key value : string) : string := quoted key ++ ":" ++ value.

Definition request_text : string :=
  "{" ++ field "type" (quoted "request") ++ ","
      ++ field "requestId" (quoted "r1") ++ ","
      ++ field "action" (quoted "readFile") ++ ","
      ++ field "params" ("{" ++ field "filePath" (quoted "a.txt") ++ "}")
      ++ "}".

Definition request_value : value :=
  VObject [("type", VString "request");
           ("requestId", VString "r1");
           ("action", VString "readFile");
           ("params", VObject [("filePath", VString "a.txt")])].

Definition registered_text : string :=
  "{" ++ field "type" (quoted "registered") ++ ","
      ++ field "sessionToken" (quoted "tok-1") ++ "}".

Definition registered_value : value :=
  VObject [("type", VString "registered");
           ("sessionToken", VString "tok-1")].

Definition error_text : string :=
  "{" ++ field "type" (quoted "error") ++ ","
      ++ field "message" (quoted "no such session") ++ "}".

Definition error_value : value :=
  VObject [("type", VString "error");
           ("message", VString "no such session")].

Definition parse (payload : string) : completion value :=
  if payload =? request_text then Return request_value
  else if payload =? registered_text then Return registered_value
  else if payload =? error_text then Return error_value
  else Throw (SyntaxError "Unexpected token in JSON").

End Wire.

(* ================================================================== *)
(** * Part II: properties                                              *)
(* ================================================================== *)

(** ** Paths: segments of joined and normalized paths *)

Module PathFacts.
Import Path.

Lemma no_sep_cons c s : no_sep (String c s) = negb (is_sep c) && no_sep s.
Proof. reflexivity. Qed.

Lemma string_app_nil_r s : s ++ "" = s.
Proof. induction s as [|c s IH]; simpl; [|rewrite IH]; reflexivity. Qed.

Lemma string_app_assoc a b c : (a ++ b) ++ c = a ++ b ++ c.
Proof. induction a as [|x a IH]; simpl; [|rewrite IH]; reflexivity. Qed.

Lemma split_slash_cons s : split (String "/"%char s) = "" :: split s.
Proof. reflexivity. Qed.

Lemma split_nonempty s : split s <> [].
Proof.
  destruct s as [|c s]; simpl; [discriminate|].
  destruct (is_sep c); [discriminate|].
  destruct (split s); discriminate.
Qed.

Lemma split_no_sep s : no_sep s = true -> split s = [s].
Proof.
  induction s as [|c s IH]; simpl; [reflexivity|].
  rewrite no_sep_cons. intros H. apply andb_prop in H. destruct H as [Hc Hs].
  apply negb_true_iff in Hc. rewrite Hc, (IH Hs). reflexivity.
Qed.

Lemma split_all_no_sep s : Forall (fun x => no_sep x = true) (split s).
Proof.
  induction s as [|c s IH]; simpl.
  - constructor; [reflexivity|constructor].
  - destruct (is_sep c) eqn:Hc.
    + constructor; [reflexivity|exact IH].
    + destruct (split s) as [|seg segs] eqn:Hs.
      * constructor; [|constructor]. rewrite no_sep_cons, Hc. reflexivity.
      * inversion IH; subst. constructor; [|assumption].
        rewrite no_sep_cons, Hc. simpl. assumption.
Qed.

Lemma split_app_sep a b : split (a ++ "/" ++ b) = (split a ++ split b)%list.
Proof.
  change ("/" ++ b) with (String "/"%char b).
  induction a as [|c a IH]; simpl; [reflexivity|].
  rewrite IH. destruct (is_sep c); [reflexivity|].
  destruct (split a) eqn:Ha; [|reflexivity].
  exfalso. exact (split_nonempty _ Ha).
Qed.

Lemma unsplit_cons s segs :
  segs <> [] -> unsplit (s :: segs) = s ++ "/" ++ unsplit segs.
Proof. destruct segs; [congruence|reflexivity]. Qed.

Lemma split_unsplit segs :
  segs <> [] -> Forall (fun x => no_sep x = true) segs ->
  split (unsplit segs) = segs.
Proof.
  induction segs as [|s segs IH]; [congruence|].
  intros _ H. inversion H; subst.
  destruct segs as [|t segs].
  - simpl. apply split_no_sep. assumption.
  - rewrite unsplit_cons by discriminate.
    rewrite split_app_sep, split_no_sep by assumption.
    rewrite IH; [reflexivity|discriminate|assumption].
Qed.

Lemma clean_nonempty s : clean s = true -> s <> "".
Proof.
  intros H ->. discriminate.
Qed.

Lemma clean_no_sep s : clean s = true -> no_sep s = true.
Proof.
  unfold clean. intros H. apply andb_prop in H. tauto.
Qed.

Lemma clean_parts s :
  clean s = true ->
  (s =? "") = false /\ (s =? ".") = false /\ (s =? "..") = false.
Proof.
  unfold clean. intros H.
  repeat (apply andb_prop in H; destruct H as [H ?]).
  repeat split; apply negb_true_iff; assumption.
Qed.

Lemma push_clean a st s : clean s = true -> push_segment a st s = s :: st.
Proof.
  intros H. destruct (clean_parts _ H) as (H1 & H2 & H3).
  unfold push_segment. rewrite H1, H2, H3. reflexivity.
Qed.

Lemma fold_push_calm a segs : forall st,
  Forall calm segs ->
  fold_left (push_segment a) segs st = (rev (filter nonempty segs) ++ st)%list.
Proof.
  induction segs as [|s segs IH]; intros st H; [reflexivity|].
  inversion H as [|? ? Hs Hrest]; subst. simpl.
  destruct Hs as [-> | Hs].
  - simpl. apply IH. assumption.
  - rewrite push_clean by assumption.
    unfold nonempty at 1. destruct (clean_parts _ Hs) as (-> & _). simpl.
    rewrite IH by assumption. rewrite <- app_assoc. reflexivity.
Qed.

Lemma normalize_segments_calm a segs :
  Forall calm segs -> normalize_segments a segs = filter nonempty segs.
Proof.
  intros H. unfold normalize_segments. rewrite fold_push_calm by assumption.
  rewrite app_nil_r. apply rev_involutive.
Qed.

Lemma filter_nonempty_clean segs :
  Forall (fun s => clean s = true) segs -> filter nonempty segs = segs.
Proof.
  induction 1 as [|s segs Hs _ IH]; [reflexivity|]. cbn [filter].
  rewrite IH. unfold nonempty. destruct (clean_parts _ Hs) as (-> & _).
  reflexivity.
Qed.

Lemma push_keeps_clean st s :
  Forall (fun x => clean x = true) st -> no_sep s = true ->
  Forall (fun x => clean x = true) (push_segment false st s).
Proof.
  intros Hst Hs. unfold push_segment.
  destruct (s =? "") eqn:E1; [assumption|].
  destruct (s =? ".") eqn:E2; [assumption|]. simpl.
  destruct (s =? "..") eqn:E3.
  - destruct st as [|top below]; [constructor|].
    inversion Hst; subst.
    destruct (top =? ".."); assumption.
  - constructor; [|assumption].
    unfold clean. rewrite E1, E2, E3, Hs. reflexivity.
Qed.

Lemma normalize_segments_clean segs :
  Forall (fun x => no_sep x = true) segs ->
  Forall (fun x => clean x = true) (normalize_segments false segs).
Proof.
  intros H. unfold normalize_segments. apply Forall_rev.
  assert (G : forall st, Forall (fun x => clean x = true) st ->
            Forall (fun x => clean x = true)
                   (fold_left (push_segment false) segs st)).
  { induction H as [|s segs Hs _ IH]; intros st Hst; [assumption|].
    simpl. apply IH. apply push_keeps_clean; assumption. }
  apply G. constructor.
Qed.

Lemma unsplit_clean_empty segs :
  Forall (fun x => clean x = true) segs -> unsplit segs = "" -> segs = [].
Proof.
  intros H E. destruct segs as [|s segs]; [reflexivity|].
  inversion H as [|? ? Hs _]; subst.
  apply clean_nonempty in Hs. exfalso.
  destruct s as [|c s]; [congruence|].
  destruct segs; discriminate.
Qed.

Lemma endsWithSep_app a b : b <> "" -> endsWithSep (a ++ b) = endsWithSep b.
Proof.
  intros Hb. induction a as [|c a IH]; [reflexivity|].
  simpl. destruct (a ++ b) eqn:E; [|exact IH].
  destruct a; simpl in E; [congruence|discriminate].
Qed.

Lemma endsWithSep_no_sep s : no_sep s = true -> endsWithSep s = false.
Proof.
  induction s as [|c s IH]; [reflexivity|].
  rewrite no_sep_cons. intros H. apply andb_prop in H. destruct H as [Hc Hs].
  simpl. destruct s; [apply negb_true_iff; exact Hc|]. apply IH. exact Hs.
Qed.

Lemma endsWithSep_unsplit segs :
  Forall (fun x => clean x = true) segs -> endsWithSep (unsplit segs) = false.
Proof.
  induction 1 as [|s segs Hs Hrest IH]; [reflexivity|].
  destruct segs as [|t segs].
  - simpl. apply endsWithSep_no_sep, clean_no_sep, Hs.
  - rewrite unsplit_cons by discriminate.
    rewrite endsWithSep_app by discriminate.
    change ("/" ++ unsplit (t :: segs)) with (String "/"%char (unsplit (t :: segs))).
    inversion Hrest; subst.
    assert (unsplit (t :: segs) <> "").
    { intros E. apply unsplit_clean_empty in E; [discriminate|assumption]. }
    simpl. destruct (unsplit (t :: segs)) eqn:E; [congruence|]. exact IH.
Qed.

Lemma clean_all_no_sep segs :
  Forall (fun x => clean x = true) segs -> Forall (fun x => no_sep x = true) segs.
Proof.
  intros H. eapply Forall_impl; [|exact H]. apply clean_no_sep.
Qed.

Lemma split_normalize_abs p :
  isAbsolute p = true ->
  let segs := normalize_segments false (split p) in
  isAbsolute (normalize p) = true /\
  split (normalize p) =
    "" :: (segs ++ (if endsWithSep p || (length segs =? 0)%nat then [""] else []))%list.
Proof.
  intros Habs segs.
  assert (Hclean : Forall (fun x => clean x = true) segs)
    by apply normalize_segments_clean, split_all_no_sep.
  unfold normalize. destruct p as [|c p]; [discriminate|].
  change (String c p =? "") with false. cbv iota.
  rewrite Habs. cbv zeta. simpl negb.
  unfold normalizeString. fold segs.
  destruct (unsplit segs =? "") eqn:E.
  - apply String.eqb_eq in E. apply unsplit_clean_empty in E; [|assumption].
    rewrite E. rewrite orb_true_r. split; reflexivity.
  - assert (Hne : segs <> []) by (intros ->; discriminate).
    split; [reflexivity|].
    change ("/" ++ unsplit segs ++ (if endsWithSep (String c p) then "/" else ""))
      with (String "/"%char (unsplit segs ++ (if endsWithSep (String c p) then "/" else ""))).
    rewrite split_slash_cons. f_equal.
    replace (length segs =? 0)%nat with false
      by (destruct segs; [congruence|reflexivity]).
    rewrite orb_false_r.
    destruct (endsWithSep (String c p)).
    + change (unsplit segs ++ "/") with (unsplit segs ++ "/" ++ "").
      rewrite split_app_sep. rewrite split_unsplit; auto using clean_all_no_sep.
    + rewrite string_app_nil_r.
      rewrite split_unsplit; auto using clean_all_no_sep. rewrite app_nil_r. reflexivity.
Qed.

Lemma tidy_normalize p :
  isAbsolute p = true -> tidy (normalize p) (normalize_segments false (split p)).
Proof.
  intros H. destruct (split_normalize_abs p H) as [Ha Hs].
  split; [exact Ha|]. split.
  - apply normalize_segments_clean, split_all_no_sep.
  - rewrite Hs.
    destruct (endsWithSep p || _); [right|left]; [reflexivity|].
    rewrite app_nil_r. reflexivity.
Qed.

Lemma isAbsolute_app a b : isAbsolute a = true -> isAbsolute (a ++ b) = true.
Proof. destruct a; [discriminate|]. intros H. exact H. Qed.

Lemma isAbsolute_nonempty a : isAbsolute a = true -> nonempty a = true.
Proof. destruct a; [discriminate|reflexivity]. Qed.

Lemma isAbsolute_nonempty_false a : isAbsolute a = true -> (a =? "") = false.
Proof. destruct a; [discriminate|reflexivity]. Qed.

(** What [path.join(base, arg)] normalizes. *)
Lemma join_two base arg :
  isAbsolute base = true ->
  join [base; arg] =
  normalize (if nonempty arg then base ++ "/" ++ arg else base).
Proof.
  intros H. unfold join. cbn [filter].
  rewrite (isAbsolute_nonempty _ H).
  destruct (nonempty arg); reflexivity.
Qed.

Lemma join_tidy base arg :
  isAbsolute base = true -> exists segs, tidy (join [base; arg]) segs.
Proof.
  intros H. rewrite join_two by assumption. eexists. apply tidy_normalize.
  destruct (nonempty arg); [apply isAbsolute_app|]; assumption.
Qed.

Lemma tidy_calm p segs : tidy p segs -> Forall calm (split p).
Proof.
  intros (_ & Hc & Hs).
  assert (Forall calm segs).
  { eapply Forall_impl; [|exact Hc]. intros; right; assumption. }
  destruct Hs as [-> | ->]; constructor; try (left; reflexivity); auto.
  apply Forall_app. split; [assumption|]. constructor; [left; reflexivity|constructor].
Qed.

Lemma tidy_filter p segs : tidy p segs -> filter nonempty (split p) = segs.
Proof.
  intros (_ & Hc & Hs).
  destruct Hs as [-> | ->]; cbn [filter nonempty String.eqb negb].
  - apply filter_nonempty_clean. assumption.
  - rewrite filter_app. cbn. rewrite app_nil_r.
    apply filter_nonempty_clean. assumption.
Qed.


Lemma resolved_tidy R :
  resolved R = true ->
  tidy R (normalize_segments false (split R)) /\
  R = "/" ++ unsplit (normalize_segments false (split R)).
Proof.
  unfold resolved. intros H. apply andb_prop in H. destruct H as [Ha He].
  apply String.eqb_eq in He. split; [|exact He].
  set (segs := normalize_segments false (split R)) in *.
  assert (Hc : Forall (fun x => clean x = true) segs)
    by apply normalize_segments_clean, split_all_no_sep.
  split; [exact Ha|]. split; [exact Hc|].
  rewrite He at 1 2.
  change ("/" ++ unsplit segs) with (String "/"%char (unsplit segs)).
  rewrite split_slash_cons.
  destruct segs as [|s segs0] eqn:E.
  - right. reflexivity.
  - left. rewrite split_unsplit; [reflexivity|discriminate|].
    apply clean_all_no_sep. assumption.
Qed.

Lemma normalize_abs_eq p :
  isAbsolute p = true ->
  normalize p =
  if unsplit (normalize_segments false (split p)) =? "" then "/"
  else "/" ++ unsplit (normalize_segments false (split p))
           ++ (if endsWithSep p then "/" else "").
Proof.
  intros H. unfold normalize. destruct p as [|c p]; [discriminate|].
  change (String c p =? "") with false. cbv iota. rewrite H. reflexivity.
Qed.

(** [path.join(R, '')] is [R] itself for a resolved [R]. *)
Lemma join_resolved_empty R : resolved R = true -> join [R; ""] = R.
Proof.
  intros H. destruct (resolved_tidy R H) as [(Ha & Hc & _) He].
  rewrite join_two by assumption. cbn [nonempty String.eqb negb].
  rewrite normalize_abs_eq by assumption.
  set (segs := normalize_segments false (split R)) in *.
  destruct (unsplit segs =? "") eqn:E.
  - apply String.eqb_eq in E. rewrite He, E. reflexivity.
  - assert (endsWithSep R = false) as ->.
    { rewrite He. rewrite endsWithSep_app.
      - apply endsWithSep_unsplit. assumption.
      - intros E'. rewrite E' in E. discriminate. }
    rewrite string_app_nil_r. symmetry. exact He.
Qed.



End PathFacts.

(** ** The file system: lookups along tidy paths *)

Module FsFacts.
Import Js Fs Path PathFacts.

Lemma get_app a b r :
  get (a ++ b) r = match get a r with
                   | Some n => get b n
                   | None => None
                   end.
Proof.
  revert r. induction a as [|x a IH]; intros r; [reflexivity|].
  simpl. destruct r as [|sz es]; [reflexivity|].
  destruct (find_entry es x); [apply IH|reflexivity].
Qed.

Lemma get_snoc a x r :
  get (a ++ [x]) r = match get a r with
                     | Some (Dir _ es) => find_entry es x
                     | _ => None
                     end.
Proof.
  rewrite get_app. destruct (get a r) as [[|sz es]|]; try reflexivity.
  simpl. destruct (find_entry es x); reflexivity.
Qed.

(** A path has a NUL byte when one of its segments has one. *)
Lemma has_nul_cons c s :
  has_nul (String c s) = Ascii.eqb Ascii.zero c || has_nul s.
Proof. reflexivity. Qed.

Lemma has_nul_split p : has_nul p = existsb has_nul (split p).
Proof.
  induction p as [|c p IH]; [reflexivity|].
  rewrite has_nul_cons. cbn [split]. unfold is_sep.
  destruct (Ascii.eqb c "/") eqn:E.
  - apply Ascii.eqb_eq in E. subst c. cbn [existsb]. rewrite <- IH. reflexivity.
  - destruct (split p) as [|seg segs] eqn:Hs.
    + exfalso. exact (split_nonempty p Hs).
    + cbn [existsb] in *. rewrite has_nul_cons, IH.
      apply orb_assoc.
Qed.

Lemma existsb_app_false {A} (f : A -> bool) a b :
  existsb f (a ++ b) = false <-> existsb f a = false /\ existsb f b = false.
Proof. rewrite existsb_app. apply orb_false_iff. Qed.

Lemma legal_names_parts segs :
  forallb legal_name segs = true <->
  existsb has_nul segs = false /\ Forall (fun x => too_long x = false) segs.
Proof.
  induction segs as [|x segs IH]; cbn [forallb existsb].
  - split; [intros _; split; [reflexivity|constructor]|reflexivity].
  - unfold legal_name at 1. split.
    + intros H. apply andb_prop in H. destruct H as [Hx H].
      apply andb_prop in Hx. destruct Hx as [Hn Hl].
      apply negb_true_iff in Hn, Hl. apply IH in H. destruct H as [H1 H2].
      rewrite Hn, H1. split; [reflexivity|constructor; assumption].
    + intros [H1 H2]. apply orb_false_iff in H1. destruct H1 as [Hn H1].
      inversion H2 as [|? ? Hl H2']; subst.
      rewrite Hn, Hl. cbn [negb andb]. apply IH. split; assumption.
Qed.

Lemma walk_clean_ok segs : forall cur r n,
  Forall (fun x => clean x = true) segs ->
  Forall (fun x => too_long x = false) segs ->
  get (cur ++ segs) r = Some n ->
  walk r cur segs = inr (cur ++ segs)%list.
Proof.
  induction segs as [|s rest IH]; intros cur r n Hc Hl Hg.
  - rewrite app_nil_r. reflexivity.
  - inversion Hc as [|? ? Hs Hrest]; subst.
    inversion Hl as [|? ? Hls Hlrest]; subst.
    replace (cur ++ s :: rest)%list with ((cur ++ [s]) ++ rest)%list in *
      by (rewrite <- app_assoc; reflexivity).
    pose proof Hg as Hg'. rewrite get_app in Hg'.
    destruct (get (cur ++ [s]) r) as [m|] eqn:Hm; [|discriminate].
    rewrite get_snoc in Hm.
    simpl. destruct (get cur r) as [[|sz es]|]; try discriminate.
    destruct (clean_parts _ Hs) as (-> & -> & ->). simpl.
    rewrite Hls, Hm. eapply IH; eassumption.
Qed.

Lemma walk_calm_inv segs : forall cur r names,
  Forall calm segs ->
  walk r cur segs = inr names ->
  names = (cur ++ filter nonempty segs)%list.
Proof.
  induction segs as [|s rest IH]; intros cur r names Hc Hw.
  - simpl in *. rewrite app_nil_r. congruence.
  - inversion Hc as [|? ? Hs Hrest]; subst.
    simpl in Hw. destruct (get cur r) as [[|sz es]|]; try discriminate.
    destruct Hs as [-> | Hs].
    + simpl in Hw. cbn [filter nonempty String.eqb negb]. eapply IH; eassumption.
    + destruct (clean_parts _ Hs) as (E1 & E2 & E3).
      rewrite E1, E2, E3 in Hw. simpl in Hw.
      cbn [filter]. unfold nonempty at 1. rewrite E1. simpl negb. cbv iota.
      destruct (too_long s); [discriminate|].
      destruct (find_entry es s); [|discriminate].
      apply IH in Hw; [|assumption]. rewrite Hw, <- app_assoc. reflexivity.
Qed.

(** The names of a path that the system has resolved are not longer
    than [NAME_MAX]. *)
Lemma walk_calm_short segs : forall cur r names,
  Forall calm segs ->
  walk r cur segs = inr names ->
  Forall (fun x => too_long x = false) (filter nonempty segs).
Proof.
  induction segs as [|s rest IH]; intros cur r names Hc Hw.
  - constructor.
  - inversion Hc as [|? ? Hs Hrest]; subst.
    simpl in Hw. destruct (get cur r) as [[|sz es]|]; try discriminate.
    destruct Hs as [-> | Hs].
    + simpl in Hw. cbn [filter nonempty String.eqb negb]. eapply IH; eassumption.
    + destruct (clean_parts _ Hs) as (E1 & E2 & E3).
      rewrite E1, E2, E3 in Hw. simpl in Hw.
      cbn [filter]. unfold nonempty at 1. rewrite E1. simpl negb. cbv iota.
      destruct (too_long s) eqn:Hl; [discriminate|].
      destruct (find_entry es s); [|discriminate].
      constructor; [exact Hl|]. eapply IH; eassumption.
Qed.

Lemma locate_ext w w' p :
  root w = root w' -> cwd w = cwd w' -> locate w p = locate w' p.
Proof. unfold locate, origin. intros -> ->. reflexivity. Qed.

(** A tidy path names the node its segments lead to. *)
Lemma locate_tidy w p segs n :
  tidy p segs -> locate w p = inr n -> get segs (root w) = Some n.
Proof.
  intros Ht. pose proof Ht as (Ha & _ & _).
  unfold locate, origin. rewrite Ha, (isAbsolute_nonempty_false _ Ha).
  destruct (has_nul p); [discriminate|]. cbn [orb].
  destruct (walk (root w) [] (split p)) as [e|names] eqn:Hw; [discriminate|].
  apply walk_calm_inv in Hw; [|eapply tidy_calm; eassumption].
  rewrite (tidy_filter _ _ Ht) in Hw. simpl in Hw. subst names.
  destruct (get segs (root w)); [congruence|discriminate].
Qed.

Lemma locate_no_nul w p n : locate w p = inr n -> has_nul p = false.
Proof.
  unfold locate. destruct (has_nul p); [|reflexivity].
  rewrite orb_true_r. discriminate.
Qed.

(** The names of a tidy path that names something are names that the
    rules on names allow. *)
Lemma locate_legal w p segs n :
  tidy p segs -> locate w p = inr n -> forallb legal_name segs = true.
Proof.
  intros Ht Hloc. pose proof (locate_no_nul _ _ _ Hloc) as Hn.
  apply legal_names_parts. split.
  - rewrite has_nul_split in Hn. destruct Ht as (_ & _ & [Hs | Hs]);
      rewrite Hs in Hn; cbn [existsb] in Hn.
    + exact Hn.
    + apply existsb_app_false in Hn. tauto.
  - pose proof Ht as (Ha & _ & _). revert Hloc.
    unfold locate, origin. rewrite Ha, (isAbsolute_nonempty_false _ Ha), Hn.
    cbn [orb].
    destruct (walk (root w) [] (split p)) as [e|names] eqn:Hw; [discriminate|].
    intros _. apply walk_calm_short in Hw; [|eapply tidy_calm; eassumption].
    rewrite (tidy_filter _ _ Ht) in Hw. exact Hw.
Qed.

Lemma locate_segments w p segs n :
  isAbsolute p = true -> split p = "" :: segs -> segs <> [] ->
  Forall (fun x => clean x = true) segs ->
  forallb legal_name segs = true ->
  get segs (root w) = Some n ->
  locate w p = inr n.
Proof.
  intros Ha Hs Hne Hc Hl Hg.
  apply legal_names_parts in Hl. destruct Hl as [Hn Hl].
  assert (Hnul : has_nul p = false).
  { rewrite has_nul_split, Hs. exact Hn. }
  unfold locate, origin. rewrite Ha, (isAbsolute_nonempty_false _ Ha), Hnul, Hs.
  assert (Hdir : exists sz es, root w = Dir sz es).
  { destruct segs as [|s segs]; [congruence|].
    simpl in Hg. destruct (root w) as [|sz es]; [discriminate|]. eauto. }
  destruct Hdir as (sz & es & Hr).
  cbn [walk get]. rewrite Hr. cbn [String.eqb orb]. rewrite <- Hr.
  rewrite (walk_clean_ok segs [] (root w) n Hc Hl Hg). simpl. rewrite Hg. reflexivity.
Qed.





End FsFacts.

(** ** The file system: writing a file *)

Module WriteFacts.
Import Js Fs Path PathFacts FsFacts.
Local Open Scope prog_scope.

Lemma find_entry_app a b y :
  find_entry (a ++ b) y = match find_entry a y with
                          | Some c => Some c
                          | None => find_entry b y
                          end.
Proof.
  induction a as [|[k c] a IH]; [reflexivity|].
  cbn [app find_entry]. destruct (k =? y); [reflexivity|exact IH].
Qed.

Lemma find_update_same x f es :
  find_entry (update_entry x f es) x
  = match find_entry es x with
    | Some c => Some (f c)
    | None => None
    end.
Proof.
  induction es as [|[k c] es IH]; [reflexivity|].
  simpl. destruct (k =? x) eqn:E; simpl; rewrite E; [reflexivity|exact IH].
Qed.

Lemma find_update_other x y f es :
  (x =? y) = false ->
  find_entry (update_entry x f es) y = find_entry es y.
Proof.
  intros Hxy. induction es as [|[k c] es IH]; [reflexivity|].
  simpl. destruct (k =? x) eqn:E; simpl.
  - apply String.eqb_eq in E. subst k. rewrite Hxy. reflexivity.
  - destruct (k =? y); [reflexivity|exact IH].
Qed.

Lemma find_insert x y fresh es :
  find_entry (insert_entry x fresh es) y
  = match find_entry es y with
    | Some c =>
        match find_entry fresh y with
        | Some c' => find_entry (insert_entry x fresh es) y
        | None => Some c
        end
    | None => find_entry fresh y
    end.
Proof.
  induction es as [|[k c] es IH]; [reflexivity|].
  cbn [insert_entry]. destruct (String.ltb x k).
  - rewrite find_entry_app. destruct (find_entry fresh y) eqn:Hf.
    + destruct (find_entry ((k, c) :: es) y); reflexivity.
    + destruct (find_entry ((k, c) :: es) y); reflexivity.
  - cbn [find_entry]. destruct (k =? y).
    + destruct (find_entry fresh y); reflexivity.
    + exact IH.
Qed.

Lemma find_replace_same x f fresh es :
  find_entry (replace_entry x f fresh es) x
  = match find_entry es x with
    | Some c => Some (f c)
    | None => find_entry fresh x
    end.
Proof.
  unfold replace_entry. destruct (find_entry es x) as [c|] eqn:E.
  - rewrite find_update_same, E. reflexivity.
  - rewrite find_insert, E. reflexivity.
Qed.

Lemma find_replace_other x y f fresh es :
  (x =? y) = false -> find_entry fresh y = None ->
  find_entry (replace_entry x f fresh es) y = find_entry es y.
Proof.
  intros Hxy Hf. unfold replace_entry. destruct (find_entry es x).
  - apply find_update_other. exact Hxy.
  - rewrite find_insert, Hf. destruct (find_entry es y); reflexivity.
Qed.

(** Putting a regular file where there is no directory keeps every node
    that was there, up to the content of the file replaced. *)
Lemma put_extends q new : forall r,
  is_dir new = false ->
  (forall n, get q r = Some n -> is_dir n = false) ->
  forall names n, get names r = Some n ->
  exists n', get names (put q new r) = Some n' /\ is_dir n' = is_dir n.
Proof.
  induction q as [|x rest IH]; intros r Hnew Hq names n Hget.
  - specialize (Hq r eq_refl). destruct r as [content|sz es]; [|discriminate].
    destruct names; simpl in Hget; [|discriminate].
    inversion Hget; subst. exists new. split; [reflexivity|assumption].
  - destruct r as [content|sz es]; [eauto|].
    destruct names as [|y ys].
    + simpl in Hget. inversion Hget; subst. eexists. split; reflexivity.
    + cbn [put get]. simpl in Hget.
      destruct (find_entry es y) as [c|] eqn:Hy; [|discriminate].
      destruct (x =? y) eqn:Exy.
      * apply String.eqb_eq in Exy. subst y.
        rewrite find_replace_same, Hy. apply IH; try assumption.
        intros m Hm. apply Hq. simpl. rewrite Hy. exact Hm.
      * rewrite find_replace_other, Hy; [eauto|exact Exy|].
        destruct rest; simpl; [|reflexivity].
        rewrite Exy. reflexivity.
Qed.

Lemma get_put_same parent x new : forall r sz es,
  get parent r = Some (Dir sz es) ->
  get (parent ++ [x]) (put (parent ++ [x]) new r) = Some new.
Proof.
  induction parent as [|y ps IH]; intros r sz es Hget.
  - simpl in Hget. inversion Hget; subst. cbn [app put get].
    rewrite find_replace_same.
    destruct (find_entry es x); simpl; [reflexivity|].
    rewrite String.eqb_refl. reflexivity.
  - simpl in Hget. destruct r as [content|sz0 es0]; [discriminate|].
    destruct (find_entry es0 y) as [c|] eqn:Hy; [|discriminate].
    cbn [app put get]. rewrite find_replace_same, Hy.
    eapply IH. eassumption.
Qed.

Lemma walk_extends r r' :
  (forall names n, get names r = Some n ->
     exists n', get names r' = Some n' /\ is_dir n' = is_dir n) ->
  forall segs cur out, walk r cur segs = inr out -> walk r' cur segs = inr out.
Proof.
  intros Hext. induction segs as [|s rest IH]; intros cur out Hw; [exact Hw|].
  simpl in Hw. simpl.
  destruct (get cur r) as [[content|sz es]|] eqn:Hcur; try discriminate.
  destruct (Hext _ _ Hcur) as (n' & Hcur' & Hdir).
  destruct n' as [content'|sz' es']; [discriminate|]. rewrite Hcur'.
  destruct ((s =? "") || (s =? ".")); [apply IH; assumption|].
  destruct (s =? ".."); [apply IH; assumption|].
  destruct (too_long s); [discriminate|].
  destruct (find_entry es s) as [c|] eqn:Hs; [|discriminate].
  assert (Hc : get (cur ++ [s]) r = Some c) by (rewrite get_snoc, Hcur; exact Hs).
  destruct (Hext _ _ Hc) as (c' & Hc' & _).
  rewrite get_snoc, Hcur' in Hc'. rewrite Hc'. apply IH. assumption.
Qed.

Lemma walk_app r a : forall cur b,
  walk r cur (a ++ b)
  = match walk r cur a with
    | inr mid => walk r mid b
    | inl e => inl e
    end.
Proof.
  induction a as [|s a IH]; intros cur b; [reflexivity|].
  simpl. destruct (get cur r) as [[content|sz es]|]; try reflexivity.
  destruct ((s =? "") || (s =? ".")); [apply IH|].
  destruct (s =? ".."); [apply IH|].
  destruct (too_long s); [reflexivity|].
  destruct (find_entry es s); [apply IH|reflexivity].
Qed.

Lemma drop_while_head {A} (f : A -> bool) l x rest :
  drop_while f l = x :: rest -> f x = false.
Proof.
  induction l as [|y l IH]; simpl; [discriminate|].
  destruct (f y) eqn:E; [exact IH|]. intros H. inversion H; subst. exact E.
Qed.

Lemma drop_while_length {A} (f : A -> bool) l :
  length (drop_while f l) <= length l.
Proof.
  induction l as [|y l IH]; simpl; [lia|]. destruct (f y); simpl; lia.
Qed.

Lemma drop_while_all {A} (f : A -> bool) l :
  length (drop_while f l) = length l -> drop_while f l = l.
Proof.
  destruct l as [|y l]; simpl; [reflexivity|].
  destruct (f y); [|reflexivity].
  pose proof (drop_while_length f l). lia.
Qed.

Lemma strip_trailing_none segs body :
  strip_trailing segs = (body, false) -> body = segs.
Proof.
  unfold strip_trailing. intros H.
  assert (Hb := f_equal fst H). assert (Ht := f_equal snd H).
  cbn [fst snd] in Hb, Ht.
  apply negb_false_iff, Nat.eqb_eq in Ht. rewrite length_rev in Ht.
  rewrite <- (length_rev segs) in Ht. apply drop_while_all in Ht.
  rewrite <- Hb, Ht. apply rev_involutive.
Qed.

Lemma strip_trailing_last segs body trailing last rev_init :
  strip_trailing segs = (body, trailing) -> rev body = last :: rev_init ->
  (last =? "") = false.
Proof.
  unfold strip_trailing. intros H Hr.
  assert (Hb := f_equal fst H). cbn [fst] in Hb.
  rewrite <- Hb, rev_involutive in Hr.
  apply drop_while_head in Hr. rewrite String.eqb_sym. exact Hr.
Qed.

(** After a successful [create], the path names the file written. *)
Lemma create_then_locate w p data r' w1 :
  has_nul p = false ->
  create w p data = inr r' ->
  root w1 = r' -> cwd w1 = cwd w ->
  locate w1 p = inr (File data).
Proof.
  unfold create, locate. intros Hnul H Hr Hc. subst r'. rewrite Hnul.
  destruct (p =? "") eqn:Hp; [discriminate|]. cbn [orb].
  destruct (strip_trailing (split p)) as [body trailing] eqn:Hstrip.
  destruct (rev body) as [|last rev_init] eqn:Hrev; [discriminate|].
  destruct (walk (root w) (origin w p) (rev rev_init)) as [e|parent] eqn:Hwalk;
    [discriminate|].
  destruct (get parent (root w)) as [[content|sz es]|] eqn:Hparent;
    try discriminate.
  destruct trailing; [discriminate|]. cbn [orb] in H.
  destruct (last =? ".") eqn:E1; [discriminate|].
  destruct (last =? "..") eqn:E2; [discriminate|]. cbn [orb] in H.
  destruct (too_long last) eqn:E3; [discriminate|].
  pose proof (strip_trailing_last _ _ _ _ _ Hstrip Hrev) as E0.
  apply strip_trailing_none in Hstrip. subst body.
  assert (Hsplit : split p = (rev rev_init ++ [last])%list).
  { rewrite <- (rev_involutive (split p)), Hrev. reflexivity. }
  assert (Hput : root w1 = put (parent ++ [last]) (File data) (root w)).
  { destruct (find_entry es last) as [[c|sz' es']|]; inversion H; reflexivity. }
  assert (Hfree : forall n, get (parent ++ [last]) (root w) = Some n ->
                            is_dir n = false).
  { intros n. rewrite get_snoc, Hparent.
    destruct (find_entry es last) as [[c|sz' es']|]; try discriminate.
    intros Hn. inversion Hn. reflexivity. }
  assert (Hext : forall names n, get names (root w) = Some n ->
            exists n', get names (root w1) = Some n' /\ is_dir n' = is_dir n).
  { rewrite Hput. apply put_extends; [reflexivity|exact Hfree]. }
  assert (Horigin : origin w1 p = origin w p) by (unfold origin; rewrite Hc; reflexivity).
  rewrite Horigin, Hsplit, walk_app.
  rewrite (walk_extends _ _ Hext _ _ _ Hwalk).
  destruct (Hext _ _ Hparent) as (n' & Hparent' & Hdir).
  destruct n' as [content'|sz' es']; [discriminate|].
  assert (Hnew : get (parent ++ [last]) (root w1) = Some (File data)).
  { rewrite Hput. eapply get_put_same. eassumption. }
  pose proof Hnew as Hfind. rewrite get_snoc, Hparent' in Hfind.
  cbn [walk]. rewrite Hparent', E0, E1, E2, E3. cbn [orb]. rewrite Hfind, Hnew.
  reflexivity.
Qed.

Lemma create_ext w w' p data :
  root w = root w' -> cwd w = cwd w' -> create w p data = create w' p data.
Proof. unfold create, origin. intros -> ->. reflexivity. Qed.

Lemma writeFileSync_run w p data :
  writeFileSync p data w
  = if has_nul p
    then (Throw (invalid_path p), record_call "writeFileSync" p w)
    else match create w p data with
         | inr r => (Return tt, set_root r (record_call "writeFileSync" p w))
         | inl e => (Throw (SystemError e "open" (Some p)),
                     record_call "writeFileSync" p w)
         end.
Proof.
  unfold writeFileSync, bind, called, ask.
  rewrite (create_ext (record_call "writeFileSync" p w) w) by reflexivity.
  destruct (has_nul p); [reflexivity|].
  destruct (create w p data); reflexivity.
Qed.

Lemma writeFileSync_then_locate w p data w' :
  writeFileSync p data w = (Return tt, w') -> locate w' p = inr (File data).
Proof.
  rewrite writeFileSync_run.
  destruct (has_nul p) eqn:Hnul; [discriminate|].
  destruct (create w p data) as [e|r] eqn:Hc; [discriminate|].
  intros H. inversion H; subst.
  eapply create_then_locate; [exact Hnul|exact Hc| |]; reflexivity.
Qed.

(** Whether [create] succeeds, and with which error it fails, does not
    depend on the bytes written. *)
Lemma create_error_any_data w p data data' e :
  create w p data = inl e -> create w p data' = inl e.
Proof.
  unfold create.
  destruct (p =? ""); [auto|].
  destruct (strip_trailing (split p)) as [body trailing].
  destruct (rev body) as [|last rev_init]; [auto|].
  destruct (walk (root w) (origin w p) (rev rev_init)); [auto|].
  destruct (get _ (root w)) as [[content|sz es]|]; auto.
  destruct (trailing || (last =? ".") || (last =? "..")); [auto|].
  destruct (too_long last); [auto|].
  destruct (find_entry es last) as [[c|sz' es']|]; auto; discriminate.
Qed.

End WriteFacts.

(** ** Writing succeeds at a vacant place *)

Module VacantFacts.
Import Js Fs Path PathFacts FsFacts WriteFacts.
Local Open Scope prog_scope.

Lemma list_ascii_app a b :
  list_ascii_of_string (a ++ b)
  = (list_ascii_of_string a ++ list_ascii_of_string b)%list.
Proof. induction a as [|c a IH]; simpl; [|rewrite IH]; reflexivity. Qed.

Lemma drop_while_app_all {A} (f : A -> bool) l rest :
  forallb f l = true -> drop_while f (l ++ rest) = drop_while f rest.
Proof.
  induction l as [|x l IH]; simpl; [reflexivity|].
  intros H. apply andb_prop in H. destruct H as [-> H]. exact (IH H).
Qed.

Lemma forallb_rev {A} (f : A -> bool) l : forallb f (rev l) = forallb f l.
Proof.
  induction l as [|x l IH]; [reflexivity|].
  simpl. rewrite forallb_app, IH. simpl. rewrite andb_true_r. apply andb_comm.
Qed.

Lemma unsplit_snoc l x :
  l <> [] -> unsplit (l ++ [x]) = unsplit l ++ "/" ++ x.
Proof.
  induction l as [|y l IH]; intros Hne; [congruence|].
  destruct l as [|z l]; [reflexivity|].
  change (unsplit ((y :: z :: l) ++ [x]))
    with (y ++ "/" ++ unsplit ((z :: l) ++ [x])).
  rewrite IH by discriminate.
  change (unsplit (y :: z :: l)) with (y ++ "/" ++ unsplit (z :: l)).
  rewrite !string_app_assoc. reflexivity.
Qed.

Lemma dirname_scan_segment last prefix :
  clean last = true ->
  dirname_scan (rev (list_ascii_of_string last) ++ prefix)
  = match drop_while (fun c => negb (is_sep c)) prefix with
    | [] => None
    | _ :: kept => Some kept
    end.
Proof.
  intros Hc. unfold dirname_scan.
  pose proof (clean_no_sep _ Hc) as Hn. unfold no_sep in Hn.
  assert (Hskip : drop_while is_sep (rev (list_ascii_of_string last) ++ prefix)
                  = (rev (list_ascii_of_string last) ++ prefix)%list).
  { destruct (rev (list_ascii_of_string last)) as [|c l] eqn:E.
    - apply (f_equal (@rev ascii)) in E. rewrite rev_involutive in E.
      destruct last; [discriminate|discriminate].
    - rewrite <- forallb_rev, E in Hn. simpl in Hn.
      apply andb_prop in Hn. destruct Hn as [Hc0 _].
      apply negb_true_iff in Hc0. simpl. rewrite Hc0. reflexivity. }
  rewrite Hskip. rewrite drop_while_app_all; [reflexivity|].
  rewrite forallb_rev. exact Hn.
Qed.

(** [path.dirname] of a tidy path without trailing separator drops its
    last name. *)
Lemma dirname_tidy init last :
  Forall (fun x => clean x = true) init -> clean last = true ->
  dirname ("/" ++ unsplit (init ++ [last]))
  = "/" ++ unsplit init.
Proof.
  intros Hi Hl.
  change ("/" ++ unsplit (init ++ [last]))
    with (String "/"%char (unsplit (init ++ [last]))).
  cbn [dirname]. change (is_sep "/") with true.
  destruct init as [|x init'] using rev_ind.
  - cbn [app unsplit String.concat].
    rewrite <- (app_nil_r (rev (list_ascii_of_string last))).
    rewrite dirname_scan_segment by assumption. reflexivity.
  - clear IHinit'.
    assert (E : unsplit ((init' ++ [x]) ++ [last])
                = unsplit (init' ++ [x]) ++ "/" ++ last).
    { apply unsplit_snoc. destruct init'; discriminate. }
    rewrite E, !list_ascii_app, !rev_app_distr.
    change (list_ascii_of_string "/") with ["/"%char].
    rewrite <- app_assoc.
    rewrite dirname_scan_segment by assumption.
    cbn [rev app drop_while is_sep Ascii.eqb Bool.eqb negb].
    assert (Hne : unsplit (init' ++ [x]) <> "").
    { intros E'. apply unsplit_clean_empty in E'; [|assumption].
      destruct init'; discriminate. }
    destruct (rev (list_ascii_of_string (unsplit (init' ++ [x])))) as [|c l] eqn:Er.
    + apply (f_equal (@rev ascii)) in Er. rewrite rev_involutive in Er.
      destruct (unsplit (init' ++ [x])); [congruence|discriminate].
    + rewrite <- Er, rev_involutive, string_of_list_ascii_of_string. reflexivity.
Qed.

Lemma unsplit_split s : unsplit (split s) = s.
Proof.
  induction s as [|c s IH]; [reflexivity|].
  cbn [split]. destruct (is_sep c) eqn:Hc.
  - rewrite unsplit_cons by apply split_nonempty. rewrite IH.
    unfold is_sep in Hc. apply Ascii.eqb_eq in Hc. subst c. reflexivity.
  - destruct (split s) as [|seg segs] eqn:Hs; [exfalso; exact (split_nonempty _ Hs)|].
    rewrite <- IH. destruct segs; reflexivity.
Qed.

Lemma vacant_dir names n : vacant names n = true -> exists sz es, n = Dir sz es.
Proof. destruct n; [destruct names; discriminate|eauto]. Qed.

Lemma mkdirp_vacant last : forall init cur r n,
  Forall (fun x => clean x = true) init ->
  Forall (fun x => too_long x = false) init ->
  get cur r = Some n ->
  vacant (init ++ [last]) n = true ->
  exists r1 sz es,
    mkdirp r cur init = (r1, None)
    /\ get (cur ++ init) r1 = Some (Dir sz es)
    /\ vacant [last] (Dir sz es) = true.
Proof.
  induction init as [|x rest IH]; intros cur r n Hc Hl Hget Hv.
  - destruct (vacant_dir _ _ Hv) as (sz & es & ->).
    exists r, sz, es. rewrite app_nil_r. repeat split; assumption.
  - inversion Hc as [|? ? Hx Hrest]; subst.
    inversion Hl as [|? ? Hlx Hlrest]; subst.
    destruct (vacant_dir _ _ Hv) as (sz & es & ->).
    destruct (clean_parts _ Hx) as (E1 & E2 & E3).
    cbn [mkdirp]. rewrite Hget, E1, E2, E3, Hlx. cbn [orb].
    cbn [app vacant] in Hv.
    destruct (rest ++ [last])%list as [|y l] eqn:Hrl;
      [destruct rest; discriminate|].
    replace (cur ++ x :: rest)%list with ((cur ++ [x]) ++ rest)%list
      by (rewrite <- app_assoc; reflexivity).
    destruct (find_entry es x) as [[c|sz' es']|] eqn:Hfind.
    + discriminate.
    + eapply IH; [assumption|assumption| |exact Hv].
      rewrite get_snoc, Hget. exact Hfind.
    + eapply IH; [assumption|assumption| |].
      * eapply get_put_same. exact Hget.
      * reflexivity.
Qed.

Lemma strip_trailing_named init last :
  clean last = true ->
  strip_trailing ("" :: init ++ [last]) = (("" :: init ++ [last])%list, false).
Proof.
  intros Hl. unfold strip_trailing.
  assert (E : drop_while (String.eqb "") (rev ("" :: init ++ [last]))
              = rev ("" :: init ++ [last])).
  { cbn [rev]. rewrite rev_app_distr. cbn [rev app drop_while].
    rewrite String.eqb_sym. destruct (clean_parts _ Hl) as (-> & _). reflexivity. }
  rewrite E, rev_involutive, Nat.eqb_refl. reflexivity.
Qed.

Lemma create_vacant w p data init last sz es :
  isAbsolute p = true -> split p = "" :: (init ++ [last])%list ->
  Forall (fun x => clean x = true) init -> clean last = true ->
  Forall (fun x => too_long x = false) init -> too_long last = false ->
  get init (root w) = Some (Dir sz es) ->
  vacant [last] (Dir sz es) = true ->
  exists r', create w p data = inr r'.
Proof.
  intros Ha Hs Hi Hl Hsi Hsl Hget Hv. unfold create, origin.
  rewrite (isAbsolute_nonempty_false _ Ha), Ha, Hs.
  rewrite (strip_trailing_named init last Hl).
  cbn [rev]. rewrite rev_app_distr. cbn [rev app].
  rewrite rev_app_distr, rev_involutive. cbn [rev app].
  assert (Hroot : exists sz0 es0, root w = Dir sz0 es0).
  { destruct init as [|x init].
    - simpl in Hget. inversion Hget. eauto.
    - simpl in Hget. destruct (root w); [discriminate|eauto]. }
  destruct Hroot as (sz0 & es0 & Hr).
  cbn [walk get]. rewrite Hr. cbn [String.eqb orb]. rewrite <- Hr.
  rewrite (walk_clean_ok init [] (root w) _ Hi Hsi Hget). cbn [app].
  rewrite Hget. destruct (clean_parts _ Hl) as (_ & -> & ->). cbn [orb].
  rewrite Hsl.
  cbn [vacant] in Hv.
  destruct (find_entry es last) as [[c|sz' es']|]; eauto. discriminate.
Qed.

Lemma mkdirSync_recursive_run w p :
  has_nul p = false -> (p =? "") = false ->
  mkdirSync_recursive p w
  = let '(r, err) := mkdirp (root w) (origin w p) (split p) in
    (match err with
     | None => Return tt
     | Some e => Throw (SystemError e "mkdir" (Some p))
     end, set_root r (record_call "mkdirSync" p w)).
Proof.
  intros Hn Hp. unfold mkdirSync_recursive, bind, called, ask, update_root.
  rewrite Hn, Hp. unfold origin. cbn [root cwd record_call].
  destruct (mkdirp _ _ _) as [r [e|]]; reflexivity.
Qed.

(** At a place that is vacant, [mkdir -p] of the parent followed by the
    write succeeds. *)
Lemma can_write_writable w p : can_write w p = true -> writable w p = true.
Proof. unfold can_write. intros H. apply andb_prop in H. tauto. Qed.

Lemma write_at_vacant w p data segs :
  tidy p segs -> writable w p = true ->
  exists w1 w2,
    mkdirSync_recursive (dirname p) w = (Return tt, w1)
    /\ writeFileSync p data w1 = (Return tt, w2).
Proof.
  intros Ht Hcw. pose proof Ht as (Ha & Hc & Hs).
  unfold writable in Hcw. apply andb_prop in Hcw. destruct Hcw as [Hcw Hlegal].
  apply andb_prop in Hcw. destruct Hcw as [Htr Hv].
  apply negb_true_iff in Htr. unfold segments in Hv, Hlegal.
  rewrite (tidy_filter _ _ Ht) in Hv, Hlegal.
  apply legal_names_parts in Hlegal. destruct Hlegal as [Hnul Hshort].
  assert (Hsplit : split p = "" :: segs).
  { destruct Hs as [Hs|Hs]; [exact Hs|]. unfold trailing_sep in Htr.
    rewrite Hs in Htr. cbn [rev] in Htr. rewrite rev_app_distr in Htr.
    discriminate. }
  destruct (vacant_dir _ _ Hv) as (sz0 & es0 & Hr).
  destruct segs as [|x segs0] using rev_ind; [rewrite Hr in Hv; discriminate|].
  clear IHsegs0. rename segs0 into init. rename x into last.
  apply Forall_app in Hc. destruct Hc as [Hi Hl].
  inversion Hl as [|? ? Hl' _]; subst.
  apply Forall_app in Hshort. destruct Hshort as [Hsi Hsl].
  inversion Hsl as [|? ? Hsl' _]; subst.
  assert (Hnp : has_nul p = false).
  { rewrite has_nul_split, Hsplit. exact Hnul. }
  apply existsb_app_false in Hnul. destruct Hnul as [Hni _].
  assert (Hp : p = "/" ++ unsplit (init ++ [last])).
  { rewrite <- (unsplit_split p), Hsplit.
    rewrite unsplit_cons by (destruct init; discriminate). reflexivity. }
  assert (Hd : dirname p = "/" ++ unsplit init).
  { rewrite Hp. apply dirname_tidy; assumption. }
  assert (Hnd : has_nul (dirname p) = false).
  { rewrite Hd, has_nul_split.
    change ("/" ++ unsplit init) with (String "/"%char (unsplit init)).
    rewrite split_slash_cons. cbn [existsb has_nul list_ascii_of_string orb].
    destruct init as [|y init]; [reflexivity|].
    rewrite split_unsplit; [exact Hni|discriminate|].
    apply clean_all_no_sep. assumption. }
  destruct (mkdirp_vacant last init [] (root w) (root w) Hi Hsi eq_refl Hv)
    as (r1 & sz & es & Hm & Hg & Hv1).
  assert (Hmk : mkdirp (root w) [] (split (dirname p)) = (r1, None)).
  { rewrite Hd. change ("/" ++ unsplit init) with (String "/"%char (unsplit init)).
    rewrite split_slash_cons. cbn [mkdirp get]. rewrite Hr.
    cbn [String.eqb orb]. rewrite <- Hr.
    destruct init as [|y init].
    - cbn [unsplit String.concat split mkdirp get]. rewrite Hr.
      cbn [String.eqb orb]. rewrite <- Hr. simpl in Hm. exact Hm.
    - rewrite split_unsplit; [exact Hm|discriminate|].
      apply clean_all_no_sep. assumption. }
  exists (set_root r1 (record_call "mkdirSync" (dirname p) w)).
  destruct (create_vacant (set_root r1 (record_call "mkdirSync" (dirname p) w))
              p data init last sz es Ha Hsplit Hi Hl' Hsi Hsl' Hg Hv1)
    as (r' & Hcr).
  eexists. split.
  - rewrite mkdirSync_recursive_run by (try exact Hnd; rewrite Hd; reflexivity).
    assert (Hda : isAbsolute (dirname p) = true) by (rewrite Hd; reflexivity).
    unfold origin. rewrite Hda, Hmk. reflexivity.
  - rewrite writeFileSync_run, Hnp, Hcr. reflexivity.
Qed.

End VacantFacts.

(** ** Base64: decoding what was encoded *)

Module Base64Facts.
Import Base64.

Lemma all_bytes_complete b : In b all_bytes.
Proof.
  unfold all_bytes. apply in_flat_map. exists (Byte.to_nat b). split.
  - apply in_seq. pose proof (Byte.to_nat_bounded b). lia.
  - rewrite Byte.of_to_nat. left. reflexivity.
Qed.

Lemma for_all_bytes (P : byte -> bool) :
  forallb P all_bytes = true -> forall b, P b = true.
Proof.
  intros H b. rewrite forallb_forall in H. apply H, all_bytes_complete.
Qed.

Lemma for_all_byte_pairs (P : byte -> byte -> bool) :
  forallb (fun a => forallb (P a) all_bytes) all_bytes = true ->
  forall a b, P a b = true.
Proof.
  intros H a b.
  pose proof (for_all_bytes _ H a) as Ha. cbv beta in Ha.
  exact (for_all_bytes _ Ha b).
Qed.

Lemma sextets_char v rest :
  legal v = true -> sextets (char_of v rest) = v :: sextets rest.
Proof.
  unfold legal, char_of. intros H. cbn [sextets].
  apply andb_prop in H. destruct H as [_ H].
  destruct (unbase64 (base64_char v)) as [v'|]; [|discriminate].
  apply andb_prop in H. destruct H as [Hv Hc].
  apply negb_true_iff in Hc. rewrite Hc.
  apply N.eqb_eq in Hv. subst. reflexivity.
Qed.

(** A character below 128 is a code unit of its own. *)
Lemma low_bytes_char v rest :
  legal v = true -> low_bytes (char_of v rest) = char_of v (low_bytes rest).
Proof.
  unfold legal, char_of. intros H. apply andb_prop in H. destruct H as [H _].
  cbn [low_bytes]. cbv zeta. rewrite H. reflexivity.
Qed.

Lemma units_char v rest :
  legal v = true ->
  sextets (low_bytes (char_of v rest)) = v :: sextets (low_bytes rest).
Proof.
  intros H. rewrite low_bytes_char by exact H. apply sextets_char. exact H.
Qed.

Lemma legal_v1 a : legal (v1 a) = true.
Proof. revert a. apply for_all_bytes. vm_compute. reflexivity. Qed.

Lemma legal_v2 a b : legal (v2 a b) = true.
Proof. revert a b. apply for_all_byte_pairs. vm_compute. reflexivity. Qed.

Lemma legal_v3 b c : legal (v3 b c) = true.
Proof. revert b c. apply for_all_byte_pairs. vm_compute. reflexivity. Qed.

Lemma legal_v4 c : legal (v4 c) = true.
Proof. revert c. apply for_all_bytes. vm_compute. reflexivity. Qed.

Lemma legal_v2_last a : legal (v2_last a) = true.
Proof. revert a. apply for_all_bytes. vm_compute. reflexivity. Qed.

Lemma legal_v3_last b : legal (v3_last b) = true.
Proof. revert b. apply for_all_bytes. vm_compute. reflexivity. Qed.

Lemma byte1_v a b : byte1 (v1 a) (v2 a b) = a.
Proof.
  apply Byte.byte_dec_bl. revert a b.
  apply (for_all_byte_pairs (fun a b => Byte.eqb (byte1 (v1 a) (v2 a b)) a)).
  vm_compute. reflexivity.
Qed.

Lemma byte1_v_last a : byte1 (v1 a) (v2_last a) = a.
Proof.
  apply Byte.byte_dec_bl. revert a.
  apply (for_all_bytes (fun a => Byte.eqb (byte1 (v1 a) (v2_last a)) a)).
  vm_compute. reflexivity.
Qed.

(** The second byte takes only the low four bits of the second value,
    and those come from the second byte alone. *)
Lemma v2_low a b : N.land (v2 a b) 15 = N.shiftr (Byte.to_N b) 4.
Proof.
  apply N.eqb_eq. revert a b.
  apply (for_all_byte_pairs
           (fun a b => N.eqb (N.land (v2 a b) 15) (N.shiftr (Byte.to_N b) 4))).
  vm_compute. reflexivity.
Qed.

Lemma byte2_v a b c : byte2 (v2 a b) (v3 b c) = b.
Proof.
  unfold byte2. rewrite v2_low.
  apply Byte.byte_dec_bl. revert b c.
  apply (for_all_byte_pairs
           (fun b c => Byte.eqb
              (uint8 (N.lor (N.shiftl (N.shiftr (Byte.to_N b) 4) 4)
                            (N.shiftr (N.land (v3 b c) 60) 2))) b)).
  vm_compute. reflexivity.
Qed.

Lemma byte2_v_last a b : byte2 (v2 a b) (v3_last b) = b.
Proof.
  unfold byte2. rewrite v2_low.
  apply Byte.byte_dec_bl. revert b.
  apply (for_all_bytes
           (fun b => Byte.eqb
              (uint8 (N.lor (N.shiftl (N.shiftr (Byte.to_N b) 4) 4)
                            (N.shiftr (N.land (v3_last b) 60) 2))) b)).
  vm_compute. reflexivity.
Qed.

Lemma byte3_v b c : byte3 (v3 b c) (v4 c) = c.
Proof.
  apply Byte.byte_dec_bl. revert b c.
  apply (for_all_byte_pairs (fun b c => Byte.eqb (byte3 (v3 b c) (v4 c)) c)).
  vm_compute. reflexivity.
Qed.

(** Induction over a list three elements at a time. *)
Lemma list_ind3 {A} (P : list A -> Prop) :
  P [] -> (forall a, P [a]) -> (forall a b, P [a; b]) ->
  (forall a b c rest, P rest -> P (a :: b :: c :: rest)) ->
  forall l, P l.
Proof.
  intros H0 H1 H2 H3.
  assert (G : forall l, P l /\ (forall a, P (a :: l))
                        /\ (forall a b, P (a :: b :: l))).
  { induction l as [|x l (IH0 & IH1 & IH2)].
    - repeat split; auto.
    - repeat split; auto. }
  intros l. apply G.
Qed.

(** [Buffer.from(buffer.toString('base64'), 'base64')] gives the bytes
    of [buffer] back. *)
Lemma decode_encode bytes : decode (encode bytes) = bytes.
Proof.
  unfold decode. induction bytes as [|a|a b|a b c rest IH] using list_ind3.
  - reflexivity.
  - cbn [encode]. fold (v1 a) (v2_last a).
    rewrite !units_char by auto using legal_v1, legal_v2_last.
    change (sextets (low_bytes "==")) with (@nil N).
    cbn [bytes_of_sextets].
    rewrite byte1_v_last. reflexivity.
  - cbn [encode]. fold (v1 a) (v2 a b) (v3_last b).
    rewrite !units_char by auto using legal_v1, legal_v2, legal_v3_last.
    change (sextets (low_bytes "=")) with (@nil N).
    cbn [bytes_of_sextets].
    rewrite byte1_v, byte2_v_last. reflexivity.
  - cbn [encode]. fold (v1 a) (v2 a b) (v3 b c) (v4 c).
    rewrite !units_char by auto using legal_v1, legal_v2, legal_v3, legal_v4.
    cbn [bytes_of_sextets]. rewrite byte1_v, byte2_v, byte3_v.
    f_equal. f_equal. f_equal. exact IH.
Qed.

(** The decoder at work: it reads the low byte of every code unit
    (U+0141 counts as [A], U+0164 as [d]), passes over what is not in
    the alphabet, and stops at the first [=]. *)
Lemma decode_reads_low_bytes :
  decode "ŁŁŁŁ" = decode "AAAA"
  /\ length (decode "ŁŁŁŁ") = 3
  /\ decode "dGVzdA==" = ["t"; "e"; "s"; "t"]%byte
  /\ decode "ŤG Vz*dA" = ["t"; "e"; "s"; "t"]%byte
  /\ decode "dGVz=dA" = ["t"; "e"; "s"]%byte.
Proof. vm_compute. repeat split. Qed.





End Base64Facts.

(** ** The file operations *)

Module AgentFacts.
Import Js Fs Path PathFacts FsFacts WriteFacts VacantFacts Base64Facts Agent.
Local Open Scope prog_scope.

Lemma locate_nul w p : has_nul p = true -> locate w p = inl ENOENT.
Proof. unfold locate. intros ->. rewrite orb_true_r. reflexivity. Qed.





Lemma resolved_absolute R : resolved R = true -> isAbsolute R = true.
Proof. unfold resolved. intros H. apply andb_prop in H. tauto. Qed.










Lemma existsSync_run w p :
  existsSync p w
  = (Return (match locate w p with inr _ => true | inl _ => false end),
     record_call "existsSync" p w).
Proof.
  unfold existsSync, bind, called, ask.
  rewrite (locate_ext (record_call "existsSync" p w) w p) by reflexivity.
  destruct (has_nul p) eqn:Hn.
  - rewrite (locate_nul _ _ Hn). reflexivity.
  - destruct (locate w p); reflexivity.
Qed.

Lemma readFileSync_run w p :
  readFileSync p w
  = (if has_nul p then Throw (invalid_path p)
     else match locate w p with
          | inr (File content) => Return content
          | inr (Dir _ _) => Throw (SystemError EISDIR "read" None)
          | inl e => Throw (SystemError e "open" (Some p))
          end, record_call "readFileSync" p w).
Proof.
  unfold readFileSync, bind, called, ask.
  rewrite (locate_ext (record_call "readFileSync" p w) w p) by reflexivity.
  destruct (has_nul p); [reflexivity|].
  destruct (locate w p) as [e|[content|sz es]]; reflexivity.
Qed.

(** [readFile] past its guard, by what the path names. *)
Lemma readFile_run R params P w :
  destructure params "params" "filePath" = Return (VString P) ->
  startsWith (join [R; P]) R = true ->
  readFile R params w =
  match locate w (join [R; P]) with
  | inl _ =>
      (Throw (Error ("File not found: " ++ P)),
       record_call "existsSync" (join [R; P]) w)
  | inr (File content) =>
      (Return (FileData (Base64.encode content) (length content)),
       record_call "readFileSync" (join [R; P])
         (record_call "existsSync" (join [R; P]) w))
  | inr (Dir _ _) =>
      (Throw (SystemError EISDIR "read" None),
       record_call "readFileSync" (join [R; P])
         (record_call "existsSync" (join [R; P]) w))
  end.
Proof.
  intros Hp Hguard. unfold readFile. rewrite Hp.
  cbv beta iota delta [bind lift path_join].
  rewrite Hguard. cbn [negb]. rewrite existsSync_run.
  destruct (locate w (join [R; P])) as [e|n] eqn:Hloc; cbn [negb].
  - reflexivity.
  - rewrite readFileSync_run.
    rewrite (locate_ext _ w) by reflexivity.
    rewrite (locate_no_nul _ _ _ Hloc), Hloc.
    destruct n; reflexivity.
Qed.



Lemma destructure_total params name key key' v :
  destructure params name key = Return v ->
  exists v', destructure params name key' = Return v'.
Proof.
  destruct params; simpl; intros H; try discriminate; eauto.
Qed.

(** [writeFile] stops at its guard. *)
Lemma writeFile_denied R bfo params P w :
  destructure params "params" "filePath" = Return (VString P) ->
  startsWith (join [R; P]) R = false ->
  writeFile R bfo params w = (Throw access_denied, w).
Proof.
  intros Hp Hguard. unfold writeFile. rewrite Hp.
  destruct (destructure_total _ _ _ "data" _ Hp) as (d & ->).
  cbv beta iota delta [bind lift path_join]. rewrite Hguard. reflexivity.
Qed.

(** C2: when the path computed for a request fails the containment
    check, each of the three operations throws the access-denied error
    and leaves the world exactly as it was: the tree is the same and no
    call of the [fs] API has been recorded, the check coming before any
    of them. *)
Theorem access_denied_before_any_access
    (R : string) (bfo : value -> completion (list byte))
    (params : value) (P : string) (w : world) :
  startsWith (join [R; P]) R = false ->
  (or_else (optional_member params "subdir") (VString "") = VString P ->
   listFiles R params w = (Throw access_denied, w))
  /\ (destructure params "params" "filePath" = Return (VString P) ->
      readFile R params w = (Throw access_denied, w))
  /\ (destructure params "params" "filePath" = Return (VString P) ->
      writeFile R bfo params w = (Throw access_denied, w)).
Proof.
  intros Hguard. repeat split.
  - intros Hs. unfold listFiles. rewrite Hs.
    cbv beta iota delta [bind lift path_join]. rewrite Hguard. reflexivity.
  - intros Hp. unfold readFile. rewrite Hp.
    cbv beta iota delta [bind lift path_join]. rewrite Hguard. reflexivity.
  - intros Hp. apply (writeFile_denied R bfo params P w Hp Hguard).
Qed.

Lemma access_denied_before_any_access_witness :
  let params := VObject [("subdir", VString "../../etc");
                         ("filePath", VString "../../etc");
                         ("data", VString "AAAA")] in
  (VString "../../etc" = VString "../../etc" ->
   listFiles Scenario.cache params Scenario.world0
   = (Throw access_denied, Scenario.world0))
  /\ (Return (VString "../../etc") = Return (VString "../../etc") ->
      readFile Scenario.cache params Scenario.world0
      = (Throw access_denied, Scenario.world0))
  /\ (Return (VString "../../etc") = Return (VString "../../etc") ->
      writeFile Scenario.cache Scenario.empty_buffer params Scenario.world0
      = (Throw access_denied, Scenario.world0)).
Proof.
  exact (access_denied_before_any_access
           Scenario.cache Scenario.empty_buffer
           (VObject [("subdir", VString "../../etc");
                     ("filePath", VString "../../etc");
                     ("data", VString "AAAA")])
           "../../etc" Scenario.world0 eq_refl).
Defined.

(** [writeFile] past its guard, for a payload that is a string. *)
Lemma writeFile_run R bfo params P text w :
  destructure params "params" "filePath" = Return (VString P) ->
  destructure params "params" "data" = Return (VString text) ->
  startsWith (join [R; P]) R = true ->
  writeFile R bfo params w =
  match mkdirSync_recursive (dirname (join [R; P])) w with
  | (Return _, w1) =>
      match writeFileSync (join [R; P]) (Base64.decode text) w1 with
      | (Return _, w2) => (Return (Written (length (Base64.decode text))), w2)
      | (Throw e, w2) => (Throw e, w2)
      end
  | (Throw e, w1) => (Throw e, w1)
  end.
Proof.
  intros Hp Hd Hguard. unfold writeFile. rewrite Hp, Hd.
  cbv beta iota delta [bind lift path_join Buffer_from].
  rewrite Hguard. cbn [negb].
  destruct (mkdirSync_recursive _ w) as [[u|e] w1]; [|reflexivity].
  destruct (writeFileSync _ _ w1) as [[u'|e] w2]; reflexivity.
Qed.

Lemma writeFile_guarded R bfo params P w res w' :
  destructure params "params" "filePath" = Return (VString P) ->
  writeFile R bfo params w = (Return res, w') ->
  startsWith (join [R; P]) R = true.
Proof.
  intros Hp H. destruct (startsWith (join [R; P]) R) eqn:Hguard; [reflexivity|].
  rewrite (writeFile_denied R bfo params P w Hp Hguard) in H. discriminate.
Qed.

Lemma writeFile_written R bfo params P text w res w' :
  destructure params "params" "filePath" = Return (VString P) ->
  destructure params "params" "data" = Return (VString text) ->
  writeFile R bfo params w = (Return res, w') ->
  res = Written (length (Base64.decode text))
  /\ locate w' (join [R; P]) = inr (File (Base64.decode text)).
Proof.
  intros Hp Hd H.
  pose proof (writeFile_guarded _ _ _ _ _ _ _ Hp H) as Hguard.
  rewrite (writeFile_run R bfo params P text w Hp Hd Hguard) in H.
  destruct (mkdirSync_recursive _ w) as [[u|e] w1]; [|discriminate].
  destruct (writeFileSync _ _ w1) as [[[]|e] w2] eqn:Hw; [|discriminate].
  inversion H; subst. split; [reflexivity|].
  eapply writeFileSync_then_locate. eassumption.
Qed.

(** A [readFile] right after a [writeFile] that succeeded. *)
Lemma read_after_write R bfo params params' P bytes w res w' :
  destructure params "params" "filePath" = Return (VString P) ->
  destructure params "params" "data" = Return (VString (Base64.encode bytes)) ->
  destructure params' "params" "filePath" = Return (VString P) ->
  writeFile R bfo params w = (Return res, w') ->
  res = Written (length bytes)
  /\ exists text w'',
       readFile R params' w' = (Return (FileData text (length bytes)), w'')
       /\ Base64.decode text = bytes.
Proof.
  intros Hp Hd Hp' H.
  pose proof (writeFile_guarded _ _ _ _ _ _ _ Hp H) as Hguard.
  destruct (writeFile_written _ _ _ _ _ _ _ _ Hp Hd H) as [Hres Hloc].
  rewrite decode_encode in Hres, Hloc. split; [exact Hres|].
  exists (Base64.encode bytes). eexists.
  rewrite (readFile_run R params' P w' Hp' Hguard), Hloc.
  split; [reflexivity|apply decode_encode].
Qed.

(** [writeFile] succeeds at a vacant place, whatever the text. *)
Lemma writeFile_at_writable R bfo params P text w :
  resolved R = true ->
  destructure params "params" "filePath" = Return (VString P) ->
  destructure params "params" "data" = Return (VString text) ->
  startsWith (join [R; P]) R = true ->
  writable w (join [R; P]) = true ->
  exists w',
    writeFile R bfo params w
    = (Return (Written (length (Base64.decode text))), w').
Proof.
  intros HR Hp Hd Hguard Hcw.
  destruct (join_tidy R P (resolved_absolute R HR)) as (segs & Ht).
  destruct (write_at_vacant w (join [R; P]) (Base64.decode text) segs Ht Hcw)
    as (w1 & w2 & Hm & Hw).
  exists w2. rewrite (writeFile_run R bfo params P text w Hp Hd Hguard).
  rewrite Hm, Hw. reflexivity.
Qed.

Lemma writeFile_succeeds R bfo params P text w :
  resolved R = true ->
  destructure params "params" "filePath" = Return (VString P) ->
  destructure params "params" "data" = Return (VString text) ->
  startsWith (join [R; P]) R = true ->
  can_write w (join [R; P]) = true ->
  exists w',
    writeFile R bfo params w
    = (Return (Written (length (Base64.decode text))), w').
Proof.
  intros HR Hp Hd Hguard Hcw.
  exact (writeFile_at_writable R bfo params P text w HR Hp Hd Hguard
           (can_write_writable _ _ Hcw)).
Qed.

(** A failure of [writeFile] met with one text is met, with the same
    error and the same world left, with any other text. *)
Lemma writeFile_failure_ignores_payload
    R bfo params params' P text text' w e w' :
  destructure params "params" "filePath" = Return (VString P) ->
  destructure params "params" "data" = Return (VString text) ->
  destructure params' "params" "filePath" = Return (VString P) ->
  destructure params' "params" "data" = Return (VString text') ->
  writeFile R bfo params w = (Throw e, w') ->
  writeFile R bfo params' w = (Throw e, w').
Proof.
  intros Hp Hd Hp' Hd' H.
  destruct (startsWith (join [R; P]) R) eqn:Hguard.
  - rewrite (writeFile_run R bfo params P text w Hp Hd Hguard) in H.
    rewrite (writeFile_run R bfo params' P text' w Hp' Hd' Hguard).
    destruct (mkdirSync_recursive _ w) as [[u|e1] w1]; [|exact H].
    rewrite writeFileSync_run in *.
    destruct (has_nul (join [R; P])); [exact H|].
    destruct (create w1 (join [R; P]) (Base64.decode text)) as [e2|r] eqn:Hc;
      [|discriminate].
    rewrite (create_error_any_data _ _ _ (Base64.decode text') _ Hc).
    exact H.
  - rewrite (writeFile_denied R bfo params P w Hp Hguard) in H.
    rewrite (writeFile_denied R bfo params' P w Hp' Hguard). exact H.
Qed.

(** C3, as amended: for a path inside the root at which a file can be
    written (it does not end with a separator, names no directory, has
    no regular file among its ancestors, its names have no NUL byte and
    at most [NAME_MAX] bytes each, and it is shorter than [PATH_MAX])
    and for every byte sequence, [writeFile] of the base64 text of the
    bytes succeeds and reports their number, and a [readFile] of the
    same path right after it succeeds, with a text that decodes to the
    bytes and with their number as size. *)
Theorem write_then_read_round_trip
    (R : string) (bfo : value -> completion (list byte))
    (params params' : value) (P : string) (bytes : list byte) (w : world) :
  resolved R = true ->
  destructure params "params" "filePath" = Return (VString P) ->
  destructure params "params" "data" = Return (VString (Base64.encode bytes)) ->
  destructure params' "params" "filePath" = Return (VString P) ->
  startsWith (join [R; P]) R = true ->
  can_write w (join [R; P]) = true ->
  exists w' text w'',
    writeFile R bfo params w = (Return (Written (length bytes)), w')
    /\ readFile R params' w' = (Return (FileData text (length bytes)), w'')
    /\ Base64.decode text = bytes.
Proof.
  intros HR Hp Hd Hp' Hguard Hcw.
  destruct (writeFile_succeeds R bfo params P _ w HR Hp Hd Hguard Hcw)
    as (w' & Hw).
  destruct (read_after_write R bfo params params' P bytes w _ w' Hp Hd Hp' Hw)
    as (_ & text & w'' & Hr & Ht).
  rewrite decode_encode in Hw.
  exists w', text, w''. split; [exact Hw|]. split; [exact Hr|exact Ht].
Qed.

Lemma write_then_read_round_trip_witness :
  exists w' text w'',
    writeFile Scenario.cache Scenario.empty_buffer
      (VObject [("filePath", VString "new/dir/x.bin"); ("data", VString "/wA=")])
      Scenario.world0
    = (Return (Written (length ["255"%byte; "000"%byte])), w')
    /\ readFile Scenario.cache (VObject [("filePath", VString "new/dir/x.bin")]) w'
       = (Return (FileData text (length ["255"%byte; "000"%byte])), w'')
    /\ Base64.decode text = ["255"%byte; "000"%byte].
Proof.
  exact (write_then_read_round_trip
           Scenario.cache Scenario.empty_buffer
           (VObject [("filePath", VString "new/dir/x.bin");
                     ("data", VString "/wA=")])
           (VObject [("filePath", VString "new/dir/x.bin")])
           "new/dir/x.bin" ["255"%byte; "000"%byte] Scenario.world0
           eq_refl eq_refl eq_refl eq_refl eq_refl eq_refl).
Defined.

(** C3, as stated, fails: the empty path is inside the root (by the
    guard and by components alike), it names the root directory itself,
    and no write to it succeeds. *)
Lemma write_to_root_path_fails :
  ~ (forall (P : string) (bytes : list byte),
       startsWith (join [Scenario.cache; P]) Scenario.cache = true ->
       inside Scenario.cache (join [Scenario.cache; P]) = true ->
       exists res w',
         writeFile Scenario.cache Scenario.empty_buffer
           (VObject [("filePath", VString P);
                     ("data", VString (Base64.encode bytes))])
           Scenario.world0 = (Return res, w')).
Proof.
  intros H. destruct (H "" ["t"%byte] eq_refl eq_refl) as (res & w' & E).
  vm_compute in E. discriminate.
Qed.

(** C10, as amended: the text given as [data] never makes [writeFile]
    fail.  For a path inside the root at which a file can be written
    (as for C3) and for every string, valid base64 or not, the operation
    succeeds, the file then holds the bytes the lenient decoder gives
    for the string, and [written] is their number.  The decoder reads
    the low 8 bits of every code unit of the string, passes over a unit
    whose low byte is not a character of the alphabet, and stops at the
    first whose low byte is [=]. *)
Theorem writeFile_accepts_any_text
    (R : string) (bfo : value -> completion (list byte))
    (params : value) (P text : string) (w : world) :
  resolved R = true ->
  destructure params "params" "filePath" = Return (VString P) ->
  destructure params "params" "data" = Return (VString text) ->
  startsWith (join [R; P]) R = true ->
  can_write w (join [R; P]) = true ->
  exists w',
    writeFile R bfo params w
    = (Return (Written (length (Base64.decode text))), w')
    /\ locate w' (join [R; P]) = inr (File (Base64.decode text)).
Proof.
  intros HR Hp Hd Hguard Hcw.
  destruct (writeFile_succeeds R bfo params P text w HR Hp Hd Hguard Hcw)
    as (w' & Hw).
  exists w'. split; [exact Hw|].
  exact (proj2 (writeFile_written R bfo params P text w _ w' Hp Hd Hw)).
Qed.

Lemma writeFile_accepts_any_text_witness :
  exists w',
    writeFile Scenario.cache Scenario.empty_buffer
      (VObject [("filePath", VString "notes.txt");
                ("data", VString "ŤG Vz*dA=ZZ")])
      Scenario.world0
    = (Return (Written 4), w')
    /\ locate w' (join [Scenario.cache; "notes.txt"])
       = inr (File ["t"%byte; "e"%byte; "s"%byte; "t"%byte]).
Proof.
  exact (writeFile_accepts_any_text
           Scenario.cache Scenario.empty_buffer
           (VObject [("filePath", VString "notes.txt");
                     ("data", VString "ŤG Vz*dA=ZZ")])
           "notes.txt" "ŤG Vz*dA=ZZ" Scenario.world0
           eq_refl eq_refl eq_refl eq_refl eq_refl).
Defined.

(** C10, as stated, fails: a write to a path inside the root that names
    a directory does not succeed, with valid base64 or without. *)
Lemma write_to_directory_fails_for_any_text :
  ~ (forall (P text : string),
       startsWith (join [Scenario.cache; P]) Scenario.cache = true ->
       inside Scenario.cache (join [Scenario.cache; P]) = true ->
       exists res w',
         writeFile Scenario.cache Scenario.empty_buffer
           (VObject [("filePath", VString P); ("data", VString text)])
           Scenario.world0 = (Return res, w')).
Proof.
  intros H. destruct (H "b" "!!" eq_refl eq_refl) as (res & w' & E).
  vm_compute in E. discriminate.
Qed.

(** The rules on names at work: a write to a path with a NUL byte is
    refused by Node with a [TypeError], in [mkdirSync] when the byte is
    in the name of a directory and in [writeFileSync] when it is in the
    name of the file, and a write to a name of 256 bytes fails with
    [ENAMETOOLONG]; a name of 255 bytes is written. *)
Lemma names_that_cannot_be_written :
  let write P :=
    fst (writeFile Scenario.cache Scenario.empty_buffer
           (VObject [("filePath", VString P); ("data", VString "AAEC")])
           Scenario.world0) in
  (exists msg, write (String "x" (String Ascii.zero "y")) = Throw (TypeError msg))
  /\ (exists msg,
        write (String "d" (String Ascii.zero "/y")) = Throw (TypeError msg))
  /\ write (Scenario.long_name 256)
     = Throw (SystemError ENAMETOOLONG "open"
                (Some ("/a/b/" ++ Scenario.long_name 256)))
  /\ write (Scenario.long_name 256 ++ "/y")
     = Throw (SystemError ENAMETOOLONG "mkdir"
                (Some ("/a/b/" ++ Scenario.long_name 256)))
  /\ write (Scenario.long_name 255) = Return (Written 3)
  /\ can_write Scenario.world0
       (join [Scenario.cache; String "x" (String Ascii.zero "y")]) = false
  /\ can_write Scenario.world0
       (join [Scenario.cache; Scenario.long_name 256]) = false.
Proof.
  cbv zeta. split; [eexists; vm_compute; reflexivity|].
  split; [eexists; vm_compute; reflexivity|].
  vm_compute. repeat split.
Qed.

(** C1 on the code: the guard compares texts.  With the root [/a/b], the
    paths [../bc] and [../bc/secret] resolve into the sibling directory
    [/a/bc], which is not inside the root, yet passes the guard:
    [listFiles] lists the sibling, [readFile] returns the bytes of a
    file in it, and [writeFile] creates a file there. *)
Theorem sibling_directory_passes_guard :
  join [Scenario.cache; "../bc/secret"] = "/a/bc/secret"
  /\ inside Scenario.cache (join [Scenario.cache; "../bc/secret"]) = false
  /\ startsWith (join [Scenario.cache; "../bc/secret"]) Scenario.cache = true
  /\ fst (listFiles Scenario.cache (VObject [("subdir", VString "../bc")])
            Scenario.world0)
     = Return (Listing [{| name := "secret"; isDirectory := false; size := 3 |}])
  /\ fst (readFile Scenario.cache (VObject [("filePath", VString "../bc/secret")])
            Scenario.world0)
     = Return (FileData "a2V5" 3)
  /\ (let '(res, w') :=
        writeFile Scenario.cache Scenario.empty_buffer
          (VObject [("filePath", VString "../bc/planted");
                    ("data", VString "AA==")]) Scenario.world0 in
      res = Return (Written 1)
      /\ get ["a"; "bc"; "planted"] (root w') = Some (File ["000"%byte])).
Proof.
  vm_compute. repeat split.
Qed.

End AgentFacts.

(** ** The dispatcher and the connection manager *)

Module ConnectionFacts.
Import Js Fs Agent.
Local Open Scope prog_scope.

Lemma frames_ret {A} (a : A) : frames (ret a).
Proof. intros s. reflexivity. Qed.

Lemma frames_throw {A} e : frames (@throw state A e).
Proof. intros s. reflexivity. Qed.

Lemma frames_lift {A} (c : completion A) : frames (lift c).
Proof. intros s. reflexivity. Qed.

Lemma frames_bind {A B} (m : prog state A) (k : A -> prog state B) :
  frames m -> (forall a, frames (k a)) -> frames (bind m k).
Proof.
  intros Hm Hk s. unfold bind. specialize (Hm s).
  destruct (m s) as [[a|e] s']; simpl in *.
  - rewrite Hk. exact Hm.
  - exact Hm.
Qed.

Lemma frames_try_catch {A} (m : prog state A) (h : exn -> prog state A) :
  frames m -> (forall e, frames (h e)) -> frames (try_catch m h).
Proof.
  intros Hm Hh s. unfold try_catch. specialize (Hm s).
  destruct (m s) as [[a|e] s']; simpl in *.
  - exact Hm.
  - rewrite Hh. exact Hm.
Qed.

Lemma frames_detached (m : prog state unit) : frames m -> frames (detached m).
Proof.
  intros Hm s. unfold detached. specialize (Hm s).
  destruct (m s) as [[a|e] s']; exact Hm.
Qed.

Lemma frames_console_log text : frames (console_log text).
Proof. intros s. reflexivity. Qed.

Lemma frames_console_error text : frames (console_error text).
Proof. intros s. reflexivity. Qed.

Lemma frames_console_log_with format arg :
  frames (console_log_with format arg).
Proof.
  intros s. unfold console_log_with. destruct (format_check format arg); reflexivity.
Qed.

Lemma frames_console_error_with format arg :
  frames (console_error_with format arg).
Proof.
  intros s. unfold console_error_with. destruct (format_check format arg); reflexivity.
Qed.

Lemma frames_set_sessionToken v : frames (modify (set_sessionToken v)).
Proof. intros s. reflexivity. Qed.

Lemma frames_in_fs {A} (m : Fs.M A) : frames (in_fs m).
Proof. intros s. unfold in_fs. destruct (m (disk s)). reflexivity. Qed.

Lemma frames_send msg : frames (send msg).
Proof.
  intros s. unfold send. destruct (ws s); [|reflexivity].
  destruct (is_open s); reflexivity.
Qed.

Create HintDb frames.

#[local] Hint Resolve frames_ret frames_throw frames_lift frames_console_log
  frames_console_error frames_console_log_with frames_console_error_with
  frames_set_sessionToken frames_in_fs frames_send
  : frames.

Ltac frame :=
  repeat first
    [ apply frames_bind; [|intros ?]
    | apply frames_try_catch; [|intros ?]
    | apply frames_detached
    | solve [auto with frames]
    | match goal with
      | |- frames (if ?b then _ else _) => destruct b
      end ].

Lemma frames_dispatch R bfo action params :
  frames (dispatch R bfo action params).
Proof. unfold dispatch. frame. Qed.

#[local] Hint Resolve frames_dispatch : frames.

Lemma frames_handleRequest R bfo msg : frames (handleRequest R bfo msg).
Proof. unfold handleRequest. frame. Qed.

Lemma frames_handleMessage R bfo msg : frames (handleMessage R bfo msg).
Proof. unfold handleMessage. frame. Qed.

Lemma frames_on_message R parse bfo payload :
  frames (on_message R parse bfo payload).
Proof. unfold on_message. frame. Qed.

Lemma conn_run (m : prog state unit) s : frames m -> conn (run m s) = conn s.
Proof.
  intros Hm. unfold run. specialize (Hm s).
  destruct (m s) as [[a|e] s']; exact Hm.
Qed.

Lemma steady_conn s s' : conn s' = conn s -> steady s -> steady s'.
Proof.
  unfold conn, steady, live_sockets. intros H. inversion H as [[H1 H2 H3 H4 H5]].
  rewrite H1, H2, H3, H4. tauto.
Qed.

Lemma nth_error_set_nth {A} (l : list A) : forall i j x,
  nth_error (set_nth i x l) j
  = if (i =? j)%nat then
      match nth_error l j with
      | Some _ => Some x
      | None => None
      end
    else nth_error l j.
Proof.
  induction l as [|y l IH]; intros i j x.
  - destruct i, j; simpl; try reflexivity. destruct (i =? j)%nat; reflexivity.
  - destruct i as [|i], j as [|j]; simpl; try reflexivity. apply IH.
Qed.

Lemma no_live_socket l j r :
  length (filter live l) = 0 -> nth_error l j = Some r -> live r = false.
Proof.
  revert j. induction l as [|x l IH]; intros j Hl Hn; [destruct j; discriminate|].
  simpl in Hl. destruct (live x) eqn:Hx; [discriminate|].
  destruct j as [|j]; simpl in Hn.
  - inversion Hn; subst. exact Hx.
  - eapply IH; eassumption.
Qed.

Lemma frames_on_open R cf random : frames (on_open R cf random).
Proof. unfold on_open. frame. Qed.

Lemma frames_on_error msg : frames (on_error msg).
Proof. unfold on_error. frame. Qed.

Lemma live_set_nth_same l : forall i r r',
  nth_error l i = Some r -> live r' = live r ->
  length (filter live (set_nth i r' l)) = length (filter live l).
Proof.
  induction l as [|x l IH]; intros i r r' Hn Hl; [destruct i; discriminate|].
  destruct i as [|i]; simpl in *.
  - inversion Hn; subst. rewrite Hl. destruct (live r); reflexivity.
  - destruct (live x); simpl; erewrite IH; eauto.
Qed.

Lemma live_set_nth_closed l : forall i r,
  nth_error l i = Some r -> live r = true ->
  S (length (filter live (set_nth i CLOSED l))) = length (filter live l).
Proof.
  induction l as [|x l IH]; intros i r Hn Hl; [destruct i; discriminate|].
  destruct i as [|i]; simpl in *.
  - inversion Hn; subst. rewrite Hl. reflexivity.
  - destruct (live x); simpl; erewrite <- IH; eauto.
Qed.

(** What the [close] handler does to each part of the state. *)
Lemma on_close_fields s :
  fst (on_close s) = Return tt
  /\ sessionToken (snd (on_close s)) = VNull
  /\ timers (snd (on_close s))
     = match reconnectTimeout s with
       | None => (timers s ++ [(timer_count s, RECONNECT_DELAY)])%list
       | Some _ => timers s
       end
  /\ reconnectTimeout (snd (on_close s))
     = match reconnectTimeout s with
       | None => Some (timer_count s)
       | Some t => Some t
       end
  /\ sockets (snd (on_close s)) = sockets s
  /\ sent (snd (on_close s)) = sent s
  /\ uncaught (snd (on_close s)) = uncaught s.
Proof.
  destruct s as [w0 tok [t|] socks tms tc snt con unc dsk];
    cbv; repeat split.
Qed.

Lemma run_on_close_fields s :
  sessionToken (run on_close s) = VNull
  /\ timers (run on_close s)
     = match reconnectTimeout s with
       | None => (timers s ++ [(timer_count s, RECONNECT_DELAY)])%list
       | Some _ => timers s
       end
  /\ reconnectTimeout (run on_close s)
     = match reconnectTimeout s with
       | None => Some (timer_count s)
       | Some t => Some t
       end
  /\ sockets (run on_close s) = sockets s
  /\ sent (run on_close s) = sent s
  /\ uncaught (run on_close s) = uncaught s.
Proof.
  destruct (on_close_fields s) as (H0 & H). unfold run.
  destruct (on_close s) as [[u|e] s']; [exact H|discriminate].
Qed.

Lemma run_reconnect_callback_fields s :
  reconnectTimeout (run reconnect_callback s) = None
  /\ timers (run reconnect_callback s) = timers s
  /\ sockets (run reconnect_callback s) = (sockets s ++ [CONNECTING])%list
  /\ ws (run reconnect_callback s) = Some (length (sockets s)).
Proof.
  destruct s as [w0 tok rt socks tms tc snt con unc dsk]. repeat split.
Qed.

Lemma step_steady R cf parse bfo ev s :
  steady s -> steady (step R cf parse bfo ev s).
Proof.
  intros Hs. unfold step. destruct (alive s); [|exact Hs]. cbn [negb].
  destruct ev as [i random|i payload|i|i msg|t].
  - destruct (nth_error (sockets s) i) as [[| | |]|] eqn:Hn; try exact Hs.
    eapply steady_conn; [apply conn_run, frames_on_open|].
    destruct Hs as (H1 & H2 & H3). split; [exact H1|]. split.
    + unfold live_sockets, set_readyState in *. cbn [sockets set_sockets timers].
      erewrite live_set_nth_same; eauto.
    + intros j r. cbn [set_readyState set_sockets sockets ws].
      rewrite nth_error_set_nth. destruct (Nat.eqb_spec i j) as [->|Hij].
      * intros _ _. eapply H3; [exact Hn|reflexivity].
      * apply H3.
  - destruct (nth_error (sockets s) i) as [[| | |]|]; try exact Hs.
    eapply steady_conn; [apply conn_run, frames_on_message|exact Hs].
  - destruct (nth_error (sockets s) i) as [r|] eqn:Hn; [|exact Hs].
    assert (Hclose : live r = true -> steady (run on_close (set_readyState i CLOSED s))).
    { intros Hl. destruct Hs as (H1 & H2 & H3).
      pose proof (live_set_nth_closed _ _ _ Hn Hl) as Hc.
      unfold live_sockets in *.
      assert (Ht : timers s = []).
      { destruct (timers s); [reflexivity|]. simpl in H2. lia. }
      assert (Hr : reconnectTimeout s = None).
      { destruct (reconnectTimeout s); [|reflexivity]. rewrite Ht in H1. discriminate. }
      destruct (run_on_close_fields (set_readyState i CLOSED s))
        as (_ & Htm & Hrt & Hso & _).
      cbn [set_readyState set_sockets reconnectTimeout timers timer_count sockets]
        in Htm, Hrt, Hso.
      rewrite Hr, Ht in *. unfold steady, live_sockets.
      rewrite Htm, Hrt, Hso. split; [reflexivity|]. split.
      - simpl in *. lia.
      - intros j r0 Hj Hl0. exfalso.
        assert (Hz : length (filter live (set_nth i CLOSED (sockets s))) = 0)
          by (simpl in *; lia).
        rewrite (no_live_socket _ _ _ Hz Hj) in Hl0. discriminate. }
    destruct r; try (apply Hclose; reflexivity). exact Hs.
  - destruct (nth_error (sockets s) i); [|exact Hs].
    eapply steady_conn; [apply conn_run, frames_on_error|exact Hs].
  - destruct (armed t s) eqn:Harmed; [|exact Hs].
    destruct Hs as (H1 & H2 & H3). unfold armed in Harmed.
    destruct (run_reconnect_callback_fields (disarm t s)) as (Hrt & Htm & Hso & Hws).
    cbn [disarm set_timers timers sockets] in Htm, Hso, Hws.
    unfold steady, live_sockets in *. rewrite Hrt, Htm, Hso, Hws.
    destruct (reconnectTimeout s) as [t0|]; rewrite H1 in *; [|discriminate].
    simpl in Harmed. rewrite orb_false_r in Harmed.
    cbn [filter fst]. rewrite Harmed. cbn [negb].
    split; [reflexivity|]. split.
    + rewrite filter_app, length_app. simpl in *. lia.
    + intros j r Hj Hl.
      assert (Hz : length (filter live (sockets s)) = 0) by (simpl in *; lia).
      destruct (Nat.lt_ge_cases j (length (sockets s))) as [Hlt|Hge].
      * rewrite nth_error_app1 in Hj by assumption.
        rewrite (no_live_socket _ _ _ Hz Hj) in Hl. discriminate.
      * rewrite nth_error_app2 in Hj by assumption.
        destruct (j - length (sockets s)) as [|k] eqn:Hk; simpl in Hj.
        -- f_equal. lia.
        -- destruct k; discriminate.
Qed.

Lemma boot_steady w : steady (boot w).
Proof.
  split; [reflexivity|]. split; [reflexivity|].
  intros [|[|j]] r; simpl; intros H Hl; try discriminate. reflexivity.
Qed.

Lemma run_events_steady R cf parse bfo evs : forall s,
  steady s -> steady (run_events R cf parse bfo evs s).
Proof.
  induction evs as [|ev evs IH]; intros s Hs; [exact Hs|].
  apply IH, step_steady, Hs.
Qed.

(** C9: the [close] handler clears the session token and arms a timer of
    5000 ms exactly when [reconnectTimeout] is not set; in every state
    the agent reaches from its start, whatever the events, at most one
    timer is armed, it is the one [reconnectTimeout] names, its delay is
    5000 ms, and it is armed only while no socket is connecting or open;
    the close of a socket in such a state clears the token and arms the
    timer, and the expiry of the timer disarms it and opens one new
    socket. *)
Theorem one_reconnect_timer_at_most
    (R : string) (cf : list string)
    (parse : string -> completion value)
    (bfo : value -> completion (list byte)) :
  (forall s,
     sessionToken (snd (on_close s)) = VNull
     /\ timers (snd (on_close s))
        = match reconnectTimeout s with
          | None => (timers s ++ [(timer_count s, 5000)])%list
          | Some _ => timers s
          end)
  /\ (forall evs w,
        let s := run_events R cf parse bfo evs (boot w) in
        length (timers s) <= 1
        /\ live_sockets s + length (timers s) = 1
        /\ timers s = match reconnectTimeout s with
                      | Some t => [(t, 5000)]
                      | None => []
                      end)
  /\ (forall evs w i r,
        let s := run_events R cf parse bfo evs (boot w) in
        alive s = true -> nth_error (sockets s) i = Some r -> live r = true ->
        let s' := step R cf parse bfo (SocketClose i) s in
        sessionToken s' = VNull /\ timers s' = [(timer_count s, 5000)])
  /\ (forall evs w t,
        let s := run_events R cf parse bfo evs (boot w) in
        alive s = true -> armed t s = true ->
        let s' := step R cf parse bfo (TimerExpired t) s in
        timers s' = [] /\ reconnectTimeout s' = None
        /\ sockets s' = (sockets s ++ [CONNECTING])%list).
Proof.
  split; [|split; [|split]].
  - intros s. destruct (on_close_fields s) as (_ & H1 & H2 & _). auto.
  - intros evs w s.
    destruct (run_events_steady R cf parse bfo evs (boot w) (boot_steady w))
      as (H1 & H2 & _).
    fold s in H1, H2. split; [lia|]. split; [exact H2|exact H1].
  - intros evs w i r s Halive Hn Hl s'.
    destruct (run_events_steady R cf parse bfo evs (boot w) (boot_steady w))
      as (H1 & H2 & _).
    fold s in H1, H2.
    assert (Hc := live_set_nth_closed _ _ _ Hn Hl).
    unfold live_sockets in H2.
    assert (Ht : timers s = []).
    { destruct (timers s); [reflexivity|]. simpl in H2. lia. }
    assert (Hr : reconnectTimeout s = None).
    { destruct (reconnectTimeout s); [|reflexivity]. rewrite Ht in H1. discriminate. }
    subst s'. unfold step. rewrite Halive, Hn. cbn [negb].
    destruct (run_on_close_fields (set_readyState i CLOSED s))
      as (Htok & Htm & _).
    cbn [set_readyState set_sockets reconnectTimeout timers timer_count] in Htm.
    rewrite Hr, Ht in Htm.
    destruct r; try discriminate; split; assumption.
  - intros evs w t s Halive Harmed s'.
    destruct (run_events_steady R cf parse bfo evs (boot w) (boot_steady w))
      as (H1 & _ & _).
    fold s in H1. subst s'. unfold step. rewrite Halive, Harmed. cbn [negb].
    destruct (run_reconnect_callback_fields (disarm t s)) as (Hrt & Htm & Hso & _).
    cbn [disarm set_timers timers sockets] in Htm, Hso.
    rewrite Htm, Hrt, Hso. unfold armed in Harmed.
    destruct (reconnectTimeout s) as [t0|]; rewrite H1 in *; [|discriminate].
    simpl in Harmed. rewrite orb_false_r in Harmed.
    cbn [filter fst]. rewrite Harmed. repeat split.
Qed.

(** C8: a payload that [JSON.parse] rejects, or that parses to [null]
    (the read of its [type] then throws), is reported on the console and
    dropped: the handler returns normally, nothing is sent, no exception
    is left uncaught, the session and the disk are as before; the same
    holds for the event as a whole, after which the agent is still
    alive. *)
Theorem unparsable_payload_is_dropped
    (R : string) (cf : list string)
    (parse : string -> completion value)
    (bfo : value -> completion (list byte))
    (payload : string) (s : state) :
  (exists e, parse payload = Throw e) \/ parse payload = Return VNull ->
  on_message R parse bfo payload s
  = (Return tt,
     set_console (console s ++ [("error", "Failed to parse message:")])%list s)
  /\ (forall i,
        let s' := step R cf parse bfo (SocketMessage i payload) s in
        sent s' = sent s /\ uncaught s' = uncaught s /\ alive s' = alive s
        /\ disk s' = disk s /\ sessionToken s' = sessionToken s).
Proof.
  intros Hp.
  assert (E : on_message R parse bfo payload s
              = (Return tt,
                 set_console (console s ++ [("error", "Failed to parse message:")])%list s)).
  { unfold on_message, try_catch, bind, lift.
    destruct Hp as [(e & ->) | ->]; reflexivity. }
  split; [exact E|].
  intros i s'. subst s'. unfold step.
  destruct (alive s) eqn:Ha; cbn [negb]; [|rewrite Ha; repeat split].
  destruct (nth_error (sockets s) i) as [[| | |]|]; try (rewrite Ha; repeat split).
  unfold run. rewrite E. repeat split. exact Ha.
Qed.

Lemma unparsable_payload_is_dropped_witness :
  on_message Scenario.cache Scenario.parse_nothing Scenario.empty_buffer
             "{not json" Scenario.ready
  = (Return tt,
     set_console (console Scenario.ready
                  ++ [("error", "Failed to parse message:")])%list Scenario.ready)
  /\ (forall i,
        let s' := step Scenario.cache ["a.txt"; "b"] Scenario.parse_nothing
                       Scenario.empty_buffer (SocketMessage i "{not json")
                       Scenario.ready in
        sent s' = sent Scenario.ready /\ uncaught s' = uncaught Scenario.ready
        /\ alive s' = alive Scenario.ready
        /\ disk s' = disk Scenario.ready
        /\ sessionToken s' = sessionToken Scenario.ready).
Proof.
  exact (unparsable_payload_is_dropped
           Scenario.cache ["a.txt"; "b"] Scenario.parse_nothing
           Scenario.empty_buffer "{not json" Scenario.ready
           (or_introl
              (ex_intro _ (SyntaxError "Unexpected token in JSON: {not json")
                        eq_refl))).
Defined.

(** The operations touch the disk only. *)
Lemma dispatch_quiet R bfo action params s :
  conn (snd (dispatch R bfo action params s)) = conn s
  /\ sent (snd (dispatch R bfo action params s)) = sent s
  /\ uncaught (snd (dispatch R bfo action params s)) = uncaught s.
Proof.
  unfold dispatch.
  repeat match goal with
         | |- context [if ?b then _ else _] => destruct b
         end;
    try (unfold in_fs;
         match goal with
         | |- context [let '(_, _) := ?m in _] => destruct m
         end; repeat split; reflexivity).
  unfold bind, lift, throw. destruct (to_string action); repeat split; reflexivity.
Qed.


Lemma send_open msg s i :
  ws s = Some i -> is_open s = true ->
  send msg s = (Return tt, set_sent (sent s ++ [(i, msg)])%list s).
Proof. intros Hw Ho. unfold send. rewrite Hw, Ho. reflexivity. Qed.

Lemma is_open_conn s s' : conn s' = conn s -> is_open s' = is_open s.
Proof.
  unfold conn, is_open. intros H. inversion H as [[H1 H2 H3 H4 H5]].
  rewrite H1, H3. reflexivity.
Qed.

(** A text without a percent sign has no placeholder. *)
Lemma placeholder_none format :
  includes "%" format = false -> placeholder format = None.
Proof.
  induction format as [|c rest IH]; [reflexivity|].
  cbn [includes]. intros H. apply orb_false_elim in H. destruct H as [Hc Hrest].
  cbn [placeholder]. destruct (Ascii.eqb c "%") eqn:E.
  - apply Ascii.eqb_eq in E. subst c. destruct rest; discriminate Hc.
  - exact (IH Hrest).
Qed.

(** The line printed for a request: it is formatted without an
    exception when the text of the action has no percent sign, and when
    [params] has a conversion to a string. *)
Lemma request_line_prints text params :
  includes "%" text = false \/ (exists ptext, to_string params = Return ptext) ->
  format_check ("📥 Request: " ++ text) (or_else params (VString "")) = Return tt.
Proof.
  intros [H | (ptext & H)]; unfold format_check.
  - assert (E : placeholder ("📥 Request: " ++ text) = None)
      by (apply placeholder_none; exact H).
    rewrite E. reflexivity.
  - assert (E : exists t, to_string (or_else params (VString "")) = Return t).
    { unfold or_else. destruct (truthy params); [eauto|].
      exists EmptyString. reflexivity. }
    destruct E as (t & ->).
    destruct (placeholder _); [|reflexivity].
    destruct (converts _); reflexivity.
Qed.

Lemma console_log_with_prints format arg s :
  format_check format arg = Return tt ->
  console_log_with format arg s = console_log format s.
Proof. unfold console_log_with. intros ->. reflexivity. Qed.

Lemma console_error_with_string format msg s :
  console_error_with format (VString msg) s = console_error format s.
Proof.
  unfold console_error_with, format_check.
  destruct (placeholder format); [|reflexivity].
  destruct (converts _); reflexivity.
Qed.



(** C7 on the code: the first [console.log] of [handleRequest] converts
    [action] to a string before the [try] block is entered.  For the
    request whose [action] is the object [{ toString: 1 }] the conversion
    throws: the promise is rejected, no response is sent although the
    socket is open, and the rejection is left unhandled. *)
Theorem unprintable_action_gets_no_response :
  is_open Scenario.ready = true
  /\ handleRequest Scenario.cache Scenario.empty_buffer
       Scenario.unprintable_request Scenario.ready
     = (Throw (TypeError "Cannot convert object to primitive value"),
        Scenario.ready)
  /\ (let s' := snd (handleMessage Scenario.cache Scenario.empty_buffer
                       Scenario.unprintable_request Scenario.ready) in
      sent s' = sent Scenario.ready
      /\ uncaught s' = [TypeError "Cannot convert object to primitive value"]
      /\ alive s' = false).
Proof.
  vm_compute. repeat split.
Qed.

(** The same line is formatted before it is printed.  For the request
    whose [action] is the string [%d] and whose [params] is the object
    [{ toString: 1 }], the placeholder converts [params] to a number,
    which throws before the [try] block is entered: no response is sent
    and the rejection is left unhandled.  With the placeholder [%s], or
    with [%d] and parameters that do convert, the request is answered. *)
Lemma unformattable_request_gets_no_response :
  let request action params :=
    VObject [("type", VString "request"); ("requestId", VString "r2");
             ("action", VString action); ("params", params)] in
  let after action params :=
    snd (handleMessage Scenario.cache Scenario.empty_buffer
           (request action params) Scenario.ready) in
  handleRequest Scenario.cache Scenario.empty_buffer
    (request "%d" (VObject [("toString", VNumber "1")])) Scenario.ready
  = (Throw (TypeError "Cannot convert object to primitive value"),
     Scenario.ready)
  /\ sent (after "%d" (VObject [("toString", VNumber "1")]))
     = sent Scenario.ready
  /\ alive (after "%d" (VObject [("toString", VNumber "1")])) = false
  /\ length (sent (after "%s" (VObject [("toString", VNumber "1")])))
     = S (length (sent Scenario.ready))
  /\ length (sent (after "%d" (VObject [("subdir", VString "b")])))
     = S (length (sent Scenario.ready))
  /\ length (sent (after "100%" (VObject [("toString", VNumber "1")])))
     = S (length (sent Scenario.ready)).
Proof. vm_compute. repeat split. Qed.

End ConnectionFacts.

(** ** The path guard: what it lets through *)

Module GuardFacts.
Import Path PathFacts VacantFacts.

Lemma prefix_app a b : String.prefix a (a ++ b) = true.
Proof.
  induction a as [|c a IH]; simpl; [destruct b; reflexivity|].
  destruct (ascii_dec c c); [exact IH|congruence].
Qed.

Lemma prefix_refl a : String.prefix a a = true.
Proof.
  pose proof (prefix_app a "") as H. rewrite string_app_nil_r in H. exact H.
Qed.

Lemma prefix_empty a : String.prefix a "" = true -> a = "".
Proof. destruct a; [reflexivity|discriminate]. Qed.

Lemma prefix_cons c a d b :
  String.prefix (String c a) (String d b) = true ->
  c = d /\ String.prefix a b = true.
Proof. simpl. destruct (ascii_dec c d); [auto|discriminate]. Qed.

Lemma unsplit_app a b :
  a <> [] -> b <> [] -> unsplit (a ++ b) = unsplit a ++ "/" ++ unsplit b.
Proof.
  intros Ha Hb. induction a as [|x a IH]; [congruence|].
  destruct a as [|y a].
  - cbn [app]. rewrite unsplit_cons by exact Hb. reflexivity.
  - change ((x :: y :: a) ++ b)%list with (x :: ((y :: a) ++ b))%list.
    rewrite unsplit_cons by discriminate.
    rewrite IH by discriminate.
    rewrite (unsplit_cons x (y :: a)) by discriminate.
    rewrite !string_app_assoc. reflexivity.
Qed.

Lemma clean_app a b :
  Forall (fun x => clean x = true) a -> Forall (fun x => clean x = true) b ->
  Forall (fun x => clean x = true) (a ++ b).
Proof. intros Ha Hb. apply Forall_app. split; assumption. Qed.

Lemma clean_calm segs :
  Forall (fun x => clean x = true) segs -> Forall calm segs.
Proof. intros H. eapply Forall_impl; [|exact H]. intros x Hx. right. exact Hx. Qed.

(** The segments of an absolute path written from clean names. *)
Lemma split_abs_unsplit segs :
  Forall (fun x => clean x = true) segs ->
  filter nonempty (split ("/" ++ unsplit segs)) = segs
  /\ normalize_segments false (split ("/" ++ unsplit segs)) = segs.
Proof.
  intros Hc.
  change ("/" ++ unsplit segs) with (String "/"%char (unsplit segs)).
  rewrite split_slash_cons.
  assert (Hs : filter nonempty ("" :: split (unsplit segs)) = segs).
  { destruct segs as [|x segs]; [reflexivity|].
    rewrite split_unsplit; [|discriminate|apply clean_all_no_sep; exact Hc].
    change (filter nonempty (x :: segs) = x :: segs).
    apply filter_nonempty_clean. exact Hc. }
  split; [exact Hs|].
  rewrite normalize_segments_calm; [exact Hs|].
  constructor; [left; reflexivity|].
  destruct segs as [|x segs].
  - cbn. constructor; [left; reflexivity|constructor].
  - rewrite split_unsplit; [|discriminate|apply clean_all_no_sep; exact Hc].
    apply clean_calm. exact Hc.
Qed.

Lemma endsWithSep_slash p : p <> "" -> endsWithSep (String "/"%char p) = endsWithSep p.
Proof. destruct p; [congruence|reflexivity]. Qed.

(** [path.join] of a resolved root and a path written from clean names
    appends the names to the root. *)
Lemma join_plain R names :
  resolved R = true -> Forall (fun x => clean x = true) names ->
  join [R; unsplit names]
  = "/" ++ unsplit (normalize_segments false (split R) ++ names).
Proof.
  intros HR Hn.
  destruct (resolved_tidy R HR) as (Ht & HRe).
  set (rsegs := normalize_segments false (split R)) in *.
  pose proof Ht as (Habs & Hrc & _).
  destruct names as [|n names].
  - cbn [unsplit String.concat]. rewrite join_resolved_empty by exact HR.
    rewrite app_nil_r. exact HRe.
  - set (P := unsplit (n :: names)).
    assert (HP : P <> "").
    { intros E. apply unsplit_clean_empty in E; [discriminate|exact Hn]. }
    rewrite join_two by exact Habs.
    assert (HPn : nonempty P = true).
    { unfold nonempty. destruct P; [congruence|reflexivity]. }
    rewrite HPn.
    rewrite normalize_abs_eq by (apply isAbsolute_app; exact Habs).
    rewrite split_app_sep.
    assert (Hsegs : normalize_segments false (split R ++ split P)
                    = (rsegs ++ n :: names)%list).
    { unfold P. rewrite split_unsplit;
        [|discriminate|apply clean_all_no_sep; exact Hn].
      rewrite normalize_segments_calm.
      - rewrite filter_app. rewrite (tidy_filter R rsegs Ht).
        rewrite filter_nonempty_clean by exact Hn. reflexivity.
      - apply Forall_app. split; [exact (tidy_calm R rsegs Ht)|].
        apply clean_calm. exact Hn. }
    rewrite Hsegs.
    assert (Hne : (unsplit (rsegs ++ n :: names) =? "") = false).
    { apply String.eqb_neq. intros E.
      apply unsplit_clean_empty in E.
      - destruct rsegs; discriminate.
      - apply clean_app; assumption. }
    rewrite Hne.
    rewrite endsWithSep_app by discriminate.
    change ("/" ++ P) with (String "/"%char P).
    rewrite endsWithSep_slash by exact HP.
    unfold P. rewrite endsWithSep_unsplit by exact Hn.
    rewrite string_app_nil_r. reflexivity.
Qed.

Lemma resolved_absolute_path R : resolved R = true -> isAbsolute R = true.
Proof. unfold resolved. intros H. apply andb_prop in H. tauto. Qed.

Lemma leads_app a b : leads a (a ++ b) = true.
Proof.
  induction a as [|x a IH]; [reflexivity|].
  cbn [leads app]. rewrite String.eqb_refl. exact IH.
Qed.

Lemma resolved_segments R :
  resolved R = true ->
  segments R = normalize_segments false (split R)
  /\ Forall (fun x => clean x = true) (segments R)
  /\ R = "/" ++ unsplit (segments R).
Proof.
  intros HR. destruct (resolved_tidy R HR) as (Ht & HRe).
  unfold segments. rewrite (tidy_filter _ _ Ht).
  split; [reflexivity|]. split; [|exact HRe].
  destruct Ht as (_ & Hc & _). exact Hc.
Qed.

(** A path written from clean names passes the guard. *)
Lemma plain_path_passes R names :
  resolved R = true -> Forall (fun x => clean x = true) names ->
  startsWith (join [R; unsplit names]) R = true.
Proof.
  intros HR Hc.
  destruct (resolved_segments R HR) as (Hs & Hrc & HRe).
  rewrite join_plain by assumption.
  remember (segments R) as rs eqn:Ers. rewrite <- Hs.
  unfold startsWith. rewrite HRe.
  destruct names as [|n names]; [rewrite app_nil_r; apply prefix_refl|].
  destruct rs as [|r rs].
  - cbn [app]. apply (prefix_app "/").
  - rewrite unsplit_app by discriminate.
    rewrite <- string_app_assoc. apply prefix_app.
Qed.

(** A path written from plain names (no empty, [.] or [..] segment) is
    never refused: joined to a resolved root it passes the [startsWith]
    test of the three file operations, and names the place reached from
    the root by those names, which lies inside the root. *)
Theorem guard_accepts_plain_paths (R : string) (names : list string) :
  resolved R = true -> forallb clean names = true ->
  startsWith (join [R; unsplit names]) R = true
  /\ inside R (join [R; unsplit names]) = true
  /\ segments (join [R; unsplit names]) = (segments R ++ names)%list.
Proof.
  intros HR Hn.
  assert (Hc : Forall (fun x => clean x = true) names)
    by (apply Forall_forall; apply forallb_forall; exact Hn).
  split; [exact (plain_path_passes R names HR Hc)|].
  destruct (resolved_segments R HR) as (Hs & Hrc & HRe).
  rewrite join_plain by assumption.
  remember (segments R) as rs eqn:Ers. rewrite <- Hs.
  assert (Hall : Forall (fun x => clean x = true) (rs ++ names))
    by (apply clean_app; assumption).
  destruct (split_abs_unsplit _ Hall) as (Hf & Hnorm).
  split.
  - unfold inside. rewrite Hnorm, <- Hs. apply leads_app.
  - unfold segments. exact Hf.
Qed.

Lemma guard_accepts_plain_paths_witness :
  startsWith (join [Scenario.cache; unsplit ["new"; "dir"; "x.bin"]]) Scenario.cache = true
  /\ inside Scenario.cache (join [Scenario.cache; unsplit ["new"; "dir"; "x.bin"]]) = true
  /\ segments (join [Scenario.cache; unsplit ["new"; "dir"; "x.bin"]])
     = (segments Scenario.cache ++ ["new"; "dir"; "x.bin"])%list.
Proof.
  exact (guard_accepts_plain_paths Scenario.cache ["new"; "dir"; "x.bin"]
           eq_refl eq_refl).
Defined.

Lemma no_sep_head c s : no_sep (String c s) = true -> c <> "/"%char.
Proof.
  rewrite no_sep_cons. intros H E. subst c. discriminate.
Qed.

Lemma no_sep_tail c s : no_sep (String c s) = true -> no_sep s = true.
Proof.
  rewrite no_sep_cons. intros H. apply andb_prop in H. tauto.
Qed.

(** A name in front of a path can only be matched by the first segment
    of the path. *)
Lemma prefix_no_sep_cut r : forall t rest,
  no_sep r = true ->
  rest = "" \/ (exists u, rest = String "/"%char u) ->
  String.prefix r (t ++ rest) = true -> String.prefix r t = true.
Proof.
  induction r as [|c r IH]; intros t rest Hr Hrest Hp.
  - destruct t; reflexivity.
  - destruct t as [|d t].
    + cbn [append] in Hp. destruct Hrest as [->|[u ->]]; [discriminate|].
      apply prefix_cons in Hp. destruct Hp as [E _].
      exfalso. exact (no_sep_head _ _ Hr E).
    + change (String d t ++ rest) with (String d (t ++ rest)) in Hp.
      apply prefix_cons in Hp. destruct Hp as [E Hp]. subst d.
      simpl. destruct (ascii_dec c c); [|congruence].
      exact (IH t rest (no_sep_tail _ _ Hr) Hrest Hp).
Qed.

(** A name followed by a separator is matched by a whole segment. *)
Lemma prefix_sep_align r : forall t U rest,
  no_sep r = true -> no_sep t = true ->
  rest = "" \/ (exists u, rest = String "/"%char u) ->
  String.prefix (r ++ String "/"%char U) (t ++ rest) = true ->
  r = t /\ String.prefix (String "/"%char U) rest = true.
Proof.
  induction r as [|c r IH]; intros t U rest Hr Ht Hrest Hp.
  - cbn [append] in Hp. destruct t as [|d t].
    + split; [reflexivity|exact Hp].
    + change (String d t ++ rest) with (String d (t ++ rest)) in Hp.
      apply prefix_cons in Hp. destruct Hp as [E _].
      exfalso. symmetry in E. exact (no_sep_head _ _ Ht E).
  - change (String c r ++ String "/"%char U)
      with (String c (r ++ String "/"%char U)) in Hp.
    destruct t as [|d t].
    + cbn [append] in Hp. destruct Hrest as [->|[u ->]]; [discriminate|].
      apply prefix_cons in Hp. destruct Hp as [E _].
      exfalso. exact (no_sep_head _ _ Hr E).
    + change (String d t ++ rest) with (String d (t ++ rest)) in Hp.
      apply prefix_cons in Hp. destruct Hp as [E Hp]. subst d.
      destruct (IH t U rest (no_sep_tail _ _ Hr) (no_sep_tail _ _ Ht) Hrest Hp)
        as [-> H2].
      split; [reflexivity|exact H2].
Qed.

Lemma unsplit_tail t ts :
  exists rest, unsplit (t :: ts) = t ++ rest
               /\ (rest = "" \/ exists u, rest = String "/"%char u)
               /\ (ts <> [] -> rest = String "/"%char (unsplit ts)).
Proof.
  destruct ts as [|t2 ts].
  - exists "". cbn [unsplit String.concat]. rewrite string_app_nil_r.
    split; [reflexivity|]. split; [left; reflexivity|congruence].
  - exists (String "/"%char (unsplit (t2 :: ts))).
    split; [reflexivity|]. split; [right; eauto|reflexivity].
Qed.

(** When the text of one list of names leads the text of another, the
    names agree up to the last one of the first list, which leads the
    name at its place in the second. *)
Lemma prefix_unsplit rs : forall l,
  rs <> [] ->
  Forall (fun x => clean x = true) rs ->
  Forall (fun x => no_sep x = true) l ->
  String.prefix (unsplit rs) (unsplit l) = true ->
  exists x rest,
    l = (removelast rs ++ x :: rest)%list
    /\ String.prefix (last rs "") x = true.
Proof.
  induction rs as [|r rs IH]; intros l Hne Hc Hl Hp; [congruence|].
  inversion Hc as [|? ? Hr Hrs]; subst.
  destruct rs as [|r2 rs].
  - cbn [unsplit String.concat] in Hp. cbn [removelast last app].
    destruct l as [|t ts].
    + apply prefix_empty in Hp. subst r. discriminate.
    + destruct (unsplit_tail t ts) as (rest & E & Hrest & _). rewrite E in Hp.
      exists t, ts. split; [reflexivity|].
      exact (prefix_no_sep_cut r t rest (clean_no_sep _ Hr) Hrest Hp).
  - rewrite unsplit_cons in Hp by discriminate.
    change ("/" ++ unsplit (r2 :: rs)) with (String "/"%char (unsplit (r2 :: rs))) in Hp.
    destruct l as [|t ts].
    + apply prefix_empty in Hp. destruct r; discriminate.
    + inversion Hl as [|? ? Ht Hts]; subst.
      destruct (unsplit_tail t ts) as (rest & E & Hrest & Hcons). rewrite E in Hp.
      destruct (prefix_sep_align r t _ rest (clean_no_sep _ Hr) Ht Hrest Hp)
        as [-> H2].
      destruct ts as [|t2 ts].
      * destruct Hrest as [->|[u Eu]]; [discriminate|].
        specialize (Hcons).
        cbn [unsplit String.concat] in E.
        assert (rest = "").
        { clear -E. revert E. generalize rest. induction t as [|c t IHt]; intros rest0 E.
          - cbn [append] in E. symmetry. exact E.
          - cbn [append] in E. inversion E. auto. }
        subst rest. discriminate.
      * rewrite (Hcons ltac:(discriminate)) in H2.
        apply prefix_cons in H2. destruct H2 as [_ H2].
        destruct (IH (t2 :: ts) ltac:(discriminate) Hrs Hts H2)
          as (x & rest' & El & Hx).
        exists x, rest'. split.
        -- change (removelast (t :: r2 :: rs)) with (t :: removelast (r2 :: rs)).
           cbn [app]. rewrite El. reflexivity.
        -- exact Hx.
Qed.

(** The text of a tidy path. *)
Lemma tidy_text p segs :
  tidy p segs ->
  exists l, p = "/" ++ unsplit l
            /\ (l = segs \/ l = (segs ++ [""])%list)
            /\ Forall (fun x => no_sep x = true) l.
Proof.
  intros Ht. pose proof Ht as (Habs & Hc & Hsplit).
  pose proof (unsplit_split p) as E.
  assert (Hns : Forall (fun x => no_sep x = true) (segs ++ [""])).
  { apply Forall_app. split; [apply clean_all_no_sep; exact Hc|].
    constructor; [reflexivity|constructor]. }
  destruct Hsplit as [Hs|Hs]; rewrite Hs in E.
  - destruct segs as [|x segs].
    + cbn in E. subst p. discriminate.
    + exists (x :: segs). split; [|split].
      * rewrite <- E. rewrite unsplit_cons by discriminate. reflexivity.
      * left; reflexivity.
      * apply clean_all_no_sep. exact Hc.
  - exists (segs ++ [""])%list. split; [|split].
    + rewrite <- E. rewrite unsplit_cons by (destruct segs; discriminate).
      reflexivity.
    + right; reflexivity.
    + exact Hns.
Qed.

(** What the guard lets through at most: a path accepted by the
    [startsWith] test lies below the parent directory of the root, in an
    entry of it whose name begins with the name of the root.  The entry
    need not be the root: a sibling whose name extends the root's passes
    as well. *)
Theorem guard_confines_to_parent (R P : string) :
  resolved R = true ->
  startsWith (join [R; P]) R = true ->
  segments R = []
  \/ exists x rest,
       segments (join [R; P]) = (removelast (segments R) ++ x :: rest)%list
       /\ String.prefix (last (segments R) "") x = true.
Proof.
  intros HR Hg.
  destruct (resolved_segments R HR) as (_ & Hrc & HRe).
  destruct (segments R) as [|r0 rs0] eqn:Ers; [left; reflexivity|right].
  rewrite <- Ers in *.
  destruct (join_tidy R P (resolved_absolute_path R HR)) as (tsegs & Ht).
  unfold segments at 1. rewrite (tidy_filter _ _ Ht).
  destruct (tidy_text _ _ Ht) as (l & El & Hl & Hns).
  unfold startsWith in Hg. rewrite El in Hg. rewrite HRe in Hg.
  apply prefix_cons in Hg. destruct Hg as [_ Hg].
  destruct (prefix_unsplit (segments R) l) as (x & rest & E & Hx);
    [rewrite Ers; discriminate|exact Hrc|exact Hns|exact Hg|].
  destruct Hl as [->| ->].
  - exists x, rest. split; assumption.
  - assert (Hxne : x <> "").
    { intros ->. apply prefix_empty in Hx.
      assert (Hin : In (last (segments R) "") (segments R)).
      { rewrite Ers. clear. revert r0. induction rs0 as [|a rs0 IH]; intros r0.
        - left; reflexivity.
        - right. exact (IH a). }
      rewrite Forall_forall in Hrc. specialize (Hrc _ Hin).
      rewrite Hx in Hrc. discriminate. }
    destruct (exists_last (l := rest)) as (rest' & y & Er).
    + intros ->. apply app_inj_tail in E. destruct E as [_ E]. congruence.
    + subst rest.
      replace (removelast (segments R) ++ x :: rest' ++ [y])%list
        with ((removelast (segments R) ++ x :: rest') ++ [y])%list in E
        by (rewrite <- app_assoc; reflexivity).
      apply app_inj_tail in E. destruct E as [E _].
      exists x, rest'. split; assumption.
Qed.

Lemma guard_confines_to_parent_witness :
  segments Scenario.cache = []
  \/ exists x rest,
       segments (join [Scenario.cache; "../bc/secret"])
       = (removelast (segments Scenario.cache) ++ x :: rest)%list
       /\ String.prefix (last (segments Scenario.cache) "") x = true.
Proof.
  exact (guard_confines_to_parent Scenario.cache "../bc/secret" eq_refl eq_refl).
Defined.

End GuardFacts.

(** ** The tree under the file operations *)

Module TreeFacts.
Import Js Fs Path PathFacts FsFacts WriteFacts VacantFacts Frame.
Local Open Scope prog_scope.

Lemma keeps_refl t r : keeps t r r.
Proof. intros names n H. exists n. repeat split; auto. Qed.

Lemma keeps_trans t r1 r2 r3 : keeps t r1 r2 -> keeps t r2 r3 -> keeps t r1 r3.
Proof.
  intros H12 H23 names n H.
  destruct (H12 _ _ H) as (n2 & G2 & D2 & F2).
  destruct (H23 _ _ G2) as (n3 & G3 & D3 & F3).
  exists n3. split; [exact G3|]. split; [congruence|].
  intros c Hc Hne. apply F3; [|exact Hne]. apply F2; assumption.
Qed.

Lemma keeps_weaken t r r' : keeps None r r' -> keeps t r r'.
Proof.
  intros H names n Hg. destruct (H _ _ Hg) as (n' & G & D & F).
  exists n'. repeat split; try assumption.
  intros c Hc _. apply F; [exact Hc|discriminate].
Qed.

(** Putting a node where there is none, or a regular file where there is
    one, changes nothing else. *)
Lemma put_keeps q new : forall r,
  (forall n, get q r = Some n -> is_dir n = false /\ is_dir new = false) ->
  keeps (Some q) r (put q new r).
Proof.
  induction q as [|x rest IH]; intros r Hq names n Hget.
  - destruct (Hq r eq_refl) as [Hr Hnew].
    destruct r as [content|sz es]; [|discriminate].
    destruct names; simpl in Hget; [|discriminate].
    inversion Hget; subst. exists new. repeat split; [assumption|].
    intros c _ Hne. congruence.
  - destruct r as [content|sz es].
    { exists n. repeat split; auto. }
    destruct names as [|y ys].
    + simpl in Hget. inversion Hget; subst. eexists.
      repeat split. intros c Hc. discriminate.
    + cbn [put get]. simpl in Hget.
      destruct (find_entry es y) as [child|] eqn:Hy; [|discriminate].
      destruct (x =? y) eqn:Exy.
      * apply String.eqb_eq in Exy. subst y.
        rewrite find_replace_same, Hy.
        destruct (IH child) with (names := ys) (n := n) as (n' & G & D & F).
        -- intros m Hm. apply Hq. simpl. rewrite Hy. exact Hm.
        -- exact Hget.
        -- exists n'. repeat split; try assumption.
           intros c Hc Hne. apply F; [exact Hc|]. congruence.
      * rewrite find_replace_other, Hy; [|exact Exy|].
        -- exists n. repeat split; auto.
        -- destruct rest; simpl; [|reflexivity]. rewrite Exy. reflexivity.
Qed.

(** [mkdir -p] removes nothing and changes no regular file. *)
Lemma mkdirp_keeps segs : forall cur r,
  keeps None r (fst (mkdirp r cur segs)).
Proof.
  induction segs as [|seg rest IH]; intros cur r; [apply keeps_refl|].
  cbn [mkdirp].
  destruct (get cur r) as [[content|sz es]|] eqn:Hcur; try apply keeps_refl.
  destruct ((seg =? "") || (seg =? ".")); [apply IH|].
  destruct (seg =? ".."); [apply IH|].
  destruct (too_long seg); [apply keeps_refl|].
  destruct (find_entry es seg) as [[c|sz' es']|] eqn:Hfind;
    [apply keeps_refl|apply IH|].
  eapply keeps_trans; [|apply IH].
  assert (Hnone : get (cur ++ [seg]) r = None)
    by (rewrite get_snoc, Hcur; exact Hfind).
  intros names n Hget.
  destruct (put_keeps (cur ++ [seg]) (Dir new_dir_size []) r) with (names := names) (n := n)
    as (n' & G & D & F).
  - intros m Hm. congruence.
  - exact Hget.
  - exists n'. repeat split; try assumption.
    intros c Hc _. apply F; [exact Hc|]. intros E. inversion E. congruence.
Qed.

(** The place [create] writes at, for an absolute path whose segments
    are names. *)
Lemma create_at w p data r' :
  isAbsolute p = true -> Forall calm (split p) ->
  create w p data = inr r' ->
  r' = put (segments p) (File data) (root w)
  /\ (forall n, get (segments p) (root w) = Some n -> is_dir n = false)
  /\ exists parent last sz es,
       segments p = (parent ++ [last])%list
       /\ get parent (root w) = Some (Dir sz es).
Proof.
  unfold create. intros Ha Hcalm H.
  destruct (p =? "") eqn:Hp; [discriminate|].
  destruct (strip_trailing (split p)) as [body trailing] eqn:Hstrip.
  destruct (rev body) as [|last rev_init] eqn:Hrev; [discriminate|].
  destruct (walk (root w) (origin w p) (rev rev_init)) as [e|parent] eqn:Hwalk;
    [discriminate|].
  destruct (get parent (root w)) as [[content|sz es]|] eqn:Hparent;
    try discriminate.
  destruct trailing; [discriminate|]. cbn [orb] in H.
  destruct (last =? ".") eqn:E1; [discriminate|].
  destruct (last =? "..") eqn:E2; [discriminate|]. cbn [orb] in H.
  destruct (too_long last) eqn:E3; [discriminate|].
  pose proof (strip_trailing_last _ _ _ _ _ Hstrip Hrev) as E0.
  apply strip_trailing_none in Hstrip. subst body.
  assert (Hsplit : split p = (rev rev_init ++ [last])%list).
  { rewrite <- (rev_involutive (split p)), Hrev. reflexivity. }
  rewrite Hsplit in Hcalm. apply Forall_app in Hcalm. destruct Hcalm as [Hinit _].
  unfold origin in Hwalk. rewrite Ha in Hwalk.
  apply (walk_calm_inv _ _ _ _ Hinit) in Hwalk. cbn [app] in Hwalk.
  assert (Hsegs : segments p = (parent ++ [last])%list).
  { unfold segments. rewrite Hsplit, filter_app, <- Hwalk.
    cbn [filter]. unfold nonempty. rewrite E0. reflexivity. }
  rewrite Hsegs. split; [|split].
  - destruct (find_entry es last) as [[c|sz' es']|]; inversion H; reflexivity.
  - intros n. rewrite get_snoc, Hparent.
    destruct (find_entry es last) as [[c|sz' es']|]; try discriminate.
    intros Hn. inversion Hn. reflexivity.
  - exists parent, last, sz, es. split; [reflexivity|exact Hparent].
Qed.

Lemma create_keeps w p data r' :
  isAbsolute p = true -> Forall calm (split p) ->
  create w p data = inr r' ->
  keeps (Some (segments p)) (root w) r'.
Proof.
  intros Ha Hc H. destruct (create_at w p data r' Ha Hc H) as (-> & Hfree & _).
  apply put_keeps. intros n Hn. split; [exact (Hfree n Hn)|reflexivity].
Qed.

Lemma mkdirSync_recursive_keeps p w :
  keeps None (root w) (root (snd (mkdirSync_recursive p w)))
  /\ cwd (snd (mkdirSync_recursive p w)) = cwd w.
Proof.
  destruct (has_nul p) eqn:Hn.
  { unfold mkdirSync_recursive, bind, called, ask, throw. rewrite Hn.
    cbn [snd root cwd record_call]. split; [apply keeps_refl|reflexivity]. }
  destruct (p =? "") eqn:Hp.
  - unfold mkdirSync_recursive, bind, called, ask, throw. rewrite Hn, Hp.
    cbn [snd root cwd record_call]. split; [apply keeps_refl|reflexivity].
  - rewrite mkdirSync_recursive_run by assumption.
    pose proof (mkdirp_keeps (split p) (origin w p) (root w)) as Hk.
    destruct (mkdirp (root w) (origin w p) (split p)) as [r err].
    cbn [snd root cwd set_root record_call fst] in *. split; [exact Hk|reflexivity].
Qed.

Lemma writeFileSync_keeps p data w :
  isAbsolute p = true -> Forall calm (split p) ->
  keeps (Some (segments p)) (root w) (root (snd (writeFileSync p data w)))
  /\ cwd (snd (writeFileSync p data w)) = cwd w.
Proof.
  intros Ha Hc. rewrite writeFileSync_run.
  destruct (has_nul p).
  { cbn [snd root cwd record_call]. split; [apply keeps_refl|reflexivity]. }
  destruct (create w p data) as [e|r'] eqn:Hcr.
  - cbn [snd root cwd record_call]. split; [apply keeps_refl|reflexivity].
  - cbn [snd root cwd set_root record_call]. split; [|reflexivity].
    exact (create_keeps w p data r' Ha Hc Hcr).
Qed.

End TreeFacts.

(** ** The file operations: what they leave alone, how they fail *)

Module OperationFacts.
Import Js Fs Path PathFacts FsFacts WriteFacts VacantFacts Agent AgentFacts.
Import Frame GuardFacts TreeFacts.
Local Open Scope prog_scope.

Lemma read_only_ret {A} (a : A) : read_only (ret a).
Proof. intros w. split; reflexivity. Qed.

Lemma read_only_throw {A} e : read_only (@throw world A e).
Proof. intros w. split; reflexivity. Qed.

Lemma read_only_lift {A} (c : completion A) : read_only (lift c).
Proof. intros w. split; reflexivity. Qed.

Lemma read_only_ask : read_only (@ask world).
Proof. intros w. split; reflexivity. Qed.

Lemma read_only_called fn p : read_only (called fn p).
Proof. intros w. split; reflexivity. Qed.

Lemma read_only_bind {A B} (m : M A) (k : A -> M B) :
  read_only m -> (forall a, read_only (k a)) -> read_only (bind m k).
Proof.
  intros Hm Hk w. unfold bind. destruct (Hm w) as [Hr Hc].
  destruct (m w) as [[a|e] w1]; cbn [snd] in *.
  - destruct (Hk a w1) as [Hr' Hc']. split; congruence.
  - split; assumption.
Qed.

Create HintDb read_only.

#[local] Hint Resolve read_only_ret read_only_throw read_only_lift
  read_only_ask read_only_called : read_only.

Ltac read_only :=
  repeat first
    [ apply read_only_bind; [|intros ?]
    | solve [auto with read_only]
    | match goal with
      | |- read_only (if ?b then _ else _) => destruct b
      | |- read_only (match ?x with _ => _ end) => destruct x
      end ].

Lemma read_only_scandir p : read_only (scandir p).
Proof. unfold scandir. read_only. Qed.

#[local] Hint Resolve read_only_scandir : read_only.

Lemma read_only_statSync p : read_only (statSync p).
Proof. unfold statSync. read_only. Qed.

Lemma read_only_existsSync p : read_only (existsSync p).
Proof. unfold existsSync. read_only. Qed.

Lemma read_only_readFileSync p : read_only (readFileSync p).
Proof. unfold readFileSync. read_only. Qed.

#[local] Hint Resolve read_only_statSync read_only_existsSync
  read_only_readFileSync : read_only.

Lemma read_only_mapM {A B} (f : A -> M B) l :
  (forall a, read_only (f a)) -> read_only (mapM f l).
Proof.
  intros Hf. induction l as [|x l IH]; cbn [mapM]; [auto with read_only|].
  apply read_only_bind; [apply Hf|intros y].
  apply read_only_bind; [exact IH|intros ys]. auto with read_only.
Qed.

Lemma read_only_foldM {A B} (f : B -> A -> M B) l : forall acc,
  (forall b a, read_only (f b a)) -> read_only (foldM f acc l).
Proof.
  induction l as [|x l IH]; intros acc Hf; cbn [foldM]; [auto with read_only|].
  apply read_only_bind; [apply Hf|intros acc']. apply IH. exact Hf.
Qed.

Lemma read_only_listFiles R params : read_only (listFiles R params).
Proof.
  unfold listFiles, readdirSync_withFileTypes. read_only.
  apply read_only_mapM. intros entry. unfold describe. read_only.
Qed.

Lemma read_only_readFile R params : read_only (readFile R params).
Proof. unfold readFile. read_only. Qed.

Lemma read_only_getCacheInfo R : read_only (getCacheInfo R).
Proof.
  unfold getCacheInfo, readdirSync. read_only.
  apply read_only_foldM. intros total file. unfold add_size. read_only.
Qed.

Lemma keeps_disk_ret {A} (a : A) : keeps_disk (ret a).
Proof. intros s. reflexivity. Qed.

Lemma keeps_disk_throw {A} e : keeps_disk (@throw state A e).
Proof. intros s. reflexivity. Qed.

Lemma keeps_disk_lift {A} (c : completion A) : keeps_disk (lift c).
Proof. intros s. reflexivity. Qed.

Lemma keeps_disk_console_log text : keeps_disk (console_log text).
Proof. intros s. reflexivity. Qed.

Lemma keeps_disk_console_error text : keeps_disk (console_error text).
Proof. intros s. reflexivity. Qed.

Lemma keeps_disk_console_log_with format arg :
  keeps_disk (console_log_with format arg).
Proof.
  intros s. unfold console_log_with. destruct (format_check format arg); reflexivity.
Qed.

Lemma keeps_disk_console_error_with format arg :
  keeps_disk (console_error_with format arg).
Proof.
  intros s. unfold console_error_with. destruct (format_check format arg); reflexivity.
Qed.

Lemma keeps_disk_send msg : keeps_disk (send msg).
Proof.
  intros s. unfold send. destruct (ws s); [|reflexivity].
  destruct (is_open s); reflexivity.
Qed.

Lemma keeps_disk_in_fs {A} (m : M A) : read_only m -> keeps_disk (in_fs m).
Proof.
  intros Hm s. unfold in_fs. destruct (Hm (disk s)) as [Hr _].
  destruct (m (disk s)) as [c w]. exact Hr.
Qed.

Lemma keeps_disk_bind {A B} (m : prog state A) (k : A -> prog state B) :
  keeps_disk m -> (forall a, keeps_disk (k a)) -> keeps_disk (bind m k).
Proof.
  intros Hm Hk s. unfold bind. specialize (Hm s).
  destruct (m s) as [[a|e] s1]; cbn [snd] in *; [|exact Hm].
  rewrite (Hk a s1). exact Hm.
Qed.

Lemma keeps_disk_bind_lift {A B} (c : completion A) (k : A -> prog state B) :
  (forall a, c = Return a -> keeps_disk (k a)) -> keeps_disk (bind (lift c) k).
Proof.
  intros Hk s. unfold bind, lift. destruct c as [a|e]; [|reflexivity].
  exact (Hk a eq_refl s).
Qed.

Lemma keeps_disk_try_catch {A} (m : prog state A) (h : exn -> prog state A) :
  keeps_disk m -> (forall e, keeps_disk (h e)) -> keeps_disk (try_catch m h).
Proof.
  intros Hm Hh s. unfold try_catch. specialize (Hm s).
  destruct (m s) as [[a|e] s1]; cbn [snd] in *; [exact Hm|].
  rewrite (Hh e s1). exact Hm.
Qed.

Create HintDb keeps_disk.

#[local] Hint Resolve keeps_disk_ret keeps_disk_throw keeps_disk_lift
  keeps_disk_console_log keeps_disk_console_error
  keeps_disk_console_log_with keeps_disk_console_error_with keeps_disk_send
  : keeps_disk.

Ltac keeps_disk :=
  repeat lazymatch goal with
         | |- keeps_disk (bind _ _) => apply keeps_disk_bind; [|intros ?]
         | |- keeps_disk (try_catch _ _) =>
             apply keeps_disk_try_catch; [|intros ?]
         | |- keeps_disk _ => solve [auto with keeps_disk]
         end.

Lemma keeps_disk_dispatch R bfo action params :
  action_is action "writeFile" = false ->
  keeps_disk (dispatch R bfo action params).
Proof.
  intros Hw. unfold dispatch. rewrite Hw.
  destruct (action_is action "listFiles");
    [apply keeps_disk_in_fs, read_only_listFiles|].
  destruct (action_is action "readFile");
    [apply keeps_disk_in_fs, read_only_readFile|].
  destruct (action_is action "getCacheInfo");
    [apply keeps_disk_in_fs, read_only_getCacheInfo|].
  keeps_disk.
Qed.

Lemma destructured_action msg action :
  destructure msg "msg" "action" = Return action ->
  action = optional_member msg "action".
Proof.
  destruct msg; cbn [destructure optional_member]; intros H;
    inversion H; reflexivity.
Qed.

Lemma action_is_not v name : v <> VString name -> action_is v name = false.
Proof.
  intros H. destruct v; try reflexivity. cbn [action_is].
  apply String.eqb_neq. congruence.
Qed.

(** Only [writeFile] changes the cache: a request with any other
    [action], known or not, well formed or not, answered or not, leaves
    the file system tree as it was. *)
Theorem only_writeFile_changes_the_tree
    (R : string) (bfo : value -> completion (list byte))
    (msg : value) (s : state) :
  optional_member msg "action" <> VString "writeFile" ->
  root (disk (snd (handleRequest R bfo msg s))) = root (disk s).
Proof.
  intros Ha. revert s. change (keeps_disk (handleRequest R bfo msg)).
  unfold handleRequest.
  apply keeps_disk_bind_lift. intros requestId _.
  apply keeps_disk_bind_lift. intros action Haction.
  apply keeps_disk_bind_lift. intros params _.
  apply destructured_action in Haction. subst action.
  pose proof (keeps_disk_dispatch R bfo _ params (action_is_not _ _ Ha)) as Hd.
  keeps_disk.
Qed.

Lemma only_writeFile_changes_the_tree_witness :
  root (disk (snd (handleRequest Scenario.cache Scenario.empty_buffer
                     (VObject [("type", VString "request");
                               ("requestId", VNumber "7");
                               ("action", VString "readFile");
                               ("params", VObject [("filePath", VString "a.txt")])])
                     Scenario.ready)))
  = root (disk Scenario.ready).
Proof.
  apply (only_writeFile_changes_the_tree Scenario.cache Scenario.empty_buffer).
  discriminate.
Defined.

Lemma join_shape R P :
  resolved R = true ->
  isAbsolute (join [R; P]) = true /\ Forall calm (split (join [R; P])).
Proof.
  intros HR.
  destruct (join_tidy R P (resolved_absolute R HR)) as (segs & Ht).
  split; [destruct Ht as (Ha & _); exact Ha|exact (tidy_calm _ _ Ht)].
Qed.

(** [writeFile] deletes nothing and changes one regular file at most:
    whatever the request and whether it succeeds or fails, every node of
    the tree is still there afterwards, a directory as a directory and a
    regular file as a regular file, and every regular file other than the
    one the target path names holds the bytes it held. *)
Theorem writeFile_keeps_other_files
    (R : string) (bfo : value -> completion (list byte))
    (params : value) (P : string) (w : world)
    (names : list string) (n : node) :
  resolved R = true ->
  destructure params "params" "filePath" = Return (VString P) ->
  get names (root w) = Some n ->
  exists n',
    get names (root (snd (writeFile R bfo params w))) = Some n'
    /\ is_dir n' = is_dir n
    /\ (forall c, n = File c -> names <> segments (join [R; P]) -> n' = File c).
Proof.
  intros HR Hfp Hget.
  assert (K : keeps (Some (segments (join [R; P]))) (root w)
                (root (snd (writeFile R bfo params w)))).
  { destruct (destructure_total params "params" "filePath" "data" _ Hfp)
      as (payload & Hd).
    destruct (join_shape R P HR) as [Habs Hcalm].
    unfold writeFile. rewrite Hfp, Hd.
    cbv beta iota delta [bind lift path_join].
    destruct (startsWith (join [R; P]) R); cbn [negb]; [|apply keeps_refl].
    destruct (mkdirSync_recursive_keeps (dirname (join [R; P])) w) as [K1 _].
    destruct (mkdirSync_recursive (dirname (join [R; P])) w) as [[u|e] w1];
      cbn [snd] in *; [|apply keeps_weaken; exact K1].
    destruct (Buffer_from bfo payload) as [buffer|e];
      [|apply keeps_weaken; exact K1].
    destruct (writeFileSync_keeps (join [R; P]) buffer w1 Habs Hcalm) as [K2 _].
    destruct (writeFileSync (join [R; P]) buffer w1) as [[u2|e2] w2];
      cbn [snd] in *;
      (eapply keeps_trans; [apply keeps_weaken; exact K1|exact K2]). }
  destruct (K names n Hget) as (n' & G & D & F).
  exists n'. split; [exact G|]. split; [exact D|].
  intros c Hc Hne. apply F; [exact Hc|]. congruence.
Qed.

Lemma writeFile_keeps_other_files_witness :
  exists n',
    get ["a"; "b"; "a.txt"]
        (root (snd (writeFile Scenario.cache Scenario.empty_buffer
                      (VObject [("filePath", VString "b/new.bin");
                                ("data", VString "AAEC")])
                      Scenario.world0))) = Some n'
    /\ is_dir n' = is_dir (File ["t"%byte; "e"%byte; "s"%byte; "t"%byte])
    /\ (forall c, File ["t"%byte; "e"%byte; "s"%byte; "t"%byte] = File c ->
                  ["a"; "b"; "a.txt"] <> segments (join [Scenario.cache; "b/new.bin"]) ->
                  n' = File c).
Proof.
  exact (writeFile_keeps_other_files
           Scenario.cache Scenario.empty_buffer
           (VObject [("filePath", VString "b/new.bin"); ("data", VString "AAEC")])
           "b/new.bin" Scenario.world0 ["a"; "b"; "a.txt"]
           (File ["t"%byte; "e"%byte; "s"%byte; "t"%byte])
           eq_refl eq_refl eq_refl).
Defined.

(** A directory reached by clean names is named by the absolute path
    written from them. *)
Lemma locate_dir w segs sz es :
  Forall (fun x => clean x = true) segs ->
  forallb legal_name segs = true ->
  get segs (root w) = Some (Dir sz es) ->
  locate w ("/" ++ unsplit segs) = inr (Dir sz es).
Proof.
  intros Hc Hl Hget. destruct segs as [|x segs].
  - simpl in Hget. inversion Hget as [Hr]. unfold locate, origin.
    cbn. rewrite Hr. reflexivity.
  - apply (locate_segments w _ (x :: segs)); try assumption; try discriminate.
    + reflexivity.
    + change ("/" ++ unsplit (x :: segs)) with (String "/"%char (unsplit (x :: segs))).
      rewrite split_slash_cons, split_unsplit;
        [reflexivity|discriminate|apply clean_all_no_sep; exact Hc].
Qed.

(** At a place that can be written, [mkdir -p] of the parent succeeds
    and leaves the parent a directory in which the last name is free or
    a regular file. *)
Lemma mkdir_at_vacant w p segs :
  tidy p segs -> writable w p = true ->
  exists init last r1 sz es,
    segs = (init ++ [last])%list
    /\ Forall (fun x => clean x = true) init /\ clean last = true
    /\ forallb legal_name init = true /\ legal_name last = true
    /\ p = "/" ++ unsplit (init ++ [last])
    /\ dirname p = "/" ++ unsplit init
    /\ mkdirp (root w) [] init = (r1, None)
    /\ mkdirSync_recursive (dirname p) w
       = (Return tt, set_root r1 (record_call "mkdirSync" (dirname p) w))
    /\ get init r1 = Some (Dir sz es)
    /\ vacant [last] (Dir sz es) = true.
Proof.
  intros Ht Hcw. pose proof Ht as (Ha & Hc & Hs).
  unfold writable in Hcw. apply andb_prop in Hcw. destruct Hcw as [Hcw Hlegal].
  apply andb_prop in Hcw. destruct Hcw as [Htr Hv].
  apply negb_true_iff in Htr. unfold segments in Hv, Hlegal.
  rewrite (tidy_filter _ _ Ht) in Hv, Hlegal.
  assert (Hsplit : split p = "" :: segs).
  { destruct Hs as [Hs|Hs]; [exact Hs|]. unfold trailing_sep in Htr.
    rewrite Hs in Htr. cbn [rev] in Htr. rewrite rev_app_distr in Htr.
    discriminate. }
  destruct (vacant_dir _ _ Hv) as (sz0 & es0 & Hr).
  destruct segs as [|x segs0] using rev_ind; [rewrite Hr in Hv; discriminate|].
  clear IHsegs0. rename segs0 into init. rename x into last.
  apply Forall_app in Hc. destruct Hc as [Hi Hl].
  inversion Hl as [|? ? Hl' _]; subst.
  rewrite forallb_app in Hlegal. apply andb_prop in Hlegal.
  destruct Hlegal as [Hli Hll]. cbn [forallb] in Hll.
  rewrite andb_true_r in Hll.
  pose proof (proj1 (legal_names_parts init) Hli) as [Hni Hsi].
  assert (Hp : p = "/" ++ unsplit (init ++ [last])).
  { rewrite <- (unsplit_split p), Hsplit.
    rewrite unsplit_cons by (destruct init; discriminate). reflexivity. }
  assert (Hd : dirname p = "/" ++ unsplit init).
  { rewrite Hp. apply dirname_tidy; assumption. }
  assert (Hnd : has_nul (dirname p) = false).
  { rewrite Hd, has_nul_split.
    change ("/" ++ unsplit init) with (String "/"%char (unsplit init)).
    rewrite split_slash_cons. cbn [existsb has_nul list_ascii_of_string orb].
    destruct init as [|y init]; [reflexivity|].
    rewrite split_unsplit; [exact Hni|discriminate|].
    apply clean_all_no_sep. assumption. }
  destruct (mkdirp_vacant last init [] (root w) (root w) Hi Hsi eq_refl Hv)
    as (r1 & sz & es & Hm & Hg & Hv1).
  assert (Hmk : mkdirp (root w) [] (split (dirname p)) = (r1, None)).
  { rewrite Hd. change ("/" ++ unsplit init) with (String "/"%char (unsplit init)).
    rewrite split_slash_cons. cbn [mkdirp get]. rewrite Hr.
    cbn [String.eqb orb]. rewrite <- Hr.
    destruct init as [|y init].
    - cbn [unsplit String.concat split mkdirp get]. rewrite Hr.
      cbn [String.eqb orb]. rewrite <- Hr. simpl in Hm. exact Hm.
    - rewrite split_unsplit; [exact Hm|discriminate|].
      apply clean_all_no_sep. assumption. }
  exists init, last, r1, sz, es.
  repeat (split; [assumption || reflexivity|]).
  split; [|split; assumption].
  rewrite mkdirSync_recursive_run by (try exact Hnd; rewrite Hd; reflexivity).
  assert (Hda : isAbsolute (dirname p) = true) by (rewrite Hd; reflexivity).
  unfold origin. rewrite Hda, Hmk. reflexivity.
Qed.

(** The parent directories are made before the payload is looked at: a
    [writeFile] whose [data] cannot be turned into a buffer (it is
    missing, [null], a boolean or a number) fails with the error of
    [Buffer.from], yet at a path that could have been written the
    directories leading to it exist afterwards; [writeFileSync] is never
    called. *)
Theorem bad_payload_fails_after_mkdir
    (R : string) (bfo : value -> completion (list byte))
    (params : value) (P : string) (payload : value) (e : exn) (w : world) :
  resolved R = true ->
  destructure params "params" "filePath" = Return (VString P) ->
  destructure params "params" "data" = Return payload ->
  Buffer_from bfo payload = Throw e ->
  startsWith (join [R; P]) R = true ->
  can_write w (join [R; P]) = true ->
  exists w1 sz es,
    writeFile R bfo params w = (Throw e, w1)
    /\ locate w1 (dirname (join [R; P])) = inr (Dir sz es)
    /\ calls w1 = (calls w ++ [("mkdirSync", dirname (join [R; P]))])%list.
Proof.
  intros HR Hfp Hd Hb Hg Hcw.
  destruct (join_tidy R P (resolved_absolute R HR)) as (segs & Ht).
  destruct (mkdir_at_vacant w _ segs Ht (can_write_writable _ _ Hcw))
    as (init & last & r1 & sz & es & _ & Hi & _ & Hli & _ & _ & Hdir & _
        & Hmk & Hget & _).
  exists (set_root r1 (record_call "mkdirSync" (dirname (join [R; P])) w)), sz, es.
  split; [|split; [|reflexivity]].
  - unfold writeFile. rewrite Hfp, Hd.
    cbv beta iota delta [bind lift path_join]. rewrite Hg. cbn [negb].
    rewrite Hmk, Hb. reflexivity.
  - rewrite Hdir. apply locate_dir; [exact Hi|exact Hli|exact Hget].
Qed.

Lemma bad_payload_fails_after_mkdir_witness :
  exists w1 sz es,
    writeFile Scenario.cache Scenario.empty_buffer
      (VObject [("filePath", VString "new/dir/x.bin"); ("data", VNumber "5")])
      Scenario.world0
    = (Throw (TypeError
                ("The first argument must be of type string or an instance of "
                 ++ "Buffer, ArrayBuffer, or Array or an Array-like Object. "
                 ++ "Received type number (5)")), w1)
    /\ locate w1 (dirname (join [Scenario.cache; "new/dir/x.bin"]))
       = inr (Dir sz es)
    /\ calls w1
       = (calls Scenario.world0
          ++ [("mkdirSync", dirname (join [Scenario.cache; "new/dir/x.bin"]))])%list.
Proof.
  exact (bad_payload_fails_after_mkdir
           Scenario.cache Scenario.empty_buffer
           (VObject [("filePath", VString "new/dir/x.bin");
                     ("data", VNumber "5")])
           "new/dir/x.bin" (VNumber "5") _ Scenario.world0
           eq_refl eq_refl eq_refl eq_refl eq_refl eq_refl).
Defined.

(** [readFile] and [writeFile] need [params.filePath] to be a string:
    when [params] is missing or [null], or [filePath] is missing or not a
    string, both throw a [TypeError] before the guard is reached and
    before the file system is touched. *)
Theorem file_path_must_be_a_string
    (R : string) (bfo : value -> completion (list byte))
    (params : value) (w : world) :
  (forall P, destructure params "params" "filePath" <> Return (VString P)) ->
  exists m1 m2,
    readFile R params w = (Throw (TypeError m1), w)
    /\ writeFile R bfo params w = (Throw (TypeError m2), w).
Proof.
  intros H. unfold readFile, writeFile.
  destruct params as [| |b|repr|str|items|props]; cbn [destructure] in *;
    try (eexists; eexists; split; reflexivity).
  destruct (own_property props "filePath") as [| |b|repr|str|items|props'];
    try (eexists; eexists; split; reflexivity).
  exfalso. apply (H str). reflexivity.
Qed.

Lemma file_path_must_be_a_string_witness :
  exists m1 m2,
    readFile Scenario.cache (VObject [("path", VString "a.txt")]) Scenario.world0
    = (Throw (TypeError m1), Scenario.world0)
    /\ writeFile Scenario.cache Scenario.empty_buffer
         (VObject [("path", VString "a.txt")]) Scenario.world0
       = (Throw (TypeError m2), Scenario.world0).
Proof.
  apply (file_path_must_be_a_string Scenario.cache Scenario.empty_buffer
           (VObject [("path", VString "a.txt")]) Scenario.world0).
  intros P. discriminate.
Defined.





Lemma get_app_dir cur l r sz es :
  get (cur ++ l) r = Some (Dir sz es) ->
  exists sz' es', get cur r = Some (Dir sz' es').
Proof.
  rewrite get_app. destruct (get cur r) as [[c|sz' es']|]; try discriminate.
  - destruct l; simpl; [intros H; inversion H|discriminate].
  - eauto.
Qed.















(** The listing after the write of [0], of [ab] and of [c] into the
    directory that holds [a.txt] and [b]. *)
Lemma new_names_are_listed_in_byte_order :
  let listing name :=
    fst (getCacheInfo Scenario.cache
           (snd (writeFile Scenario.cache Scenario.empty_buffer
                   (VObject [("filePath", VString name);
                             ("data", VString "AAEC")])
                   Scenario.world0))) in
  listing "0" = Return (CacheInfo "/a/b" 3 7 ["0"; "a.txt"; "b"])
  /\ listing "ab" = Return (CacheInfo "/a/b" 3 7 ["a.txt"; "ab"; "b"])
  /\ listing "c" = Return (CacheInfo "/a/b" 3 7 ["a.txt"; "b"; "c"]).
Proof. vm_compute. repeat split. Qed.

Lemma vacant_file segs : forall r c,
  get segs r = Some (File c) -> segs <> [] -> vacant segs r = true.
Proof.
  induction segs as [|x rest IH]; intros r c Hget Hne; [congruence|].
  destruct r as [content|sz es]; [discriminate|].
  simpl in Hget. cbn [vacant].
  destruct (find_entry es x) as [child|]; [|discriminate].
  destruct rest as [|y rest].
  - simpl in Hget. inversion Hget; subst. reflexivity.
  - destruct child; apply (IH _ c Hget); discriminate.
Qed.

(** A path that names a regular file can be written. *)
Lemma writable_file w p segs c :
  tidy p segs -> locate w p = inr (File c) -> writable w p = true.
Proof.
  intros Ht Hloc. pose proof Ht as (Ha & Hc & Hs).
  pose proof (locate_tidy _ _ _ _ Ht Hloc) as Hget.
  pose proof (locate_legal _ _ _ _ Ht Hloc) as Hlegal.
  pose proof (locate_no_nul _ _ _ Hloc) as Hnul.
  assert (Hne : segs <> []).
  { intros ->. simpl in Hget. inversion Hget as [Hr].
    unfold locate, origin in Hloc.
    rewrite (isAbsolute_nonempty_false _ Ha), Hnul, Ha in Hloc.
    cbn [orb] in Hloc.
    assert (Hw : walk (root w) [] (split p) = inl ENOTDIR).
    { destruct Hs as [Hs|Hs]; rewrite Hs; cbn [walk get]; rewrite Hr;
        reflexivity. }
    rewrite Hw in Hloc. discriminate. }
  unfold writable, segments. rewrite (tidy_filter _ _ Ht).
  rewrite (vacant_file segs (root w) c Hget Hne), Hlegal, !andb_true_r.
  apply negb_true_iff. unfold trailing_sep.
  destruct Hs as [Hs|Hs]; rewrite Hs.
  - destruct segs as [|x segs] using rev_ind; [congruence|].
    cbn [rev]. rewrite rev_app_distr. cbn [rev app].
    apply Forall_app in Hc. destruct Hc as [_ Hx].
    inversion Hx as [|? ? Hx' _]; subst.
    destruct x; [discriminate|reflexivity].
  - exfalso. unfold locate, origin in Hloc.
    rewrite (isAbsolute_nonempty_false _ Ha), Hnul, Ha, Hs in Hloc.
    cbn [orb] in Hloc.
    change ("" :: segs ++ [""])%list with (("" :: segs) ++ [""])%list in Hloc.
    rewrite walk_app in Hloc.
    destruct (walk (root w) [] ("" :: segs)) as [e|mid] eqn:Hw; [discriminate|].
    assert (Hcalm : Forall calm ("" :: segs)).
    { constructor; [left; reflexivity|]. apply clean_calm. exact Hc. }
    apply (walk_calm_inv _ _ _ _ Hcalm) in Hw.
    cbn [filter nonempty String.eqb negb app] in Hw.
    rewrite (filter_nonempty_clean _ Hc) in Hw. subst mid.
    cbn [walk] in Hloc. rewrite Hget in Hloc. discriminate.
Qed.

(** A file the agent has written can be written again: after a
    successful [writeFile], a second one at the same path succeeds
    whatever its text, and the file then holds the bytes of the second
    text only. *)
Theorem written_file_can_be_overwritten
    (R : string) (bfo : value -> completion (list byte))
    (params params' : value) (P text text' : string)
    (w : world) (res : result) (w1 : world) :
  resolved R = true ->
  destructure params "params" "filePath" = Return (VString P) ->
  destructure params "params" "data" = Return (VString text) ->
  destructure params' "params" "filePath" = Return (VString P) ->
  destructure params' "params" "data" = Return (VString text') ->
  writeFile R bfo params w = (Return res, w1) ->
  exists w2,
    writeFile R bfo params' w1
    = (Return (Written (length (Base64.decode text'))), w2)
    /\ locate w2 (join [R; P]) = inr (File (Base64.decode text')).
Proof.
  intros HR Hfp Hd Hfp' Hd' Hw.
  pose proof (writeFile_guarded R bfo params P w res w1 Hfp Hw) as Hg.
  destruct (writeFile_written R bfo params P text w res w1 Hfp Hd Hw)
    as (_ & Hloc).
  destruct (join_tidy R P (resolved_absolute R HR)) as (segs & Ht).
  pose proof (writable_file w1 _ segs _ Ht Hloc) as Hcw.
  destruct (writeFile_at_writable R bfo params' P text' w1 HR Hfp' Hd' Hg Hcw)
    as (w2 & E).
  exists w2. split; [exact E|].
  exact (proj2 (writeFile_written R bfo params' P text' w1 _ w2 Hfp' Hd' E)).
Qed.

Lemma written_file_can_be_overwritten_witness :
  exists w2,
    writeFile Scenario.cache Scenario.empty_buffer
      (VObject [("filePath", VString "b/x.bin"); ("data", VString "AA==")])
      (snd (writeFile Scenario.cache Scenario.empty_buffer
              (VObject [("filePath", VString "b/x.bin");
                        ("data", VString "AAEC")])
              Scenario.world0))
    = (Return (Written (length (Base64.decode "AA=="))), w2)
    /\ locate w2 (join [Scenario.cache; "b/x.bin"])
       = inr (File (Base64.decode "AA==")).
Proof.
  exact (written_file_can_be_overwritten
           Scenario.cache Scenario.empty_buffer
           (VObject [("filePath", VString "b/x.bin"); ("data", VString "AAEC")])
           (VObject [("filePath", VString "b/x.bin"); ("data", VString "AA==")])
           "b/x.bin" "AAEC" "AA==" Scenario.world0 (Written 3)
           (snd (writeFile Scenario.cache Scenario.empty_buffer
                   (VObject [("filePath", VString "b/x.bin");
                             ("data", VString "AAEC")])
                   Scenario.world0))
           eq_refl eq_refl eq_refl eq_refl eq_refl eq_refl).
Defined.

(** [writeFile] makes the directories on the way: after a write at a
    path that can be written, every proper ancestor of the target, from
    the root of the file system down to its parent, is a directory. *)
Theorem writeFile_makes_parent_directories
    (R : string) (bfo : value -> completion (list byte))
    (params : value) (P text : string) (w : world) :
  resolved R = true ->
  destructure params "params" "filePath" = Return (VString P) ->
  destructure params "params" "data" = Return (VString text) ->
  startsWith (join [R; P]) R = true ->
  can_write w (join [R; P]) = true ->
  exists w',
    writeFile R bfo params w
    = (Return (Written (length (Base64.decode text))), w')
    /\ forall above below,
         segments (join [R; P]) = (above ++ below)%list -> below <> [] ->
         exists sz es, get above (root w') = Some (Dir sz es).
Proof.
  intros HR Hfp Hd Hg Hcw.
  destruct (writeFile_succeeds R bfo params P text w HR Hfp Hd Hg Hcw)
    as (w' & E).
  exists w'. split; [exact E|].
  destruct (join_tidy R P (resolved_absolute R HR)) as (segs & Ht).
  destruct (mkdir_at_vacant w _ segs Ht (can_write_writable _ _ Hcw))
    as (init & last & r1 & sz & es & Hsegs & Hi & Hl & _ & _ & _ & _ & _
        & Hmk & Hget & _).
  rewrite (writeFile_run R bfo params P text w Hfp Hd Hg), Hmk in E.
  set (w1 := set_root r1 _) in E.
  destruct (join_shape R P HR) as [Habs Hcalm].
  destruct (writeFileSync_keeps (join [R; P]) (Base64.decode text) w1 Habs Hcalm)
    as [K _].
  destruct (writeFileSync (join [R; P]) (Base64.decode text) w1)
    as [[u|e] w2]; [|discriminate].
  inversion E; subst w2. cbn [snd] in K.
  intros above below Hsplit Hbelow.
  unfold segments in Hsplit. rewrite (tidy_filter _ _ Ht), Hsegs in Hsplit.
  assert (Hpre : exists rest, init = (above ++ rest)%list).
  { destruct below as [|b below] using rev_ind; [congruence|].
    rewrite app_assoc in Hsplit. apply app_inj_tail in Hsplit.
    destruct Hsplit as [-> _]. eauto. }
  destruct Hpre as (rest & ->).
  destruct (get_app_dir above rest r1 sz es Hget) as (sz' & es' & Habove).
  destruct (K above (Dir sz' es') Habove) as (n' & G & D & _).
  destruct n' as [c|sz'' es'']; [discriminate|]. eauto.
Qed.

Lemma writeFile_makes_parent_directories_witness :
  exists w',
    writeFile Scenario.cache Scenario.empty_buffer
      (VObject [("filePath", VString "new/dir/x.bin"); ("data", VString "/wA=")])
      Scenario.world0
    = (Return (Written (length (Base64.decode "/wA="))), w')
    /\ forall above below,
         segments (join [Scenario.cache; "new/dir/x.bin"])
         = (above ++ below)%list -> below <> [] ->
         exists sz es, get above (root w') = Some (Dir sz es).
Proof.
  exact (writeFile_makes_parent_directories
           Scenario.cache Scenario.empty_buffer
           (VObject [("filePath", VString "new/dir/x.bin");
                     ("data", VString "/wA=")])
           "new/dir/x.bin" "/wA=" Scenario.world0
           eq_refl eq_refl eq_refl eq_refl eq_refl).
Defined.

End OperationFacts.

(** ** Messages and the session *)

Module SessionFacts.
Import Js Fs Agent ConnectionFacts Frame.
Local Open Scope prog_scope.

Lemma quiet_ret {A} (a : A) : quiet (ret a).
Proof. intros s. repeat split. Qed.

Lemma quiet_throw {A} e : quiet (@throw state A e).
Proof. intros s. repeat split. Qed.

Lemma quiet_lift {A} (c : completion A) : quiet (lift c).
Proof. intros s. repeat split. Qed.

Lemma quiet_console_log text : quiet (console_log text).
Proof. intros s. repeat split. Qed.

Lemma quiet_console_error text : quiet (console_error text).
Proof. intros s. repeat split. Qed.

Lemma quiet_set_sessionToken v : quiet (modify (set_sessionToken v)).
Proof. intros s. repeat split. Qed.

Lemma quiet_bind {A B} (m : prog state A) (k : A -> prog state B) :
  quiet m -> (forall a, quiet (k a)) -> quiet (bind m k).
Proof.
  intros Hm Hk s. unfold bind. destruct (Hm s) as (H1 & H2 & H3 & H4).
  destruct (m s) as [[a|e] s1]; cbn [snd] in *.
  - destruct (Hk a s1) as (K1 & K2 & K3 & K4). repeat split; congruence.
  - repeat split; assumption.
Qed.

Lemma quiet_try_catch {A} (m : prog state A) (h : exn -> prog state A) :
  quiet m -> (forall e, quiet (h e)) -> quiet (try_catch m h).
Proof.
  intros Hm Hh s. unfold try_catch. destruct (Hm s) as (H1 & H2 & H3 & H4).
  destruct (m s) as [[a|e] s1]; cbn [snd] in *.
  - repeat split; assumption.
  - destruct (Hh e s1) as (K1 & K2 & K3 & K4). repeat split; congruence.
Qed.

Create HintDb quiet.

#[local] Hint Resolve quiet_ret quiet_throw quiet_lift quiet_console_log
  quiet_console_error quiet_set_sessionToken : quiet.

Ltac quiet :=
  repeat lazymatch goal with
         | |- quiet (bind _ _) => apply quiet_bind; [|intros ?]
         | |- quiet (try_catch _ _) => apply quiet_try_catch; [|intros ?]
         | |- quiet _ => solve [auto with quiet]
         end.

Lemma quiet_at_most_one {A} (m : prog state A) : quiet m -> at_most_one m.
Proof.
  intros H s. exists []. destruct (H s) as (H1 & _).
  rewrite app_nil_r. split; [exact H1|apply Nat.le_0_l].
Qed.

Lemma at_most_one_send msg : at_most_one (send msg).
Proof.
  intros s. unfold send. destruct (ws s) as [i|].
  - destruct (is_open s).
    + exists [(i, msg)]. split; [reflexivity|apply Nat.le_refl].
    + exists []. rewrite app_nil_r. split; [reflexivity|apply Nat.le_0_l].
  - exists []. rewrite app_nil_r. split; [reflexivity|apply Nat.le_0_l].
Qed.

Lemma send_returns msg s : fst (send msg s) = Return tt.
Proof.
  unfold send. destruct (ws s); [destruct (is_open s)|]; reflexivity.
Qed.

Lemma at_most_one_after_quiet {A B} (m : prog state A) (k : A -> prog state B) :
  quiet m -> (forall a, at_most_one (k a)) -> at_most_one (bind m k).
Proof.
  intros Hm Hk s. unfold bind. destruct (Hm s) as (H1 & _).
  destruct (m s) as [[a|e] s1]; cbn [snd] in *.
  - destruct (Hk a s1) as (l & E & Hl). exists l. rewrite E, H1. auto.
  - exists []. rewrite app_nil_r. split; [exact H1|apply Nat.le_0_l].
Qed.

Lemma at_most_one_before_quiet {A B} (m : prog state A) (k : A -> prog state B) :
  at_most_one m -> (forall a, quiet (k a)) -> at_most_one (bind m k).
Proof.
  intros Hm Hk s. unfold bind. destruct (Hm s) as (l & E & Hl).
  destruct (m s) as [[a|e] s1]; cbn [snd] in *.
  - destruct (Hk a s1) as (K1 & _). exists l. rewrite K1. auto.
  - exists l. auto.
Qed.

Lemma at_most_one_caught {A} (m : prog state A) (h : exn -> prog state A) :
  at_most_one m -> (forall e, quiet (h e)) -> at_most_one (try_catch m h).
Proof.
  intros Hm Hh s. unfold try_catch. destruct (Hm s) as (l & E & Hl).
  destruct (m s) as [[a|e] s1]; cbn [snd] in *.
  - exists l. auto.
  - destruct (Hh e s1) as (K1 & _). exists l. rewrite K1. auto.
Qed.

Lemma at_most_one_detached (m : prog state unit) :
  at_most_one m -> at_most_one (detached m).
Proof.
  intros Hm s. unfold detached. destruct (Hm s) as (l & E & Hl).
  destruct (m s) as [[a|e] s1]; cbn [snd] in *; exists l; auto.
Qed.

Lemma quiet_dispatch_sent R bfo action params s :
  sent (snd (dispatch R bfo action params s)) = sent s.
Proof. destruct (dispatch_quiet R bfo action params s) as (_ & H & _). exact H. Qed.

(** The request handler writes one message at most: the body of the
    [try] fails before its [send] or not at all. *)
Lemma at_most_one_handleRequest R bfo msg :
  at_most_one (handleRequest R bfo msg).
Proof.
  assert (Hobj : forall props, at_most_one (handleRequest R bfo (VObject props))).
  { intros props s. unfold handleRequest. cbn [destructure].
    cbv beta iota delta [bind lift try_catch].
    destruct (to_string (own_property props "action")) as [text|e] eqn:Ht.
    2:{ exists []. rewrite app_nil_r. split; [reflexivity|apply Nat.le_0_l]. }
    unfold console_log_with.
    destruct (format_check _ _) as [u0|e0].
    2:{ exists []. rewrite app_nil_r. split; [reflexivity|apply Nat.le_0_l]. }
    cbv beta iota delta [console_log modify].
    set (s1 := set_console _ s).
    pose proof (quiet_dispatch_sent R bfo (own_property props "action")
                  (own_property props "params") s1) as Hs.
    destruct (dispatch R bfo (own_property props "action")
                (own_property props "params") s1) as [[res|e] s2];
      cbn [snd] in Hs;
      match goal with
      | |- context [send ?m s2] =>
          destruct (at_most_one_send m s2) as (l & E & Hl);
          pose proof (send_returns m s2) as Hret;
          destruct (send m s2) as [[u|e'] s3]; cbn [snd fst] in E, Hret;
          [|discriminate]
      end;
      exists l; rewrite ?console_error_with_string;
      unfold console_log, console_error, modify;
      cbn [snd sent set_console]; rewrite E, Hs; auto. }
  assert (Hnone : forall s : state,
            exists l : list (nat * outbound),
              sent s = (sent s ++ l)%list /\ length l <= 1).
  { intros s. exists []. rewrite app_nil_r. split; [reflexivity|apply Nat.le_0_l]. }
  destruct msg as [| |b|repr|str|items|props].
  - intros s. apply Hnone.
  - intros s. apply Hnone.
  - exact (Hobj []).
  - exact (Hobj []).
  - exact (Hobj []).
  - exact (Hobj []).
  - apply Hobj.
Qed.

Lemma at_most_one_handleMessage R bfo msg :
  at_most_one (handleMessage R bfo msg).
Proof.
  unfold handleMessage.
  apply at_most_one_after_quiet; [auto with quiet|intros type].
  destruct (action_is type "registered"); [apply quiet_at_most_one; quiet|].
  destruct (action_is type "request");
    [apply at_most_one_detached, at_most_one_handleRequest|].
  destruct (action_is type "error"); apply quiet_at_most_one; quiet.
Qed.

Lemma at_most_one_on_message R parse bfo payload :
  at_most_one (on_message R parse bfo payload).
Proof.
  unfold on_message. apply at_most_one_caught; [|intros e; quiet].
  apply at_most_one_after_quiet; [auto with quiet|intros msg].
  apply at_most_one_handleMessage.
Qed.

Lemma at_most_one_on_open R cf random : at_most_one (on_open R cf random).
Proof.
  unfold on_open. apply at_most_one_after_quiet; [auto with quiet|intros _].
  apply at_most_one_send.
Qed.

Lemma sent_run (m : prog state unit) s : sent (run m s) = sent (snd (m s)).
Proof. unfold run. destruct (m s) as [[u|e] s1]; reflexivity. Qed.

Lemma sent_run_reconnect_callback s : sent (run reconnect_callback s) = sent s.
Proof. reflexivity. Qed.

(** No event makes the agent write more than one message: in any state,
    whatever the event and whatever the payload of a message, the
    messages written so far are kept and at most one is added. *)
Theorem one_message_per_event_at_most
    (R : string) (cf : list string)
    (parse : string -> completion value)
    (bfo : value -> completion (list byte))
    (ev : event) (s : state) :
  exists l,
    sent (step R cf parse bfo ev s) = (sent s ++ l)%list /\ length l <= 1.
Proof.
  assert (Hnone : exists l, sent s = (sent s ++ l)%list /\ length l <= 1).
  { exists []. rewrite app_nil_r. split; [reflexivity|apply Nat.le_0_l]. }
  unfold step. destruct (negb (alive s)); [exact Hnone|].
  destruct ev as [i random|i payload|i|i msg|t].
  - destruct (nth_error (sockets s) i) as [[| | |]|]; try exact Hnone.
    rewrite sent_run.
    exact (at_most_one_on_open R cf random (set_readyState i OPEN s)).
  - destruct (nth_error (sockets s) i) as [[| | |]|]; try exact Hnone.
    rewrite sent_run. exact (at_most_one_on_message R parse bfo payload s).
  - destruct (nth_error (sockets s) i) as [[| | |]|]; try exact Hnone;
      destruct (run_on_close_fields (set_readyState i CLOSED s))
        as (_ & _ & _ & _ & Hs & _); rewrite Hs; exact Hnone.
  - destruct (nth_error (sockets s) i); exact Hnone.
  - destruct (armed t s); [|exact Hnone].
    rewrite sent_run_reconnect_callback. exact Hnone.
Qed.

Lemma quiet_bind_lift {A B} (c : completion A) (k : A -> prog state B) :
  (forall a, c = Return a -> quiet (k a)) -> quiet (bind (lift c) k).
Proof.
  intros Hk s. unfold bind, lift. destruct c as [a|e]; [|repeat split].
  exact (Hk a eq_refl s).
Qed.

Lemma member_type msg type :
  member msg "type" = Return type -> type = optional_member msg "type".
Proof.
  destruct msg; cbn [member optional_member]; intros H; inversion H; reflexivity.
Qed.

Lemma action_is_other v name : v <> VString name -> action_is v name = false.
Proof.
  intros H. destruct v; try reflexivity. cbn [action_is].
  apply String.eqb_neq. congruence.
Qed.

(** A message that is not a request is handled quietly. *)
Lemma quiet_on_message R parse bfo payload msg :
  parse payload = Return msg ->
  optional_member msg "type" <> VString "request" ->
  quiet (on_message R parse bfo payload).
Proof.
  intros Hp Hty. unfold on_message. rewrite Hp.
  apply quiet_try_catch; [|intros e; quiet].
  apply quiet_bind_lift. intros msg' E. inversion E; subst msg'.
  unfold handleMessage. apply quiet_bind_lift. intros type Htype.
  apply member_type in Htype. subst type.
  rewrite (action_is_other _ "request" Hty).
  destruct (action_is (optional_member msg "type") "registered"); [quiet|].
  destruct (action_is (optional_member msg "type") "error"); quiet.
Qed.

(** The handler of [message] events catches everything thrown to it. *)
Lemma on_message_returns R parse bfo payload s :
  fst (on_message R parse bfo payload s) = Return tt.
Proof.
  unfold on_message, try_catch.
  destruct ((msg <- lift (parse payload);; handleMessage R bfo msg) s)
    as [[[]|e] s1]; reflexivity.
Qed.

Lemma run_returning (m : prog state unit) s :
  fst (m s) = Return tt -> run m s = snd (m s).
Proof. unfold run. destruct (m s) as [[u|e] s1]; [reflexivity|discriminate]. Qed.

(** Only requests are answered: a message that parses to anything but a
    request (a registration notice, an error notice, a message of an
    unknown or missing type, a value that is no object) makes the agent
    write nothing to the socket; the disk and the connection stay as they
    are, the agent stays alive, and unless the message is a registration
    notice the session token stays as it is. *)
Theorem only_requests_are_answered
    (R : string) (cf : list string)
    (parse : string -> completion value)
    (bfo : value -> completion (list byte))
    (payload : string) (msg : value) (i : nat) (s : state) :
  parse payload = Return msg ->
  optional_member msg "type" <> VString "request" ->
  let s' := step R cf parse bfo (SocketMessage i payload) s in
  sent s' = sent s /\ disk s' = disk s /\ uncaught s' = uncaught s
  /\ conn s' = conn s
  /\ (optional_member msg "type" <> VString "registered" ->
      sessionToken s' = sessionToken s).
Proof.
  intros Hp Hty s'. subst s'. unfold step.
  destruct (negb (alive s)); [repeat split|].
  destruct (nth_error (sockets s) i) as [[| | |]|]; try (repeat split).
  all: rewrite (run_returning _ _ (on_message_returns R parse bfo payload s)).
  1-4: apply (quiet_on_message R parse bfo payload msg Hp Hty s).
  intros Hreg. unfold on_message, try_catch, bind, lift. rewrite Hp.
  unfold handleMessage, bind, lift.
  destruct (member msg "type") as [type|e] eqn:Htype; [|reflexivity].
  apply member_type in Htype. subst type.
  rewrite (action_is_other _ "registered" Hreg).
  rewrite (action_is_other _ "request" Hty).
  destruct (action_is (optional_member msg "type") "error"); reflexivity.
Qed.

Lemma only_requests_are_answered_witness :
  sent (step Scenario.cache ["a.txt"; "b"] Wire.parse Scenario.empty_buffer
          (SocketMessage 0 Wire.error_text) Scenario.ready)
  = sent Scenario.ready
  /\ disk (step Scenario.cache ["a.txt"; "b"] Wire.parse Scenario.empty_buffer
             (SocketMessage 0 Wire.error_text) Scenario.ready)
     = disk Scenario.ready
  /\ uncaught (step Scenario.cache ["a.txt"; "b"] Wire.parse Scenario.empty_buffer
                 (SocketMessage 0 Wire.error_text) Scenario.ready)
     = uncaught Scenario.ready
  /\ conn (step Scenario.cache ["a.txt"; "b"] Wire.parse Scenario.empty_buffer
             (SocketMessage 0 Wire.error_text) Scenario.ready)
     = conn Scenario.ready
  /\ (optional_member Wire.error_value "type" <> VString "registered" ->
      sessionToken (step Scenario.cache ["a.txt"; "b"] Wire.parse
                      Scenario.empty_buffer
                      (SocketMessage 0 Wire.error_text) Scenario.ready)
      = sessionToken Scenario.ready).
Proof.
  apply (only_requests_are_answered Scenario.cache ["a.txt"; "b"] Wire.parse
           Scenario.empty_buffer Wire.error_text Wire.error_value
           0 Scenario.ready eq_refl).
  discriminate.
Defined.

(** A registration notice received on the open socket stores its
    [sessionToken] as it is, whatever value it holds ([undefined] when
    the property is missing), even when printing the token fails; nothing
    is written to the socket and the agent stays alive. *)
Theorem registered_stores_the_token
    (R : string) (cf : list string)
    (parse : string -> completion value)
    (bfo : value -> completion (list byte))
    (payload : string) (props : list (string * value)) (i : nat) (s : state) :
  alive s = true ->
  nth_error (sockets s) i = Some OPEN ->
  parse payload = Return (VObject props) ->
  own_property props "type" = VString "registered" ->
  let s' := step R cf parse bfo (SocketMessage i payload) s in
  sessionToken s' = own_property props "sessionToken"
  /\ sent s' = sent s /\ alive s' = true.
Proof.
  intros Ha Hn Hp Hty s'. subst s'. unfold step. rewrite Ha, Hn. cbn [negb].
  rewrite (run_returning _ _ (on_message_returns R parse bfo payload s)).
  unfold on_message, try_catch, bind, lift. rewrite Hp.
  unfold handleMessage, bind, lift. cbn [member]. rewrite Hty.
  cbn [action_is String.eqb Ascii.eqb Bool.eqb].
  unfold modify, console_log, console_error, modify.
  destruct (to_string (own_property props "sessionToken"));
    cbn [snd fst sessionToken set_sessionToken set_console sent alive uncaught];
    repeat split; exact Ha.
Qed.

Lemma registered_stores_the_token_witness :
  sessionToken (step Scenario.cache ["a.txt"; "b"] Wire.parse Scenario.empty_buffer
                  (SocketMessage 0 Wire.registered_text) Scenario.ready)
  = own_property [("type", VString "registered");
                  ("sessionToken", VString "tok-1")] "sessionToken"
  /\ sent (step Scenario.cache ["a.txt"; "b"] Wire.parse Scenario.empty_buffer
             (SocketMessage 0 Wire.registered_text) Scenario.ready)
     = sent Scenario.ready
  /\ alive (step Scenario.cache ["a.txt"; "b"] Wire.parse Scenario.empty_buffer
              (SocketMessage 0 Wire.registered_text) Scenario.ready) = true.
Proof.
  exact (registered_stores_the_token Scenario.cache ["a.txt"; "b"] Wire.parse
           Scenario.empty_buffer Wire.registered_text
           [("type", VString "registered"); ("sessionToken", VString "tok-1")]
           0 Scenario.ready eq_refl eq_refl eq_refl eq_refl).
Defined.


Lemma steady_open s i :
  steady s -> nth_error (sockets s) i = Some OPEN -> is_open s = true.
Proof.
  intros (_ & _ & H3) Hn. unfold is_open.
  rewrite (H3 i OPEN Hn eq_refl), Hn. reflexivity.
Qed.

Lemma armed_not_open s t :
  steady s -> armed t s = true -> is_open s = false.
Proof.
  intros (_ & H2 & _) Ha. unfold is_open.
  destruct (ws s) as [i|]; [|reflexivity].
  destruct (nth_error (sockets s) i) as [r|] eqn:Hn; [|reflexivity].
  assert (Hlive : live r = false).
  { apply (no_live_socket (sockets s) i r); [|exact Hn].
    unfold live_sockets in H2. unfold armed in Ha.
    destruct (timers s); [discriminate|]. cbn [length] in H2. lia. }
  destruct r; try reflexivity; discriminate.
Qed.

(** One step keeps the session token [null] while the socket is not
    open. *)
Lemma step_token R cf parse bfo ev s :
  steady s ->
  (is_open s = false -> sessionToken s = VNull) ->
  is_open (step R cf parse bfo ev s) = false ->
  sessionToken (step R cf parse bfo ev s) = VNull.
Proof.
  intros Hst Hinv. pose proof Hst as (_ & _ & H3). unfold step.
  destruct (negb (alive s)); [exact Hinv|].
  destruct ev as [i random|i payload|i|i msg|t].
  - destruct (nth_error (sockets s) i) as [[| | |]|] eqn:Hn; try exact Hinv.
    intros Hclosed. exfalso.
    rewrite (is_open_conn (set_readyState i OPEN s)) in Hclosed
      by (apply conn_run, frames_on_open).
    unfold is_open in Hclosed. cbn [ws set_readyState set_sockets sockets] in Hclosed.
    rewrite (H3 i CONNECTING Hn eq_refl) in Hclosed.
    rewrite nth_error_set_nth, Nat.eqb_refl, Hn in Hclosed. discriminate.
  - destruct (nth_error (sockets s) i) as [[| | |]|] eqn:Hn; try exact Hinv.
    intros Hclosed. exfalso.
    rewrite (is_open_conn s) in Hclosed
      by (apply conn_run, frames_on_message).
    rewrite (steady_open s i Hst Hn) in Hclosed. discriminate.
  - destruct (nth_error (sockets s) i) as [[| | |]|] eqn:Hn; try exact Hinv;
      intros _;
      destruct (run_on_close_fields (set_readyState i CLOSED s)) as (Ht & _);
      exact Ht.
  - destruct (nth_error (sockets s) i); exact Hinv.
  - destruct (armed t s) eqn:Ha; [|exact Hinv].
    intros _. apply Hinv. exact (armed_not_open s t Hst Ha).
Qed.

Lemma run_events_token R cf parse bfo evs : forall s,
  steady s ->
  (is_open s = false -> sessionToken s = VNull) ->
  is_open (run_events R cf parse bfo evs s) = false ->
  sessionToken (run_events R cf parse bfo evs s) = VNull.
Proof.
  induction evs as [|ev evs IH]; intros s Hst Hinv; [exact Hinv|].
  cbn [run_events fold_left].
  apply (IH (step R cf parse bfo ev s)).
  - apply step_steady. exact Hst.
  - apply step_token; assumption.
Qed.

(** A session token is held only while the socket is open: in every
    state the agent reaches, with the current socket missing, still
    connecting or closed the token is [null].  A token is never carried
    over from one connection to the next. *)
Theorem token_only_while_open
    (R : string) (cf : list string)
    (parse : string -> completion value)
    (bfo : value -> completion (list byte))
    (evs : list event) (w : world) :
  is_open (run_events R cf parse bfo evs (boot w)) = false ->
  sessionToken (run_events R cf parse bfo evs (boot w)) = VNull.
Proof.
  apply run_events_token; [apply boot_steady|reflexivity].
Qed.

Lemma token_only_while_open_witness :
  sessionToken
    (run_events Scenario.cache ["a.txt"; "b"] Wire.parse Scenario.empty_buffer
       [SocketOpen 0 "0123456789abcdef";
        SocketMessage 0 Wire.registered_text;
        SocketClose 0;
        TimerExpired 0]
       (boot Scenario.world0))
  = VNull.
Proof.
  exact (token_only_while_open Scenario.cache ["a.txt"; "b"] Wire.parse
           Scenario.empty_buffer
           [SocketOpen 0 "0123456789abcdef";
            SocketMessage 0 Wire.registered_text;
            SocketClose 0;
            TimerExpired 0]
           Scenario.world0 eq_refl).
Defined.

(** The [open] event of the socket the agent is connecting. *)
Lemma open_registers R cf parse bfo s i random :
  steady s -> alive s = true ->
  nth_error (sockets s) i = Some CONNECTING ->
  sent (step R cf parse bfo (SocketOpen i random) s)
  = (sent s ++ [(i, Register random R (firstn 20 cf))])%list
  /\ is_open (step R cf parse bfo (SocketOpen i random) s) = true
  /\ alive (step R cf parse bfo (SocketOpen i random) s) = true
  /\ sessionToken (step R cf parse bfo (SocketOpen i random) s)
     = sessionToken s.
Proof.
  intros Hst Ha Hn. pose proof Hst as (_ & _ & H3).
  pose proof (H3 i CONNECTING Hn eq_refl) as Hw.
  unfold step. rewrite Ha, Hn. cbn [negb].
  unfold run, on_open, bind, console_log, modify.
  set (s1 := set_console _ (set_readyState i OPEN s)).
  assert (Hw1 : ws s1 = Some i) by exact Hw.
  assert (Ho1 : is_open s1 = true).
  { unfold is_open. rewrite Hw1.
    cbn [s1 sockets set_console set_readyState set_sockets].
    rewrite nth_error_set_nth, Nat.eqb_refl, Hn. reflexivity. }
  rewrite (send_open _ s1 i Hw1 Ho1).
  split; [reflexivity|]. split; [exact Ho1|]. split; [exact Ha|reflexivity].
Qed.

(** When a socket opens, the agent registers on it, once: in a state the
    agent reaches, the [open] event of the socket that is connecting
    makes the agent write exactly one message to that socket, the
    registration with the identifier drawn for it, the cache root and the
    first 20 names of the listing taken when the script started; no
    session token is held yet. *)
Theorem open_registers_once
    (R : string) (cf : list string)
    (parse : string -> completion value)
    (bfo : value -> completion (list byte))
    (evs : list event) (w : world) (i : nat) (random : string) :
  let s := run_events R cf parse bfo evs (boot w) in
  alive s = true ->
  nth_error (sockets s) i = Some CONNECTING ->
  let s' := step R cf parse bfo (SocketOpen i random) s in
  sent s' = (sent s ++ [(i, Register random R (firstn 20 cf))])%list
  /\ length (firstn 20 cf) <= 20
  /\ is_open s' = true
  /\ alive s' = true
  /\ sessionToken s' = VNull.
Proof.
  intros s Ha Hn s'.
  pose proof (run_events_steady R cf parse bfo evs (boot w) (boot_steady w))
    as Hst.
  fold s in Hst. pose proof Hst as (_ & _ & H3).
  assert (Hclosed : is_open s = false)
    by (unfold is_open; rewrite (H3 i CONNECTING Hn eq_refl), Hn; reflexivity).
  pose proof (run_events_token R cf parse bfo evs (boot w) (boot_steady w)
                (fun _ => eq_refl) Hclosed) as Htok.
  fold s in Htok.
  destruct (open_registers R cf parse bfo s i random Hst Ha Hn)
    as (Hsent & Ho & Hal & Ht).
  subst s'. split; [exact Hsent|]. split; [apply firstn_le_length|].
  split; [exact Ho|]. split; [exact Hal|]. rewrite Ht. exact Htok.
Qed.

Lemma open_registers_once_witness :
  let s' := step Scenario.cache ["a.txt"; "b"] Wire.parse Scenario.empty_buffer
              (SocketOpen 0 "0123456789abcdef")
              (run_events Scenario.cache ["a.txt"; "b"] Wire.parse
                 Scenario.empty_buffer [] (boot Scenario.world0)) in
  sent s'
  = (sent (run_events Scenario.cache ["a.txt"; "b"] Wire.parse
             Scenario.empty_buffer [] (boot Scenario.world0))
     ++ [(0, Register "0123456789abcdef" Scenario.cache
               (firstn 20 ["a.txt"; "b"]))])%list
  /\ length (firstn 20 ["a.txt"; "b"]) <= 20
  /\ is_open s' = true
  /\ alive s' = true
  /\ sessionToken s' = VNull.
Proof.
  exact (open_registers_once Scenario.cache ["a.txt"; "b"] Wire.parse
           Scenario.empty_buffer [] Scenario.world0 0 "0123456789abcdef"
           eq_refl eq_refl).
Defined.




Lemma listFiles_denied R params P w :
  or_else (optional_member params "subdir") (VString "") = VString P ->
  Path.startsWith (Path.join [R; P]) R = false ->
  listFiles R params w = (Throw access_denied, w).
Proof.
  intros Hs Hg. unfold listFiles. rewrite Hs.
  cbv beta iota delta [bind lift path_join]. rewrite Hg. reflexivity.
Qed.

Lemma readFile_denied R params P w :
  destructure params "params" "filePath" = Return (VString P) ->
  Path.startsWith (Path.join [R; P]) R = false ->
  readFile R params w = (Throw access_denied, w).
Proof.
  intros Hp Hg. unfold readFile. rewrite Hp.
  cbv beta iota delta [bind lift path_join]. rewrite Hg. reflexivity.
Qed.

Lemma set_disk_same s : set_disk (disk s) s = s.
Proof. destruct s; reflexivity. Qed.

(** A request for a path the guard refuses is answered, not dropped: the
    response has [success = false] and the error text [Access denied:
    path traversal attempt], for [listFiles], [readFile] and [writeFile]
    alike, and the agent is otherwise unchanged but for its console: no
    call of the file system is made. *)
Theorem refused_path_is_answered_access_denied
    (R : string) (bfo : value -> completion (list byte))
    (props : list (string * value)) (P : string) (s : state) (i : nat) :
  ws s = Some i -> is_open s = true ->
  Path.startsWith (Path.join [R; P]) R = false ->
  (own_property props "action" = VString "listFiles"
   /\ or_else (optional_member (own_property props "params") "subdir")
              (VString "") = VString P)
  \/ ((own_property props "action" = VString "readFile"
       \/ own_property props "action" = VString "writeFile")
      /\ destructure (own_property props "params") "params" "filePath"
         = Return (VString P)) ->
  exists s',
    handleRequest R bfo (VObject props) s = (Return tt, s')
    /\ disk s' = disk s
    /\ sent s'
       = (sent s
          ++ [(i, Response
                    {| requestId := own_property props "requestId";
                       success := false;
                       data := None;
                       error := Some "Access denied: path traversal attempt" |})])%list.
Proof.
  intros Hw Ho Hg Hcase.
  assert (Hd : exists text,
            to_string (own_property props "action") = Return text
            /\ includes "%" text = false
            /\ forall s0, dispatch R bfo (own_property props "action")
                            (own_property props "params") s0
                          = (Throw access_denied, s0)).
  { destruct Hcase as [[Ha Hs]|[[Ha|Ha] Hp]]; rewrite Ha.
    - exists "listFiles". split; [reflexivity|]. split; [reflexivity|].
      intros s0.
      unfold dispatch. cbn [action_is String.eqb Ascii.eqb Bool.eqb].
      unfold in_fs. rewrite (listFiles_denied R _ P _ Hs Hg).
      rewrite set_disk_same. reflexivity.
    - exists "readFile". split; [reflexivity|]. split; [reflexivity|].
      intros s0.
      unfold dispatch. cbn [action_is String.eqb Ascii.eqb Bool.eqb].
      unfold in_fs. rewrite (readFile_denied R _ P _ Hp Hg).
      rewrite set_disk_same. reflexivity.
    - exists "writeFile". split; [reflexivity|]. split; [reflexivity|].
      intros s0.
      unfold dispatch. cbn [action_is String.eqb Ascii.eqb Bool.eqb].
      unfold in_fs. rewrite (AgentFacts.writeFile_denied R bfo _ P _ Hp Hg).
      rewrite set_disk_same. reflexivity. }
  destruct Hd as (text & Ht & Hplain & Hd).
  unfold handleRequest. cbn [destructure].
  cbv beta iota delta [bind lift try_catch]. rewrite Ht.
  rewrite (console_log_with_prints _ _ _
             (request_line_prints _ _ (or_introl Hplain))).
  cbv beta iota delta [console_log modify]. rewrite Hd.
  set (s3 := set_console _ s).
  rewrite (send_open _ s3 i Hw Ho), console_error_with_string.
  eexists. split; [reflexivity|]. split; reflexivity.
Qed.

Lemma refused_path_is_answered_access_denied_witness :
  exists s',
    handleRequest Scenario.cache Scenario.empty_buffer
      (VObject [("type", VString "request");
                ("requestId", VNumber "8");
                ("action", VString "readFile");
                ("params", VObject [("filePath", VString "../../etc/passwd")])])
      Scenario.ready = (Return tt, s')
    /\ disk s' = disk Scenario.ready
    /\ sent s'
       = (sent Scenario.ready
          ++ [(0, Response
                    {| requestId :=
                         own_property
                           [("type", VString "request");
                            ("requestId", VNumber "8");
                            ("action", VString "readFile");
                            ("params",
                             VObject [("filePath", VString "../../etc/passwd")])]
                           "requestId";
                       success := false;
                       data := None;
                       error := Some "Access denied: path traversal attempt" |})])%list.
Proof.
  exact (refused_path_is_answered_access_denied
           Scenario.cache Scenario.empty_buffer
           [("type", VString "request");
            ("requestId", VNumber "8");
            ("action", VString "readFile");
            ("params", VObject [("filePath", VString "../../etc/passwd")])]
           "../../etc/passwd" Scenario.ready 0
           eq_refl eq_refl eq_refl
           (or_intror (conj (or_introl eq_refl) eq_refl))).
Defined.

Lemma length_set_nth {A} (l : list A) : forall i x,
  length (set_nth i x l) = length l.
Proof.
  induction l as [|y l IH]; intros i x; [destruct i; reflexivity|].
  destruct i; cbn [set_nth length]; [reflexivity|]. rewrite IH. reflexivity.
Qed.

Lemma live_socket_no_timer s i r :
  steady s -> nth_error (sockets s) i = Some r -> live r = true ->
  timers s = [] /\ reconnectTimeout s = None.
Proof.
  intros (H1 & H2 & _) Hn Hl.
  pose proof (live_set_nth_closed (sockets s) i r Hn Hl) as Hlive.
  unfold live_sockets in H2.
  assert (Ht : timers s = []) by (destruct (timers s); [reflexivity|cbn [length] in H2; lia]).
  split; [exact Ht|].
  rewrite Ht in H1. destruct (reconnectTimeout s); [discriminate|reflexivity].
Qed.

Lemma step_close_live R cf parse bfo s i r :
  alive s = true -> nth_error (sockets s) i = Some r -> live r = true ->
  step R cf parse bfo (SocketClose i) s
  = run on_close (set_readyState i CLOSED s).
Proof.
  intros Ha Hn Hl. unfold step. rewrite Ha, Hn. cbn [negb].
  destruct r; [reflexivity|reflexivity|reflexivity|discriminate].
Qed.

Lemma step_timer_armed R cf parse bfo s t :
  alive s = true -> armed t s = true ->
  step R cf parse bfo (TimerExpired t) s = run reconnect_callback (disarm t s).
Proof. intros Ha Harm. unfold step. rewrite Ha, Harm. reflexivity. Qed.

Lemma uncaught_run_reconnect_callback s :
  uncaught (run reconnect_callback s) = uncaught s.
Proof. reflexivity. Qed.

(** The reconnection cycle ends in a new registration: from a state the
    agent reaches with a socket not yet closed, the [close] event of that
    socket arms the timer and leaves no open socket; when the timer
    expires a new socket is connecting and no timer is left; and when
    that socket opens the agent registers on it.  Nothing else is written
    on the way. *)
Theorem reconnect_registers_again
    (R : string) (cf : list string)
    (parse : string -> completion value)
    (bfo : value -> completion (list byte))
    (evs : list event) (w : world) (i : nat) (r : readyState)
    (random : string) :
  let s := run_events R cf parse bfo evs (boot w) in
  alive s = true -> nth_error (sockets s) i = Some r -> live r = true ->
  let t := timer_count s in
  let j := length (sockets s) in
  let s1 := step R cf parse bfo (SocketClose i) s in
  let s2 := step R cf parse bfo (TimerExpired t) s1 in
  let s3 := step R cf parse bfo (SocketOpen j random) s2 in
  armed t s1 = true /\ is_open s1 = false
  /\ nth_error (sockets s2) j = Some CONNECTING
  /\ ws s2 = Some j /\ timers s2 = []
  /\ sent s3 = (sent s ++ [(j, Register random R (firstn 20 cf))])%list
  /\ is_open s3 = true /\ alive s3 = true.
Proof.
  intros s Ha Hn Hl t j s1 s2 s3.
  pose proof (run_events_steady R cf parse bfo evs (boot w) (boot_steady w))
    as Hst.
  fold s in Hst.
  destruct (live_socket_no_timer s i r Hst Hn Hl) as [Htim Hrt].
  assert (Hst1 : steady s1) by (apply step_steady; exact Hst).
  assert (Hst2 : steady s2) by (apply step_steady; exact Hst1).
  assert (E1 : s1 = run on_close (set_readyState i CLOSED s))
    by (apply (step_close_live R cf parse bfo s i r); assumption).
  destruct (run_on_close_fields (set_readyState i CLOSED s))
    as (_ & Ht1 & _ & Hs1 & Hsent1 & Hu1).
  rewrite <- E1 in Ht1, Hs1, Hsent1, Hu1.
  cbn [reconnectTimeout timers timer_count sockets sent uncaught
       set_readyState set_sockets] in Ht1, Hs1, Hsent1, Hu1.
  rewrite Hrt, Htim in Ht1. cbn [app] in Ht1. fold t in Ht1.
  assert (Ha1 : alive s1 = true) by (unfold alive in *; rewrite Hu1; exact Ha).
  assert (Harm : armed t s1 = true).
  { unfold armed. rewrite Ht1. cbn [existsb fst]. rewrite Nat.eqb_refl.
    reflexivity. }
  assert (E2 : s2 = run reconnect_callback (disarm t s1))
    by (apply step_timer_armed; assumption).
  destruct (run_reconnect_callback_fields (disarm t s1))
    as (_ & Ht2 & Hs2 & Hw2).
  rewrite <- E2 in Ht2, Hs2, Hw2.
  cbn [timers sockets disarm set_timers] in Ht2, Hs2, Hw2.
  rewrite Ht1 in Ht2. cbn [filter fst] in Ht2. rewrite Nat.eqb_refl in Ht2.
  cbn [negb] in Ht2.
  rewrite Hs1 in Hs2, Hw2. rewrite length_set_nth in Hw2. fold j in Hw2.
  assert (Hn2 : nth_error (sockets s2) j = Some CONNECTING).
  { rewrite Hs2. rewrite nth_error_app2 by (rewrite length_set_nth; apply Nat.le_refl).
    rewrite length_set_nth. unfold j. rewrite Nat.sub_diag. reflexivity. }
  assert (Hsent2 : sent s2 = sent s).
  { rewrite E2, sent_run_reconnect_callback. exact Hsent1. }
  assert (Ha2 : alive s2 = true).
  { unfold alive. rewrite E2, uncaught_run_reconnect_callback.
    cbn [uncaught disarm set_timers]. exact Ha1. }
  destruct (open_registers R cf parse bfo s2 j random Hst2 Ha2 Hn2)
    as (Hsent3 & Ho3 & Ha3 & _).
  fold s3 in Hsent3, Ho3, Ha3.
  split; [exact Harm|]. split; [exact (armed_not_open s1 t Hst1 Harm)|].
  split; [exact Hn2|]. split; [exact Hw2|]. split; [exact Ht2|].
  split; [rewrite Hsent3, Hsent2; reflexivity|]. split; assumption.
Qed.

Lemma reconnect_registers_again_witness :
  let s := run_events Scenario.cache ["a.txt"; "b"] Wire.parse
             Scenario.empty_buffer
             [SocketOpen 0 "0123456789abcdef";
              SocketMessage 0 Wire.registered_text]
             (boot Scenario.world0) in
  let s1 := step Scenario.cache ["a.txt"; "b"] Wire.parse Scenario.empty_buffer
              (SocketClose 0) s in
  let s2 := step Scenario.cache ["a.txt"; "b"] Wire.parse Scenario.empty_buffer
              (TimerExpired (timer_count s)) s1 in
  let s3 := step Scenario.cache ["a.txt"; "b"] Wire.parse Scenario.empty_buffer
              (SocketOpen (length (sockets s)) "fedcba9876543210") s2 in
  armed (timer_count s) s1 = true /\ is_open s1 = false
  /\ nth_error (sockets s2) (length (sockets s)) = Some CONNECTING
  /\ ws s2 = Some (length (sockets s)) /\ timers s2 = []
  /\ sent s3
     = (sent s ++ [(length (sockets s),
                    Register "fedcba9876543210" Scenario.cache
                      (firstn 20 ["a.txt"; "b"]))])%list
  /\ is_open s3 = true /\ alive s3 = true.
Proof.
  exact (reconnect_registers_again Scenario.cache ["a.txt"; "b"] Wire.parse
           Scenario.empty_buffer
           [SocketOpen 0 "0123456789abcdef";
            SocketMessage 0 Wire.registered_text]
           Scenario.world0 0 OPEN "fedcba9876543210"
           eq_refl eq_refl eq_refl).
Defined.

End SessionFacts.

(** ** Startup *)

Module StartupFacts.
Import Js Fs Path PathFacts FsFacts VacantFacts Agent AgentFacts.
Import GuardFacts OperationFacts Startup.
Local Open Scope prog_scope.








Lemma process_cwd_absolute w : isAbsolute (process_cwd w) = true.
Proof. reflexivity. Qed.










End StartupFacts.
